(** * Rule-based quiz grading engine: a shallow embedding and its properties

    The development follows [phase-1/services/quiz_grading_service.py]
    (class [QuizGradingService]) and [phase-1/models/quiz.py].

    - Python [str] values are [string]s whose characters are the code
      points 0..255; [lower], [strip], [split] and the [in] operator are
      written out for that range.
    - Python [int] is [Z]; the [Integer] columns [points] and
      [points_awarded] of the PostgreSQL schema hold 32-bit integers.
    - Python [float] is IEEE-754 binary64.  A finite double is represented
      by its exact rational value and every operation rounds the exact
      result to the nearest double, ties to even ([Float.RN]).
    - Exceptions are values of [exn] threaded through the [res] monad.
    - The [dict] built by the service is a [gmap]; token [set]s are [gset]s.
    - The [Session] is the three tables the service queries; their rows
      hold no NULL, and a submitted [answer_text] is a text. *)

From Stdlib Require Import ZArith QArith Qround Qpower Qreduction Qminmax Lqa Lia.
From Stdlib Require Import String Ascii List Bool SpecFloat.
From Stdlib Require Qcanon.
From stdpp Require Import gmap strings sorting.

Local Open Scope string_scope.
Local Open Scope Z_scope.

(** ** Binary64 arithmetic *)

Module Float.

Definition prec : Z := 53.
Definition emin : Z := -1074.

Definition pow2 (e : Z) : Q := (2 ^ e)%Q.

(** [ilog2 x] is the integer [l] with [2^l <= x < 2^(l+1)], for [0 < x]. *)
Definition ilog2 (x : Q) : Z :=
  let l := Z.log2 (Qnum x) - Z.log2 (Zpos (Qden x)) in
  if Qle_bool (pow2 l) x then l else l - 1.

Definition round_half_even (q : Q) : Z :=
  let f := Qfloor q in
  match Qcompare (q - inject_Z f) (1 # 2) with
  | Lt => f
  | Gt => f + 1
  | Eq => if Z.even f then f else f + 1
  end.

(** Exponent of the last place of the double nearest to [x] (subnormals
    share the exponent [emin]). *)
Definition fexp (x : Q) : Z := Z.max (ilog2 x - (prec - 1)) emin.

Definition RNpos (x : Q) : Q :=
  let e := fexp x in (inject_Z (round_half_even (x / pow2 e)) * pow2 e)%Q.

(** Round to nearest double, ties to even.  Magnitudes stay far below
    [2^1024] for 32-bit columns, so overflow to infinity does not arise. *)
Definition RN (x : Q) : Q :=
  match Qcompare x 0 with
  | Eq => 0%Q
  | Gt => Qred (RNpos x)
  | Lt => Qred (- RNpos (- x))
  end.

(** [float(z)] *)
Definition float_of_int (z : Z) : Q := RN (inject_Z z).
(** [x * y] on floats *)
Definition fmul (x y : Q) : Q := RN (x * y).
(** [a / b] on ints (true division is correctly rounded), [b <> 0] *)
Definition int_truediv (a b : Z) : Q := RN (inject_Z a / inject_Z b).
(** [int(x)]: truncation toward zero *)
Definition int_of_float (x : Q) : Z := Z.quot (Qnum x) (Zpos (Qden x)).
(** [round(x, 2)]: the decimal expansion of [x] is rounded half-even to
    two places and the result is read back as a double. *)
Definition round2 (x : Q) : Q := RN (inject_Z (round_half_even (x * 100)) / 100).
(** A decimal literal [n/d] of the source text. *)
Definition literal (n : Z) (d : positive) : Q := RN (n # d).

Definition f0_3 : Q := literal 3 10.
Definition f0_5 : Q := literal 5 10.
Definition f0_7 : Q := literal 7 10.
Definition f0_8 : Q := literal 8 10.
Definition f1_0 : Q := literal 1 1.

(** [x >= y] and [x > y]; Python compares an int with a float exactly. *)
Definition fge (x y : Q) : bool := Qle_bool y x.
Definition fgt (x y : Q) : bool := negb (Qle_bool x y).
(** [min(x, y)] *)
Definition fmin (x y : Q) : Q := if Qle_bool x y then x else y.

(** The rational value of a finite [spec_float], to compare with the
    Standard Library's binary64 operations. *)
Definition SF2Q (f : spec_float) : Q :=
  match f with
  | S754_finite s m e => ((if s then -1 else 1) * inject_Z (Zpos m) * pow2 e)%Q
  | _ => 0%Q
  end.

Definition SF_of_Z (z : Z) : spec_float := binary_normalize 53 1024 z 0 false.

(** [a / b] on ints and [p * (n / d)] with the Standard Library's
    binary64 operations. *)
Definition SF_truediv (a b : Z) : spec_float := SFdiv 53 1024 (SF_of_Z a) (SF_of_Z b).
Definition SF_scale (p n d : Z) : spec_float := SFmul 53 1024 (SF_of_Z p) (SF_truediv n d).

(** The model and the Standard Library agree on [p * 0.7] and [p * 0.8]
    for [p] below [products], and on [k / n] and [k / n * 100] for [k]
    below [quotients] and [n] from 1 to [quotients]. *)
Definition agrees_with_SpecFloat (products quotients : nat) : bool :=
  let range := map Z.of_nat (seq 0 quotients) in
  forallb (fun p =>
             Qeq_bool (SF2Q (SF_scale p 7 10)) (fmul (float_of_int p) f0_7) &&
             Qeq_bool (SF2Q (SF_scale p 8 10)) (fmul (float_of_int p) f0_8))
          (map Z.of_nat (seq 0 products)) &&
  forallb (fun k =>
             forallb (fun n =>
                        Qeq_bool (SF2Q (SF_truediv k (n + 1))) (int_truediv k (n + 1)) &&
                        Qeq_bool (SF2Q (SFmul 53 1024 (SF_truediv k (n + 1)) (SF_of_Z 100)))
                                 (fmul (int_truediv k (n + 1)) (float_of_int 100)))
                     range) range.

End Float.

(** ** Text *)

(** [str.isspace] on code points below 256. *)
Definition isspace (c : ascii) : bool :=
  let n := N_of_ascii c in
  (((9 <=? n) && (n <=? 13)) || ((28 <=? n) && (n <=? 32)) || (n =? 133) || (n =? 160))%N.

(** [str.lower] on one code point below 256. *)
Definition lower_char (c : ascii) : ascii :=
  let n := N_of_ascii c in
  if (((65 <=? n) && (n <=? 90)) || ((192 <=? n) && (n <=? 222) && negb (n =? 215)))%N
  then ascii_of_N (n + 32) else c.

Fixpoint lower (s : string) : string :=
  match s with
  | EmptyString => EmptyString
  | String c s' => String (lower_char c) (lower s')
  end.

Fixpoint lstrip (s : string) : string :=
  match s with
  | EmptyString => EmptyString
  | String c s' => if isspace c then lstrip s' else s
  end.

Fixpoint rstrip (s : string) : string :=
  match s with
  | EmptyString => EmptyString
  | String c s' =>
      match rstrip s' with
      | EmptyString => if isspace c then EmptyString else String c EmptyString
      | r => String c r
      end
  end.

Definition strip (s : string) : string := rstrip (lstrip s).

(** [s.split()]: maximal runs of non-whitespace characters. *)
Fixpoint split_go (s : string) (tok : string) : list string :=
  match s with
  | EmptyString => match tok with EmptyString => [] | _ => [tok] end
  | String c s' =>
      if isspace c
      then match tok with EmptyString => split_go s' EmptyString | _ => tok :: split_go s' EmptyString end
      else split_go s' (tok +:+ String c EmptyString)
  end.

Definition split (s : string) : list string := split_go s EmptyString.

(** [needle in hay] *)
Fixpoint contains (needle hay : string) : bool :=
  String.prefix needle hay ||
  match hay with
  | EmptyString => false
  | String _ hay' => contains needle hay'
  end.

(** [s[:n]] *)
Definition take_str (n : nat) (s : string) : string := String.substring 0 n s.

(** [not s.strip()] *)
Definition blank (s : string) : bool := String.eqb (strip s) EmptyString.

(** ** Data model ([models/quiz.py]) *)

(** A value of an [Integer] column: a signed 32-bit integer. *)
Module Int32.

Definition in_range (z : Z) : bool := (- 2 ^ 31 <=? z) && (z <? 2 ^ 31).

Record t := mk { val : Z; val_range : in_range val = true }.

Definition zero : t := mk 0 eq_refl.

(** Total constructor: values outside the column range are not storable
    and are read as [zero]. *)
Definition of_Z (z : Z) : t :=
  match in_range z as b return in_range z = b -> t with
  | true => fun H => mk z H
  | false => fun _ => zero
  end eq_refl.

End Int32.

Coercion Int32.val : Int32.t >-> Z.

(** Primary keys are UUIDs, i.e. 128-bit numbers. *)
Abbreviation uuid := N.

Inductive QuestionType := MCQ | TF | FILL_BLANK | ESSAY.

(** [QuestionType.value] *)
Definition value (t : QuestionType) : string :=
  match t with
  | MCQ => "mcq"
  | TF => "tf"
  | FILL_BLANK => "fill_blank"
  | ESSAY => "essay"
  end.

(** A row of [quizzes]; [quiz_pk] is its column [id]. *)
Record Quiz := {
  quiz_pk : uuid;
  title : string
}.

(** A row of [quiz_questions]; [question_pk] is its column [id]. *)
Record QuizQuestion := {
  question_pk : uuid;
  quiz_id : uuid;
  question_text : string;
  question_type : QuestionType;
  question_order : Z;
  points : Int32.t
}.

(** A row of [quiz_answers]. *)
Record QuizAnswer := {
  question_id : uuid;
  answer_text : string;
  is_correct : bool;
  points_awarded : Int32.t
}.

(** The tables read through the [Session]; rows are kept in the order in
    which an unordered query returns them. *)
Record Session := {
  quizzes : list Quiz;
  quiz_questions : list QuizQuestion;
  quiz_answers : list QuizAnswer
}.

(** One element of [user_answers], a JSON object: [ua_question_id] is
    [answer.get("question_id")] ([None] when the key is absent or is not
    the id of anything) and [ua_answer_text] is the value under
    ["answer_text"], when present. *)
Record UserAnswer := {
  ua_question_id : option uuid;
  ua_answer_text : option string
}.

(** ** Exceptions *)

Inductive exn :=
| ValueError (msg : string)
| ZeroDivisionError
| IndexError.

Inductive res (A : Type) :=
| Ok (a : A)
| Raise (e : exn).

Arguments Ok {A} a.
Arguments Raise {A} e.

Definition res_bind {A B : Type} (c : res A) (k : A -> res B) : res B :=
  match c with
  | Ok a => k a
  | Raise e => Raise e
  end.

Notation "'do' x <- c ; k" := (res_bind c (fun x => k))
  (at level 10, x pattern, c at level 100, k at level 200).

(** [a / b] on ints *)
Definition truediv (a b : Z) : res Q :=
  if b =? 0 then Raise ZeroDivisionError else Ok (Float.int_truediv a b).

(** ** Type graders *)

(** What a grader returns: [(is_correct, points_awarded, feedback)]. *)
Definition grade : Type := bool * Z * string.

(** [answer_text.lower().strip()] *)
Definition normalize (s : string) : string := strip (lower s).

(** [int(points_awarded * c)] for an int [points_awarded] and a float [c] *)
Definition partial_credit (points_awarded : Z) (c : Q) : Z :=
  Float.int_of_float (Float.fmul (Float.float_of_int points_awarded) c).

(** First loop of [_grade_mcq]: exact match. *)
Fixpoint mcq_exact (user_answer_lower : string) (correct_answers : list QuizAnswer)
  : option grade :=
  match correct_answers with
  | [] => None
  | correct_answer :: rest =>
      let correct_text_lower := normalize (answer_text correct_answer) in
      if String.eqb user_answer_lower correct_text_lower
      then Some (true, Int32.val (points_awarded correct_answer), "Correct! Well done.")
      else mcq_exact user_answer_lower rest
  end.

(** Second loop of [_grade_mcq]: a correct option occurs in the answer. *)
Fixpoint mcq_selected (user_answer_lower : string) (correct_answers : list QuizAnswer)
  : option grade :=
  match correct_answers with
  | [] => None
  | correct_answer :: rest =>
      if contains (normalize (answer_text correct_answer)) user_answer_lower
      then Some (true, Int32.val (points_awarded correct_answer),
                 "Partially correct. Consider reviewing the material for a complete answer.")
      else mcq_selected user_answer_lower rest
  end.

Definition _grade_mcq (user_answer : string) (correct_answers : list QuizAnswer)
  : res grade :=
  let user_answer_lower := normalize user_answer in
  match mcq_exact user_answer_lower correct_answers with
  | Some g => Ok g
  | None =>
      match mcq_selected user_answer_lower correct_answers with
      | Some g => Ok g
      | None =>
          let feedback :=
            match correct_answers with
            | first :: _ => "Incorrect. The correct answer was: " +:+ answer_text first
            | [] => "Incorrect answer."
            end in
          Ok (false, 0, feedback)
      end
  end.

Definition mem (s : string) (l : list string) : bool := existsb (String.eqb s) l.

(** The condition of the [if] in the loop of [_grade_true_false]. *)
Definition tf_agree (user_answer_lower correct_text_lower : string) : bool :=
  (mem correct_text_lower ["true"; "yes"; "correct"] &&
   mem user_answer_lower ["true"; "yes"; "correct"; "t"; "y"]) ||
  (mem correct_text_lower ["false"; "no"; "incorrect"] &&
   mem user_answer_lower ["false"; "no"; "incorrect"; "f"; "n"]).

Fixpoint tf_loop (user_answer_lower : string) (correct_answers : list QuizAnswer)
  : option grade :=
  match correct_answers with
  | [] => None
  | correct_answer :: rest =>
      let correct_text_lower := normalize (answer_text correct_answer) in
      if tf_agree user_answer_lower correct_text_lower
      then Some (true, Int32.val (points_awarded correct_answer), "Correct! Well done.")
      else tf_loop user_answer_lower rest
  end.

Definition _grade_true_false (user_answer : string) (correct_answers : list QuizAnswer)
  : res grade :=
  let user_answer_lower := normalize user_answer in
  match tf_loop user_answer_lower correct_answers with
  | Some g => Ok g
  | None =>
      let feedback :=
        match correct_answers with
        | first :: _ => "Incorrect. The correct answer was: " +:+ answer_text first
        | [] => "Incorrect answer."
        end in
      Ok (false, 0, feedback)
  end.

(** [set(text.split())] *)
Definition words (text : string) : gset string := list_to_set (split text).

(** The body of the loop of [_grade_fill_blank] for one correct answer:
    [Some g] when it returns [g], [None] when the loop goes on. *)
Definition fill_blank_step (user_answer_lower : string) (correct_answer : QuizAnswer)
  : res (option grade) :=
  let correct_text_lower := normalize (answer_text correct_answer) in
  if String.eqb user_answer_lower correct_text_lower
  then Ok (Some (true, Int32.val (points_awarded correct_answer), "Correct! Well done."))
  else if contains correct_text_lower user_answer_lower ||
          contains user_answer_lower correct_text_lower
  then Ok (Some (true, partial_credit (points_awarded correct_answer) Float.f0_8,
                 "Close! The answer was slightly different than expected."))
  else
    let correct_words := words correct_text_lower in
    let user_words := words user_answer_lower in
    do ratio <- truediv (Z.of_nat (size (correct_words ∩ user_words)))
                        (Z.of_nat (size correct_words));
    if Float.fge ratio Float.f0_8
    then Ok (Some (true, partial_credit (points_awarded correct_answer) Float.f0_7,
                   "Partially correct. Consider reviewing the exact terminology."))
    else Ok None.

Fixpoint fill_blank_loop (user_answer_lower : string) (correct_answers : list QuizAnswer)
  : res (option grade) :=
  match correct_answers with
  | [] => Ok None
  | correct_answer :: rest =>
      do r <- fill_blank_step user_answer_lower correct_answer;
      match r with
      | Some g => Ok (Some g)
      | None => fill_blank_loop user_answer_lower rest
      end
  end.

Definition _grade_fill_blank (user_answer : string) (correct_answers : list QuizAnswer)
  : res grade :=
  if blank user_answer then Ok (false, 0, "No answer provided.")
  else
    let user_answer_lower := normalize user_answer in
    do r <- fill_blank_loop user_answer_lower correct_answers;
    match r with
    | Some g => Ok g
    | None =>
        let feedback :=
          match correct_answers with
          | first :: _ => "Incorrect. Expected: " +:+ answer_text first
          | [] => "Incorrect answer."
          end in
        Ok (false, 0, feedback)
    end.

(** [[term.strip() for term in text.split() if len(term) > 3]] *)
Definition key_terms (text : string) : list string :=
  map strip (List.filter (fun term => (3 <? String.length term)%nat) (split text)).

(** The inner [for term in key_terms] loop: the new [key_terms_found]. *)
Definition count_found (user_answer : string) (terms : list string) (found : Z) : Z :=
  fold_left (fun acc term => if contains (lower term) (lower user_answer) then acc + 1 else acc)
            terms found.

(** The outer loop of [_grade_essay]: [(key_terms_found, total_key_terms)]. *)
Definition essay_terms (user_answer : string) (correct_answers : list QuizAnswer) : Z * Z :=
  fold_left
    (fun '(key_terms_found, total_key_terms) correct_answer =>
       let terms := key_terms (answer_text correct_answer) in
       (count_found user_answer terms key_terms_found,
        total_key_terms + Z.of_nat (length terms)))
    correct_answers (0, 0).

Definition _grade_essay (user_answer : string) (correct_answers : list QuizAnswer)
  : res grade :=
  if blank user_answer then Ok (false, 0, "No answer provided.")
  else if (String.length user_answer <? 50)%nat
  then Ok (true, 1, "Response is too short. Please provide more detail and explanation.")
  else
    let '(key_terms_found, total_key_terms) := essay_terms user_answer correct_answers in
    if 0 <? total_key_terms then
      do match_ratio <- truediv key_terms_found total_key_terms;
      let points :=
        match correct_answers with
        | first :: _ =>
            partial_credit (points_awarded first) (Float.fmin match_ratio Float.f1_0)
        | [] => 0
        end in
      let feedback :=
        if Float.fge match_ratio Float.f0_8
        then "Strong response with good coverage of key concepts."
        else if Float.fge match_ratio Float.f0_5
        then "Good response but could include more key concepts."
        else "Response needs more key concepts and details." in
      Ok (true, points, feedback)
    else Ok (true, 0, "Essay response received.").

Fixpoint text_comparison_loop (user_answer_lower : string) (correct_answers : list QuizAnswer)
  : option grade :=
  match correct_answers with
  | [] => None
  | correct_answer :: rest =>
      let correct_text_lower := normalize (answer_text correct_answer) in
      if String.eqb user_answer_lower correct_text_lower
      then Some (true, Int32.val (points_awarded correct_answer), "Correct! Well done.")
      else if contains correct_text_lower user_answer_lower ||
              contains user_answer_lower correct_text_lower
      then Some (true, partial_credit (points_awarded correct_answer) Float.f0_8,
                 "Partially correct.")
      else text_comparison_loop user_answer_lower rest
  end.

Definition _grade_text_comparison (user_answer : string) (correct_answers : list QuizAnswer)
  : res grade :=
  if blank user_answer || match correct_answers with [] => true | _ => false end
  then Ok (false, 0, "No answer provided or no correct answers defined.")
  else
    match text_comparison_loop (normalize user_answer) correct_answers with
    | Some g => Ok g
    | None =>
        match correct_answers with
        | first :: _ => Ok (false, 0, "Incorrect. Expected: " +:+ answer_text first)
        | [] => Raise IndexError
        end
    end.

(** The dispatcher compares [question.question_type.value] with the four
    tags; the last branch is the text comparison. *)
Definition grade_by_tag (tag : string) (user_answer : string)
  (correct_answers : list QuizAnswer) : res grade :=
  if String.eqb tag "mcq" then _grade_mcq user_answer correct_answers
  else if String.eqb tag "tf" then _grade_true_false user_answer correct_answers
  else if String.eqb tag "fill_blank" then _grade_fill_blank user_answer correct_answers
  else if String.eqb tag "essay" then _grade_essay user_answer correct_answers
  else _grade_text_comparison user_answer correct_answers.

Definition _grade_single_answer (question : QuizQuestion) (user_answer : string)
  (correct_answers : list QuizAnswer) : res grade :=
  grade_by_tag (value (question_type question)) user_answer correct_answers.

(** ** Aggregation and feedback *)

(** One dict of [graded_results]. *)
Record QuestionResult := {
  r_question_id : uuid;
  r_question_text : string;
  r_user_answer : string;
  r_is_correct : bool;
  r_points_awarded : Z;
  r_points_possible : Z;
  r_feedback : string;
  r_question_type : string
}.

(** One dict of the breakdown list. *)
Record BreakdownRow := {
  b_question_type : string;
  b_possible_points : Z;
  b_earned_points : Z;
  b_count : Z;
  b_percentage : Q
}.

(** [(earned / possible * 100) if possible > 0 else 0] *)
Definition percentage (earned possible : Z) : Q :=
  if 0 <? possible
  then Float.fmul (Float.int_truediv earned possible) (Float.float_of_int 100)
  else 0%Q.

(** The [breakdown] dict of [_create_score_breakdown], in insertion order:
    [q_type -> (possible_points, earned_points, count)]. *)
Fixpoint breakdown_add (q_type : string) (possible earned : Z)
  (breakdown : list (string * (Z * Z * Z))) : list (string * (Z * Z * Z)) :=
  match breakdown with
  | [] => [(q_type, (0 + possible, 0 + earned, 0 + 1))]
  | (k, (p, e, c)) :: rest =>
      if String.eqb k q_type
      then (k, (p + possible, e + earned, c + 1)) :: rest
      else (k, (p, e, c)) :: breakdown_add q_type possible earned rest
  end.

Definition _create_score_breakdown (graded_results : list QuestionResult)
  : list BreakdownRow :=
  let breakdown :=
    fold_left (fun acc result =>
                 breakdown_add (r_question_type result) (r_points_possible result)
                               (r_points_awarded result) acc)
              graded_results [] in
  map (fun '(q_type, (p, e, c)) =>
         {| b_question_type := q_type;
            b_possible_points := p;
            b_earned_points := e;
            b_count := c;
            b_percentage := Float.round2 (percentage e p) |})
      breakdown.

Definition _generate_overall_feedback (graded_results : list QuestionResult)
  (overall_score : Q) : string :=
  if Float.fge overall_score 90
  then "Excellent work! You demonstrated strong understanding of the material."
  else if Float.fge overall_score 80
  then "Great job! You have a good grasp of the concepts with room for minor improvements."
  else if Float.fge overall_score 70
  then "Good effort! You understand the main concepts but should review some areas."
  else if Float.fge overall_score 60
  then "Fair performance. Focus on reviewing the areas where you had difficulties."
  else "More practice needed. Review the material and try again.".

Definition incorrect (graded_results : list QuestionResult) : list QuestionResult :=
  List.filter (fun r => negb (r_is_correct r)) graded_results.

Definition _generate_suggestions (graded_results : list QuestionResult) : list string :=
  let suggestions :=
    map (fun r => "Review the concept related to: " +:+ take_str 50 (r_question_text r) +:+ "...")
        (incorrect graded_results) in
  let incorrect_count := Z.of_nat (length (incorrect graded_results)) in
  if Float.fgt (inject_Z incorrect_count)
       (Float.fmul (Float.float_of_int (Z.of_nat (length graded_results))) Float.f0_5)
  then (suggestions ++
        ["Consider reviewing the entire section or chapter";
         "Try additional practice questions on these topics";
         "Seek additional resources or examples for better understanding"])%list
  else suggestions.

Definition _identify_misconceptions (graded_results : list QuestionResult) : list string :=
  map (fun r => "Possible misunderstanding of: " +:+ take_str 60 (r_question_text r) +:+ "...")
      (incorrect graded_results).

Definition _generate_recommendations (graded_results : list QuestionResult) : list string :=
  let incorrect_questions := incorrect graded_results in
  let n := Z.of_nat (length incorrect_questions) in
  ((if 0 <? n
    then ["Review the material for incorrectly answered questions";
          "Practice similar questions to reinforce understanding"]
    else []) ++
   (if Float.fgt (inject_Z n)
         (Float.fmul (Float.float_of_int (Z.of_nat (length graded_results))) Float.f0_3)
    then ["Consider revisiting the foundational concepts before proceeding"]
    else []))%list.

Definition _calculate_confidence_level (overall_score : Q) : string :=
  if Float.fge overall_score 90 then "high"
  else if Float.fge overall_score 70 then "medium"
  else "low".

(** ** The grading service *)

(** The dict returned by [grade_quiz_submission]. *)
Record GradingResult := {
  g_quiz_id : uuid;
  g_user_id : uuid;
  overall_score : Q;
  max_score : Z;
  earned_points : Z;
  graded_answers : list QuestionResult;
  breakdown : list BreakdownRow;
  detailed_feedback : string;
  suggested_improvements : list string;
  misconceptions_identified : list string;
  next_learning_recommendations : list string;
  confidence_level : string;
  grading_method : string
}.

(** The order of [order_by(QuizQuestion.question_order)]. *)
Definition by_question_order (a b : QuizQuestion) : Prop :=
  question_order a <= question_order b.

#[global] Instance by_question_order_dec : RelDecision by_question_order.
Proof. intros a b. unfold by_question_order. apply _. Defined.

(** [db.query(QuizQuestion).filter(quiz_id == id).order_by(question_order).all()] *)
Definition questions_of (db : Session) (id : uuid) : list QuizQuestion :=
  merge_sort by_question_order
             (List.filter (fun q => (quiz_id q =? id)%N) (quiz_questions db)).

(** [{q.id: q for q in questions}]: a later row replaces an earlier one. *)
Definition question_map_of (questions : list QuizQuestion) : gmap N QuizQuestion :=
  fold_left (fun m q => <[question_pk q := q]> m) questions ∅.

(** [db.query(QuizAnswer).filter(question_id == id, is_correct == True).all()] *)
Definition correct_answers_of (db : Session) (id : uuid) : list QuizAnswer :=
  List.filter (fun a => (question_id a =? id)%N && is_correct a) (quiz_answers db).

(** The state of the loop over [user_answers]:
    [(graded_results, total_possible_points, earned_points)]. *)
Definition loop_state : Type := list QuestionResult * Z * Z.

(** One iteration of the loop over [user_answers]. *)
Definition grade_answer (db : Session) (question_map : gmap N QuizQuestion)
  (st : loop_state) (answer : UserAnswer) : res loop_state :=
  let '(graded_results, total_possible_points, earned_points) := st in
  let user_answer := default "" (ua_answer_text answer) in
  match ua_question_id answer with
  | None => Ok st
  | Some question_id =>
      match question_map !! question_id with
      | None => Ok st
      | Some question =>
          let total_possible_points := total_possible_points + points question in
          let correct_answers := correct_answers_of db question_id in
          do (is_correct, points_awarded, feedback) <-
               _grade_single_answer question user_answer correct_answers;
          let earned_points :=
            if is_correct then earned_points + points_awarded else earned_points in
          Ok ((graded_results ++
                 [{| r_question_id := question_id;
                     r_question_text := question_text question;
                     r_user_answer := user_answer;
                     r_is_correct := is_correct;
                     r_points_awarded := points_awarded;
                     r_points_possible := points question;
                     r_feedback := feedback;
                     r_question_type := value (question_type question) |}])%list,
              total_possible_points, earned_points)
      end
  end.

Fixpoint grade_answers (db : Session) (question_map : gmap N QuizQuestion)
  (st : loop_state) (user_answers : list UserAnswer) : res loop_state :=
  match user_answers with
  | [] => Ok st
  | answer :: rest =>
      do st' <- grade_answer db question_map st answer;
      grade_answers db question_map st' rest
  end.

Definition grade_quiz_submission (db : Session) (user_id quiz : uuid)
  (user_answers : list UserAnswer) : res GradingResult :=
  match find (fun q => (quiz_pk q =? quiz)%N) (quizzes db) with
  | None => Raise (ValueError "Quiz not found")
  | Some _ =>
      let questions := questions_of db quiz in
      match questions with
      | [] => Raise (ValueError "No questions found for this quiz")
      | _ :: _ =>
          let question_map := question_map_of questions in
          do (graded_results, total_possible_points, earned_points) <-
               grade_answers db question_map ([], 0, 0) user_answers;
          let overall_score := percentage earned_points total_possible_points in
          Ok {| g_quiz_id := quiz;
                g_user_id := user_id;
                overall_score := Float.round2 overall_score;
                max_score := total_possible_points;
                earned_points := earned_points;
                graded_answers := graded_results;
                breakdown := _create_score_breakdown graded_results;
                detailed_feedback := _generate_overall_feedback graded_results overall_score;
                suggested_improvements := _generate_suggestions graded_results;
                misconceptions_identified := _identify_misconceptions graded_results;
                next_learning_recommendations := _generate_recommendations graded_results;
                confidence_level := _calculate_confidence_level overall_score;
                grading_method := "rule_based" |}
      end
  end.

(** ** Sample data *)

(** An entry of the answer key of question [qid], flagged correct. *)
Definition key_entry (qid : uuid) (text : string) (pts : Z) : QuizAnswer :=
  {| question_id := qid; answer_text := text; is_correct := true;
     points_awarded := Int32.of_Z pts |}.

(** A submitted answer [{"question_id": qid, "answer_text": text}]. *)
Definition answer_to (qid : uuid) (text : string) : UserAnswer :=
  {| ua_question_id := Some qid; ua_answer_text := Some text |}.

(** Quiz 1 with the single question 10 of type [t], worth [pts] points,
    and the correct entries [key]. *)
Definition one_question_db (t : QuestionType) (pts : Z) (key : list (string * Z)) : Session :=
  {| quizzes := [ {| quiz_pk := 1%N; title := "Sample quiz" |} ];
     quiz_questions :=
       [ {| question_pk := 10%N; quiz_id := 1%N; question_text := "Sample question";
            question_type := t; question_order := 0; points := Int32.of_Z pts |} ];
     quiz_answers := map (fun '(text, p) => key_entry 10%N text p) key |}.

(** The 10-point multiple-choice question whose correct entry is "Paris". *)
Definition paris_db : Session := one_question_db MCQ 10 [("Paris", 10)].

(** Quiz 1 with the essay question 10, worth 0 points, and the
    multiple-choice question 11, worth 1 point. *)
Definition zero_point_db : Session :=
  {| quizzes := [ {| quiz_pk := 1%N; title := "Sample quiz" |} ];
     quiz_questions :=
       [ {| question_pk := 10%N; quiz_id := 1%N; question_text := "Describe";
            question_type := ESSAY; question_order := 0; points := Int32.of_Z 0 |};
         {| question_pk := 11%N; quiz_id := 1%N; question_text := "Choose";
            question_type := MCQ; question_order := 1; points := Int32.of_Z 1 |} ];
     quiz_answers := [ key_entry 10%N "photosynthesis" 0; key_entry 11%N "a" 1 ] |}.

(** A 71-character answer that shares no word with any key. *)
Definition long_answer : string :=
  "xxxxxxxxxx xxxxxxxxx xxxxxxxxx xxxxxxxxx xxxxxxxxx xxxxxxxxx xxxxxxxxxx".

(** ** Vocabulary of the properties *)

(** Every character of [s] is whitespace ([s] may be empty). *)
Fixpoint all_space (s : string) : bool :=
  match s with
  | EmptyString => true
  | String c s' => isspace c && all_space s'
  end.

(** All entries of an answer key award between [0] and [hi] points. *)
Definition key_within (hi : Z) (correct_answers : list QuizAnswer) : Prop :=
  forall a, In a correct_answers -> 0 <= Int32.val (points_awarded a) <= hi.

(** [sum(l)] *)
Definition sum_Z (l : list Z) : Z := fold_right Z.add 0 l.

(** Sum of [points_possible] over results. *)
Definition possible_of (results : list QuestionResult) : Z :=
  sum_Z (map r_points_possible results).

(** Sum of [points_awarded] over results. *)
Definition earned_of (results : list QuestionResult) : Z :=
  sum_Z (map r_points_awarded results).

(** The submitted answer names a question held by [question_map]. *)
Definition known (question_map : gmap N QuizQuestion) (answer : UserAnswer) : bool :=
  match ua_question_id answer with
  | Some id => match question_map !! id with Some _ => true | None => false end
  | None => false
  end.

(** The result that one graded answer appends: it is for the question
    [q] found under the submitted [id], read from answer [a]. *)
Definition result_of (db : Session) (id : uuid) (q : QuizQuestion) (a : UserAnswer)
  (r : QuestionResult) : Prop :=
  exists c p fb,
    _grade_single_answer q (default "" (ua_answer_text a))
      (correct_answers_of db id) = Ok (c, p, fb) /\
    r = {| r_question_id := id;
           r_question_text := question_text q;
           r_user_answer := default "" (ua_answer_text a);
           r_is_correct := c;
           r_points_awarded := p;
           r_points_possible := points q;
           r_feedback := fb;
           r_question_type := value (question_type q) |}.

(** The answer key of a quiz awards, for every correct entry, between 0
    points and the points of its question. *)
Definition key_in_range (db : Session) (quiz : uuid) : Prop :=
  forall q a,
    In q (quiz_questions db) -> quiz_id q = quiz ->
    In a (quiz_answers db) -> is_correct a = true -> question_id a = question_pk q ->
    0 <= Int32.val (points_awarded a) <= Int32.val (points q).

(** Every question of the quiz is worth at least one point. *)
Definition questions_positive (db : Session) (quiz : uuid) : Prop :=
  forall q, In q (quiz_questions db) -> quiz_id q = quiz -> 1 <= Int32.val (points q).

(** The submitted answer names a question of the quiz. *)
Definition is_known (db : Session) (quiz : uuid) (answer : UserAnswer) : bool :=
  match ua_question_id answer with
  | Some id =>
      existsb (fun q => (quiz_id q =? quiz)%N && (question_pk q =? id)%N) (quiz_questions db)
  | None => false
  end.

(** The truth value a submitted answer stands for in the code:
    [{true, yes, correct, t, y}] and [{false, no, incorrect, f, n}]. *)
Definition answer_truth (s : string) : option bool :=
  if mem s ["true"; "yes"; "correct"; "t"; "y"] then Some true
  else if mem s ["false"; "no"; "incorrect"; "f"; "n"] then Some false
  else None.

(** The truth value a key text stands for in the code: the long forms
    [{true, yes, correct}] and [{false, no, incorrect}] only. *)
Definition key_truth (s : string) : option bool :=
  if mem s ["true"; "yes"; "correct"] then Some true
  else if mem s ["false"; "no"; "incorrect"] then Some false
  else None.

(** The answer and the key entry stand for the same truth value. *)
Definition same_truth (user_answer_lower correct_text_lower : string) : Prop :=
  exists b, answer_truth user_answer_lower = Some b /\ key_truth correct_text_lower = Some b.

(** The normalization as the specification words it: the same two sets,
    [{true, yes, correct, t, y}] and [{false, no, incorrect, f, n}], for
    the answer and for the key. *)
Definition spec_truth (s : string) : option bool :=
  if mem s ["true"; "yes"; "correct"; "t"; "y"] then Some true
  else if mem s ["false"; "no"; "incorrect"; "f"; "n"] then Some false
  else None.

(** The match as the specification words it. *)
Definition spec_same_truth (user_answer_lower correct_text_lower : string) : Prop :=
  exists b, spec_truth user_answer_lower = Some b /\ spec_truth correct_text_lower = Some b.

(** ** Vocabulary of the further properties *)

(** The results for questions of type [t]. *)
Definition of_type (t : string) (results : list QuestionResult) : list QuestionResult :=
  List.filter (fun r => String.eqb (r_question_type r) t) results.

(** The distinct elements of a list, in the order in which they first
    occur. *)
Definition first_seen (l : list string) : list string :=
  fold_left (fun acc t => if mem t acc then acc else (acc ++ [t])%list) l [].

(** The [breakdown] dict of [_create_score_breakdown] after the loop. *)
Definition breakdown_of (results : list QuestionResult) : list (string * (Z * Z * Z)) :=
  fold_left (fun acc result =>
               breakdown_add (r_question_type result) (r_points_possible result)
                             (r_points_awarded result) acc)
            results [].

(** The row that [_create_score_breakdown] makes of one entry of the dict. *)
Definition row_of (entry : string * (Z * Z * Z)) : BreakdownRow :=
  let '(q_type, (p, e, c)) := entry in
  {| b_question_type := q_type;
     b_possible_points := p;
     b_earned_points := e;
     b_count := c;
     b_percentage := Float.round2 (percentage e p) |}.

(** The row of the breakdown for the question type [t]: the sums and the
    count over the results of that type, and their percentage. *)
Definition row_for (results : list QuestionResult) (t : string) : BreakdownRow :=
  let rs := of_type t results in
  {| b_question_type := t;
     b_possible_points := possible_of rs;
     b_earned_points := earned_of rs;
     b_count := Z.of_nat (length rs);
     b_percentage := Float.round2 (percentage (earned_of rs) (possible_of rs)) |}.

(** The result, if any, that the loop of [grade_quiz_submission] appends
    for one submitted answer. *)
Definition result_for (db : Session) (question_map : gmap N QuizQuestion)
  (answer : UserAnswer) : option QuestionResult :=
  match grade_answer db question_map ([], 0, 0) answer with
  | Ok ([r], _, _) => Some r
  | _ => None
  end.

(** The dict returned when no submitted answer is graded. *)
Definition nothing_graded (user_id quiz : uuid) : GradingResult :=
  {| g_quiz_id := quiz;
     g_user_id := user_id;
     overall_score := 0%Q;
     max_score := 0;
     earned_points := 0;
     graded_answers := [];
     breakdown := [];
     detailed_feedback := "More practice needed. Review the material and try again.";
     suggested_improvements := [];
     misconceptions_identified := [];
     next_learning_recommendations := [];
     confidence_level := "low";
     grading_method := "rule_based" |}.

(** The text is empty or starts with a character that is not whitespace. *)
Definition starts_clean (s : string) : bool :=
  match s with
  | EmptyString => true
  | String c _ => negb (isspace c)
  end.

(** Every one of the [terms] that occurs in [u], case ignored, occurs in
    [u'] ([term.lower() in user_answer.lower()], as [_grade_essay] tests
    it). *)
Definition covers (terms : list string) (u u' : string) : Prop :=
  forall term, In term terms ->
               contains (lower term) (lower u) = true ->
               contains (lower term) (lower u') = true.

(** A result with the given flag, points and question type, for the
    examples. *)
Definition sample_result (correct : bool) (awarded possible : Z) (q_type : string)
  : QuestionResult :=
  {| r_question_id := 10%N;
     r_question_text := "Sample question";
     r_user_answer := "answer";
     r_is_correct := correct;
     r_points_awarded := awarded;
     r_points_possible := possible;
     r_feedback := "";
     r_question_type := q_type |}.

(** The 25000-point multiple-choice question whose correct entry "a"
    awards 22499 points. *)
Definition near_ninety_db : Session := one_question_db MCQ 25000 [("a", 22499)].

(** A 90-character answer to the key of ten terms below, eight of which
    occur in it, and the same answer cut after "sunlight". *)
Definition leaf_key : string :=
  "chlorophyll sunlight water carbon dioxide glucose oxygen stomata leaves roots".

Definition leaf_answer : string :=
  "In leaves, chlorophyll uses sunlight, water and carbon dioxide to make glucose and oxygen.".

Definition leaf_answer_start : string :=
  "In leaves, chlorophyll uses sunlight, with some help".

(** A 102-character answer in which seven of the ten terms of [leaf_key]
    occur. *)
Definition seven_terms_answer : string :=
  "In leaves, chlorophyll uses sunlight, water and carbon dioxide to make glucose for the plant and more.".

(** * Properties *)

(** ** Rounding to nearest double: order and exactness *)

Module FloatFacts.
Import Float.
Local Open Scope Q_scope.

Lemma model_agrees_with_SpecFloat : agrees_with_SpecFloat 400 48 = true.
Proof. vm_compute. reflexivity. Qed.

Lemma pow2_pos e : 0 < pow2 e.
Proof. apply Qpower_0_lt. reflexivity. Qed.

Lemma pow2_add a b : pow2 (a + b) == pow2 a * pow2 b.
Proof. apply Qpower_plus. discriminate. Qed.

Lemma pow2_sub a b : pow2 (a - b) == pow2 a / pow2 b.
Proof.
  unfold Z.sub. rewrite pow2_add. unfold pow2 at 2. rewrite Qpower_opp. reflexivity.
Qed.

Lemma pow2_le a b : (a <= b)%Z -> pow2 a <= pow2 b.
Proof. intros H. apply Qpower_le_compat_l; [exact H | discriminate]. Qed.

Lemma pow2_lt a b : (a < b)%Z -> pow2 a < pow2 b.
Proof. intros H. apply Qpower_lt_compat_l; [exact H | reflexivity]. Qed.

Lemma pow2_Z n : (0 <= n)%Z -> pow2 n == inject_Z (2 ^ n).
Proof. intros H. unfold pow2. rewrite Zpower_Qpower by exact H. reflexivity. Qed.

Lemma ilog2_spec x : 0 < x -> pow2 (ilog2 x) <= x /\ x < pow2 (ilog2 x + 1).
Proof.
  intros Hx. destruct x as [n d]. unfold ilog2. cbn [Qnum Qden].
  assert (Hn : (0 < n)%Z) by (unfold Qlt in Hx; cbn in Hx; lia).
  set (a := Z.log2 n). set (b := Z.log2 (Zpos d)).
  destruct (Z.log2_spec n Hn) as [Ha1 Ha2]. fold a in Ha1, Ha2.
  destruct (Z.log2_spec (Zpos d) eq_refl) as [Hb1 Hb2]. fold b in Hb1, Hb2.
  assert (Ha0 : (0 <= a)%Z) by apply Z.log2_nonneg.
  assert (Hb0 : (0 <= b)%Z) by apply Z.log2_nonneg.
  assert (Hd : 0 < inject_Z (Zpos d)) by reflexivity.
  assert (Hx' : n # d == inject_Z n / inject_Z (Zpos d)) by apply Qmake_Qdiv.
  assert (Ea : pow2 a <= inject_Z n) by (rewrite pow2_Z by lia; rewrite <- Zle_Qle; lia).
  assert (Ea' : inject_Z n < pow2 (a + 1)) by (rewrite pow2_Z by lia; rewrite <- Zlt_Qlt; lia).
  assert (Eb : pow2 b <= inject_Z (Zpos d)) by (rewrite pow2_Z by lia; rewrite <- Zle_Qle; lia).
  assert (Eb' : inject_Z (Zpos d) < pow2 (b + 1)) by (rewrite pow2_Z by lia; rewrite <- Zlt_Qlt; lia).
  pose proof (pow2_pos b) as Pb. pose proof (pow2_pos (b + 1)) as Pb1.
  assert (Hmul : (n # d) * inject_Z (Zpos d) == inject_Z n).
  { rewrite Hx'. field. intro Hc. rewrite Hc in Hd. discriminate. }
  destruct (Qle_bool (pow2 (a - b)) (n # d)) eqn:Hc.
  - apply Qle_bool_iff in Hc. split; [exact Hc|].
    replace (a - b + 1)%Z with ((a + 1) - b)%Z by ring. rewrite pow2_sub.
    apply Qlt_shift_div_l; [exact Pb|].
    apply Qle_lt_trans with (inject_Z n); [|exact Ea'].
    rewrite <- Hmul. apply Qmult_le_l; [exact Hx| exact Eb].
  - assert (Hlt : n # d < pow2 (a - b)).
    { apply Qnot_le_lt. intro Hle. apply Qle_bool_iff in Hle. congruence. }
    split.
    + replace (a - b - 1)%Z with (a - (b + 1))%Z by ring. rewrite pow2_sub.
      apply Qle_shift_div_r; [exact Pb1|].
      apply Qle_trans with (inject_Z n); [exact Ea|].
      rewrite <- Hmul. apply Qlt_le_weak. apply Qmult_lt_l; [exact Hx| exact Eb'].
    + replace (a - b - 1 + 1)%Z with (a - b)%Z by ring. exact Hlt.
Qed.

Lemma ilog2_unique x L : pow2 L <= x -> x < pow2 (L + 1) -> ilog2 x = L.
Proof.
  intros H1 H2.
  assert (Hx : 0 < x) by (eapply Qlt_le_trans; [apply pow2_pos | exact H1]).
  destruct (ilog2_spec x Hx) as [S1 S2].
  destruct (Z.lt_trichotomy (ilog2 x) L) as [Hlt | [Heq | Hgt]].
  - exfalso. assert (pow2 (ilog2 x + 1) <= pow2 L) by (apply pow2_le; lia).
    apply (Qlt_irrefl x). eapply Qlt_le_trans; [exact S2|]. eapply Qle_trans; eassumption.
  - exact Heq.
  - exfalso. assert (pow2 (L + 1) <= pow2 (ilog2 x)) by (apply pow2_le; lia).
    apply (Qlt_irrefl x). eapply Qlt_le_trans; [exact H2|]. eapply Qle_trans; eassumption.
Qed.

Lemma ilog2_le x y : 0 < x -> x <= y -> (ilog2 x <= ilog2 y)%Z.
Proof.
  intros Hx Hxy.
  assert (Hy : 0 < y) by (eapply Qlt_le_trans; eassumption).
  destruct (ilog2_spec x Hx) as [X1 X2]. destruct (ilog2_spec y Hy) as [Y1 Y2].
  destruct (Z_le_gt_dec (ilog2 x) (ilog2 y)) as [H | H]; [exact H | exfalso].
  assert (pow2 (ilog2 y + 1) <= pow2 (ilog2 x)) by (apply pow2_le; lia).
  apply (Qlt_irrefl y). eapply Qlt_le_trans; [exact Y2|].
  eapply Qle_trans; [eassumption|]. eapply Qle_trans; eassumption.
Qed.

Lemma ilog2_proper x y : 0 < x -> x == y -> ilog2 x = ilog2 y.
Proof.
  intros Hx Hxy. symmetry. destruct (ilog2_spec x Hx) as [X1 X2].
  apply ilog2_unique; rewrite <- Hxy; assumption.
Qed.

Lemma rhe_cases q :
  let f := Qfloor q in
  (q - inject_Z f < 1 # 2 /\ round_half_even q = f) \/
  (q - inject_Z f == 1 # 2 /\ round_half_even q = if Z.even f then f else (f + 1)%Z) \/
  (1 # 2 < q - inject_Z f /\ round_half_even q = (f + 1)%Z).
Proof.
  intros f. unfold round_half_even. fold f.
  destruct (Qcompare_spec (q - inject_Z f) (1 # 2)) as [H | H | H]; auto.
Qed.

Lemma rhe_bounds q : (Qfloor q <= round_half_even q <= Qfloor q + 1)%Z.
Proof.
  destruct (rhe_cases q) as [[_ E] | [[_ E] | [_ E]]]; rewrite E; try lia.
  destruct (Z.even (Qfloor q)); lia.
Qed.

Lemma rhe_Z z : round_half_even (inject_Z z) = z.
Proof.
  destruct (rhe_cases (inject_Z z)) as [[_ E] | [[H _] | [H _]]]; rewrite Qfloor_Z in *.
  - exact E.
  - exfalso. assert (inject_Z z - inject_Z z == 0) by ring. rewrite H0 in H. discriminate.
  - exfalso. assert (inject_Z z - inject_Z z == 0) by ring. rewrite H0 in H. discriminate.
Qed.

Lemma rhe_proper q1 q2 : q1 == q2 -> round_half_even q1 = round_half_even q2.
Proof.
  intros H. unfold round_half_even. rewrite (Qfloor_comp _ _ H).
  assert (E : Qcompare (q1 - inject_Z (Qfloor q2)) (1 # 2) = Qcompare (q2 - inject_Z (Qfloor q2)) (1 # 2))
    by (rewrite H; reflexivity).
  rewrite E. reflexivity.
Qed.

Lemma rhe_le q1 q2 : q1 <= q2 -> (round_half_even q1 <= round_half_even q2)%Z.
Proof.
  intros H. pose proof (Qfloor_resp_le _ _ H) as Hf.
  destruct (Z.eq_dec (Qfloor q1) (Qfloor q2)) as [E | NE].
  - destruct (rhe_cases q1) as [[A1 E1] | [[A1 E1] | [A1 E1]]];
    destruct (rhe_cases q2) as [[A2 E2] | [[A2 E2] | [A2 E2]]];
    rewrite E1, E2; rewrite E in *; try (destruct (Z.even (Qfloor q2)); lia); try lia;
    exfalso; lra.
  - pose proof (rhe_bounds q1). pose proof (rhe_bounds q2). lia.
Qed.

Lemma rhe_nonneg q : 0 <= q -> (0 <= round_half_even q)%Z.
Proof. intros H. rewrite <- (rhe_Z 0). apply rhe_le. exact H. Qed.

Lemma fexp_le x y : 0 < x -> x <= y -> (fexp x <= fexp y)%Z.
Proof. intros Hx Hxy. unfold fexp. pose proof (ilog2_le x y Hx Hxy). lia. Qed.

Lemma scaled_lt_pow2_prec x : 0 < x -> x / pow2 (fexp x) < pow2 prec.
Proof.
  intros Hx. destruct (ilog2_spec x Hx) as [_ H2].
  apply Qlt_shift_div_r; [apply pow2_pos|]. rewrite <- pow2_add.
  eapply Qlt_le_trans; [exact H2|]. apply pow2_le. unfold fexp, prec. lia.
Qed.

Lemma RNpos_nonneg x : 0 < x -> 0 <= RNpos x.
Proof.
  intros Hx. unfold RNpos. apply Qmult_le_0_compat; [|apply Qlt_le_weak, pow2_pos].
  change 0 with (inject_Z 0). rewrite <- Zle_Qle. apply rhe_nonneg.
  apply Qle_shift_div_l; [apply pow2_pos|]. rewrite Qmult_0_l. apply Qlt_le_weak, Hx.
Qed.

Lemma RNpos_le x y : 0 < x -> x <= y -> RNpos x <= RNpos y.
Proof.
  intros Hx Hxy.
  assert (Hy : 0 < y) by (eapply Qlt_le_trans; eassumption).
  pose proof (fexp_le x y Hx Hxy) as He. unfold RNpos.
  destruct (Z.eq_dec (fexp x) (fexp y)) as [E | NE].
  - rewrite E. apply Qmult_le_compat_r; [|apply Qlt_le_weak, pow2_pos].
    rewrite <- Zle_Qle. apply rhe_le.
    apply Qmult_le_compat_r; [exact Hxy|]. apply Qlt_le_weak, Qinv_lt_0_compat, pow2_pos.
  - apply Qle_trans with (pow2 (prec - 1 + fexp y)).
    + apply Qle_trans with (pow2 (prec + fexp x)); [|apply pow2_le; lia].
      rewrite pow2_add. apply Qmult_le_compat_r; [|apply Qlt_le_weak, pow2_pos].
      rewrite (pow2_Z prec) by (unfold prec; lia). rewrite <- Zle_Qle.
      rewrite <- (rhe_Z (2 ^ prec)). apply rhe_le.
      rewrite <- (pow2_Z prec) by (unfold prec; lia). apply Qlt_le_weak, scaled_lt_pow2_prec, Hx.
    + rewrite pow2_add. apply Qmult_le_compat_r; [|apply Qlt_le_weak, pow2_pos].
      rewrite (pow2_Z (prec - 1)) by (unfold prec; lia). rewrite <- Zle_Qle.
      rewrite <- (rhe_Z (2 ^ (prec - 1))). apply rhe_le.
      rewrite <- (pow2_Z (prec - 1)) by (unfold prec; lia).
      apply Qle_shift_div_l; [apply pow2_pos|]. rewrite <- pow2_add.
      destruct (ilog2_spec y Hy) as [Y1 _]. eapply Qle_trans; [|exact Y1].
      apply pow2_le. assert (emin <= fexp x)%Z by (unfold fexp; lia).
      unfold fexp in *. lia.
Qed.

Lemma RNpos_proper x y : 0 < x -> x == y -> RNpos x == RNpos y.
Proof.
  intros Hx Hxy. unfold RNpos, fexp. rewrite (ilog2_proper x y Hx Hxy).
  set (e := Z.max _ _). rewrite (rhe_proper (x / pow2 e) (y / pow2 e)); [reflexivity|].
  rewrite Hxy. reflexivity.
Qed.

Lemma RNpos_exact x m e :
  (0 < m < 2 ^ prec)%Z -> (emin <= e)%Z -> x == inject_Z m * pow2 e -> RNpos x == x.
Proof.
  intros Hm He Hx.
  assert (Hm0 : 0 < inject_Z m) by (change 0 with (inject_Z 0); rewrite <- Zlt_Qlt; lia).
  assert (Hxpos : 0 < x).
  { rewrite Hx. apply Qmult_lt_0_compat; [exact Hm0 | apply pow2_pos]. }
  assert (Hlog : (ilog2 x < prec + e)%Z).
  { destruct (ilog2_spec x Hxpos) as [L1 _].
    destruct (Z_lt_ge_dec (ilog2 x) (prec + e)) as [H | H]; [exact H | exfalso].
    assert (pow2 (prec + e) <= pow2 (ilog2 x)) by (apply pow2_le; lia).
    apply (Qlt_irrefl x). rewrite Hx at 1.
    eapply Qlt_le_trans; [|eapply Qle_trans; [exact H0 | exact L1]].
    rewrite pow2_add. apply Qmult_lt_compat_r; [apply pow2_pos|].
    rewrite (pow2_Z prec) by (unfold prec; lia). rewrite <- Zlt_Qlt. lia. }
  assert (Hfe : (fexp x <= e)%Z) by (unfold fexp, prec in *; lia).
  unfold RNpos. set (fe := fexp x) in *.
  assert (Hs : x / pow2 fe == inject_Z (m * 2 ^ (e - fe))).
  { rewrite inject_Z_mult, <- pow2_Z by lia. rewrite pow2_sub, Hx. field.
    intro Hc. pose proof (pow2_pos fe) as P. rewrite Hc in P. discriminate. }
  rewrite (rhe_proper _ _ Hs), rhe_Z.
  rewrite inject_Z_mult, <- pow2_Z by lia. rewrite pow2_sub, Hx. field.
  intro Hc. pose proof (pow2_pos fe) as P. rewrite Hc in P. discriminate.
Qed.

Lemma RN_pos x : 0 < x -> RN x == RNpos x.
Proof.
  intros Hx. unfold RN. destruct (Qcompare_spec x 0) as [H | H | H].
  - rewrite H in Hx. discriminate.
  - exfalso. lra.
  - apply Qred_correct.
Qed.

Lemma RN_neg x : x < 0 -> RN x == - RNpos (- x).
Proof.
  intros Hx. unfold RN. destruct (Qcompare_spec x 0) as [H | H | H].
  - rewrite H in Hx. discriminate.
  - apply Qred_correct.
  - exfalso. lra.
Qed.

Lemma RN_zero x : x == 0 -> RN x = 0.
Proof.
  intros Hx. unfold RN. destruct (Qcompare_spec x 0) as [H | H | H]; [reflexivity | |];
    exfalso; lra.
Qed.

Lemma RN_proper x y : x == y -> RN x = RN y.
Proof.
  intros Hxy. unfold RN. rewrite <- Hxy.
  destruct (Qcompare_spec x 0) as [H | H | H]; [reflexivity | |]; apply Qred_complete.
  - apply Qopp_comp. apply RNpos_proper; lra.
  - apply RNpos_proper; [lra | exact Hxy].
Qed.

Lemma RN_nonneg x : 0 <= x -> 0 <= RN x.
Proof.
  intros Hx. destruct (Qle_lt_or_eq _ _ Hx) as [H | H].
  - rewrite (RN_pos x H). apply RNpos_nonneg, H.
  - rewrite (RN_zero x) by (symmetry; exact H). apply Qle_refl.
Qed.

Lemma RN_nonpos x : x <= 0 -> RN x <= 0.
Proof.
  intros Hx. destruct (Qle_lt_or_eq _ _ Hx) as [H | H].
  - rewrite (RN_neg x H). assert (0 <= RNpos (- x)) by (apply RNpos_nonneg; lra). lra.
  - rewrite (RN_zero x H). apply Qle_refl.
Qed.

Lemma RN_le x y : x <= y -> RN x <= RN y.
Proof.
  intros Hxy. destruct (Qlt_le_dec 0 x) as [Hx | Hx].
  - rewrite (RN_pos x Hx), (RN_pos y) by lra. apply RNpos_le; assumption.
  - destruct (Qlt_le_dec y 0) as [Hy | Hy].
    + rewrite (RN_neg x), (RN_neg y) by lra.
      assert (RNpos (- y) <= RNpos (- x)) by (apply RNpos_le; lra). lra.
    + pose proof (RN_nonpos x Hx). pose proof (RN_nonneg y Hy). lra.
Qed.

Lemma RN_exact x m e :
  (Z.abs m < 2 ^ prec)%Z -> (emin <= e)%Z -> x == inject_Z m * pow2 e -> RN x == x.
Proof.
  intros Hm He Hx. pose proof (pow2_pos e) as P.
  destruct (Z.lt_trichotomy m 0) as [Hn | [Hz | Hp]].
  - assert (x < 0).
    { rewrite Hx. assert (inject_Z m < 0) by (change 0 with (inject_Z 0); rewrite <- Zlt_Qlt; lia).
      setoid_replace 0 with (0 * pow2 e) using relation Qeq by ring. apply Qmult_lt_compat_r; assumption. }
    rewrite (RN_neg x H). rewrite (RNpos_exact (- x) (- m) e); [ring | lia | exact He |].
    rewrite Hx, inject_Z_opp. ring.
  - subst m. rewrite (RN_zero x); [|rewrite Hx; ring]. rewrite Hx. ring.
  - assert (0 < x).
    { rewrite Hx. apply Qmult_lt_0_compat; [|exact P].
      change 0 with (inject_Z 0); rewrite <- Zlt_Qlt; lia. }
    rewrite (RN_pos x H). apply (RNpos_exact x m e); [lia | exact He | exact Hx].
Qed.

Lemma RN_exact_Z z : (Z.abs z < 2 ^ prec)%Z -> RN (inject_Z z) == inject_Z z.
Proof.
  intros Hz. apply (RN_exact _ z 0); [exact Hz | unfold emin; lia |].
  unfold pow2. simpl. ring.
Qed.

Lemma int_of_float_nonneg x : 0 <= x -> int_of_float x = Qfloor x.
Proof.
  intros Hx. destruct x as [n d]. unfold int_of_float, Qfloor. cbn [Qnum Qden].
  apply Z.quot_div_nonneg; [|reflexivity]. unfold Qle in Hx. cbn in Hx. lia.
Qed.

Lemma Qfloor_unique x k : inject_Z k <= x -> x < inject_Z (k + 1) -> Qfloor x = k.
Proof.
  intros H1 H2. pose proof (Qfloor_le x) as F1. pose proof (Qlt_floor x) as F2.
  assert (A : inject_Z k < inject_Z (Qfloor x + 1)) by (eapply Qle_lt_trans; eassumption).
  assert (B : inject_Z (Qfloor x) < inject_Z (k + 1)) by (eapply Qle_lt_trans; eassumption).
  rewrite <- Zlt_Qlt in A, B. lia.
Qed.

Lemma int_of_float_range x lo hi :
  (0 <= lo)%Z -> inject_Z lo <= x -> x <= inject_Z hi -> (lo <= int_of_float x <= hi)%Z.
Proof.
  intros Hlo H1 H2.
  assert (Hx : 0 <= x).
  { apply Qle_trans with (inject_Z lo); [|exact H1]. change 0 with (inject_Z 0).
    rewrite <- Zle_Qle. exact Hlo. }
  rewrite (int_of_float_nonneg x Hx). split.
  - rewrite <- (Qfloor_Z lo). apply Qfloor_resp_le, H1.
  - rewrite <- (Qfloor_Z hi). apply Qfloor_resp_le, H2.
Qed.

Lemma float_of_int_exact z : (Z.abs z < 2 ^ 53)%Z -> float_of_int z == inject_Z z.
Proof. intros H. apply RN_exact_Z. exact H. Qed.

Lemma fmul_int_le p c :
  (0 <= p < 2 ^ 53)%Z -> 0 <= c -> c <= 1 ->
  (0 <= int_of_float (fmul (float_of_int p) c) <= p)%Z.
Proof.
  intros Hp Hc0 Hc1. pose proof (float_of_int_exact p ltac:(lia)) as E.
  assert (P0 : 0 <= inject_Z p) by (change 0 with (inject_Z 0); rewrite <- Zle_Qle; lia).
  unfold fmul. rewrite (RN_proper _ (inject_Z p * c)) by (rewrite E; reflexivity).
  apply int_of_float_range; [lia | |].
  - apply RN_nonneg. apply Qmult_le_0_compat; assumption.
  - apply Qle_trans with (float_of_int p); [|rewrite E; apply Qle_refl].
    apply RN_le. setoid_replace (inject_Z p) with (inject_Z p * 1) using relation Qeq at 2 by ring.
    apply Qmult_le_compat_nonneg; split; try assumption; apply Qle_refl.
Qed.

Lemma inject_Z_nonneg z : (0 <= z)%Z -> 0 <= inject_Z z.
Proof. intros H. change 0 with (inject_Z 0). rewrite <- Zle_Qle. exact H. Qed.

Lemma fmul_0_8_floor p :
  (0 <= p < 2 ^ 31)%Z -> int_of_float (fmul (float_of_int p) f0_8) = (4 * p / 5)%Z.
Proof.
  intros Hp. pose proof (float_of_int_exact p ltac:(lia)) as E.
  unfold fmul. rewrite (RN_proper _ (inject_Z p * f0_8)) by (rewrite E; reflexivity).
  set (k := (4 * p / 5)%Z).
  assert (Hk : (5 * k <= 4 * p < 5 * k + 5)%Z).
  { unfold k. pose proof (Z.mul_div_le (4 * p) 5 eq_refl).
    pose proof (Z.mul_succ_div_gt (4 * p) 5 eq_refl). lia. }
  assert (Hk0 : (0 <= k)%Z) by (unfold k; apply Z.div_pos; lia).
  assert (V : f0_8 = 3602879701896397 # 4503599627370496) by (vm_compute; reflexivity).
  assert (Q1 : 5 * inject_Z k <= 4 * inject_Z p).
  { change 5 with (inject_Z 5). change 4 with (inject_Z 4).
    rewrite <- !inject_Z_mult, <- Zle_Qle. lia. }
  assert (Q2 : 4 * inject_Z p <= 5 * inject_Z k + 4).
  { change 5 with (inject_Z 5). change 4 with (inject_Z 4).
    rewrite <- !inject_Z_mult, <- inject_Z_plus, <- Zle_Qle. lia. }
  assert (Q3 : 0 <= inject_Z p) by (apply inject_Z_nonneg; lia).
  assert (Q4 : inject_Z p <= 2147483648).
  { change 2147483648 with (inject_Z 2147483648). rewrite <- Zle_Qle. lia. }
  assert (L : inject_Z k <= RN (inject_Z p * f0_8)).
  { rewrite <- (RN_exact_Z k) by (unfold prec; lia). apply RN_le. rewrite V. lra. }
  assert (U : RN (inject_Z p * f0_8) <= inject_Z k + (15 # 16)).
  { rewrite <- (RN_exact (inject_Z k + (15 # 16)) (16 * k + 15) (-4)).
    - apply RN_le. rewrite V. lra.
    - unfold prec. lia.
    - unfold emin. lia.
    - rewrite inject_Z_plus, inject_Z_mult. unfold pow2. simpl. field. }
  rewrite int_of_float_nonneg by (eapply Qle_trans; [apply inject_Z_nonneg, Hk0 | exact L]).
  apply Qfloor_unique; [exact L|]. rewrite inject_Z_plus. 
  eapply Qle_lt_trans; [exact U|]. change (inject_Z 1) with 1. lra.
Qed.

Lemma fmul_0_7_near_floor p :
  (0 <= p < 2 ^ 31)%Z ->
  (7 * p / 10 - 1 <= int_of_float (fmul (float_of_int p) f0_7) <= 7 * p / 10)%Z.
Proof.
  intros Hp. pose proof (float_of_int_exact p ltac:(lia)) as E.
  unfold fmul. rewrite (RN_proper _ (inject_Z p * f0_7)) by (rewrite E; reflexivity).
  set (k := (7 * p / 10)%Z).
  assert (Hk : (10 * k <= 7 * p < 10 * k + 10)%Z).
  { unfold k. pose proof (Z.mul_div_le (7 * p) 10 eq_refl).
    pose proof (Z.mul_succ_div_gt (7 * p) 10 eq_refl). lia. }
  assert (Hk0 : (0 <= k)%Z) by (unfold k; apply Z.div_pos; lia).
  assert (V : f0_7 = 3152519739159347 # 4503599627370496) by (vm_compute; reflexivity).
  assert (Q1 : 10 * inject_Z k <= 7 * inject_Z p).
  { change 10 with (inject_Z 10). change 7 with (inject_Z 7).
    rewrite <- !inject_Z_mult, <- Zle_Qle. lia. }
  assert (Q2 : 7 * inject_Z p <= 10 * inject_Z k + 9).
  { change 10 with (inject_Z 10). change 7 with (inject_Z 7). change 9 with (inject_Z 9).
    rewrite <- !inject_Z_mult, <- inject_Z_plus, <- Zle_Qle. lia. }
  assert (Q3 : 0 <= inject_Z p) by (apply inject_Z_nonneg; lia).
  assert (Q4 : inject_Z p <= 2147483648).
  { change 2147483648 with (inject_Z 2147483648). rewrite <- Zle_Qle. lia. }
  assert (N : 0 <= RN (inject_Z p * f0_7)) by (apply RN_nonneg; rewrite V; lra).
  assert (U : RN (inject_Z p * f0_7) <= inject_Z k + (15 # 16)).
  { rewrite <- (RN_exact (inject_Z k + (15 # 16)) (16 * k + 15) (-4)).
    - apply RN_le. rewrite V. lra.
    - unfold prec. lia.
    - unfold emin. lia.
    - rewrite inject_Z_plus, inject_Z_mult. unfold pow2. simpl. field. }
  rewrite (int_of_float_nonneg _ N). split.
  - destruct (Z.eq_dec k 0%Z) as [Hz | Hne].
    + apply Z.le_trans with 0%Z; [lia |]. rewrite <- (Qfloor_Z 0). apply Qfloor_resp_le, N.
    + rewrite <- (Qfloor_Z (k - 1)). apply Qfloor_resp_le.
      rewrite <- (RN_exact_Z (k - 1)) by (unfold prec; lia). apply RN_le.
      rewrite V. unfold Z.sub. rewrite inject_Z_plus, inject_Z_opp.
      change (inject_Z 1) with 1. lra.
  - assert (Hlt : (Qfloor (RN (inject_Z p * f0_7)) < k + 1)%Z); [| lia].
    rewrite Zlt_Qlt. eapply Qle_lt_trans; [apply Qfloor_le |].
    eapply Qle_lt_trans; [exact U |]. rewrite inject_Z_plus. change (inject_Z 1) with 1. lra.
Qed.

Lemma int_truediv_unit a b : (0 <= a <= b)%Z -> (0 < b)%Z -> 0 <= int_truediv a b <= 1.
Proof.
  intros Ha Hb. unfold int_truediv.
  assert (B : 0 < inject_Z b) by (change 0 with (inject_Z 0); rewrite <- Zlt_Qlt; lia).
  split.
  - apply RN_nonneg. apply Qle_shift_div_l; [exact B|]. rewrite Qmult_0_l.
    apply inject_Z_nonneg. lia.
  - apply Qle_trans with (RN (inject_Z 1)); [|rewrite (RN_exact_Z 1) by reflexivity; apply Qle_refl].
    apply RN_le. apply Qle_shift_div_r; [exact B|]. rewrite Qmult_1_l.
    rewrite <- Zle_Qle. lia.
Qed.

Lemma round2_range x : 0 <= x -> x <= 100 -> 0 <= round2 x <= 100.
Proof.
  intros H0 H1. unfold round2. split.
  - apply RN_nonneg. apply Qle_shift_div_l; [reflexivity|]. rewrite Qmult_0_l.
    apply inject_Z_nonneg, rhe_nonneg. lra.
  - apply Qle_trans with (RN (inject_Z 100)); [|rewrite (RN_exact_Z 100) by reflexivity; apply Qle_refl].
    apply RN_le. apply Qle_shift_div_r; [reflexivity|].
    change (inject_Z 100 * 100) with (inject_Z 10000). rewrite <- Zle_Qle.
    rewrite <- (rhe_Z 10000). apply rhe_le. change (inject_Z 10000) with 10000. lra.
Qed.

Lemma percent_range r : 0 <= r -> r <= 1 -> 0 <= fmul r (float_of_int 100) <= 100.
Proof.
  intros H0 H1. unfold fmul.
  assert (E : float_of_int 100 = 100) by (vm_compute; reflexivity). rewrite E. split.
  - apply RN_nonneg. lra.
  - apply Qle_trans with (RN (inject_Z 100)); [|rewrite (RN_exact_Z 100) by reflexivity; apply Qle_refl].
    apply RN_le. change (inject_Z 100) with 100. lra.
Qed.

End FloatFacts.

(** ** Text: whitespace, [strip], [split] and [in] *)

Lemma contains_empty s : contains "" s = true.
Proof. destruct s; reflexivity. Qed.

Lemma isspace_lower_char c : isspace (lower_char c) = isspace c.
Proof. destruct c as [[] [] [] [] [] [] [] []]; reflexivity. Qed.

Lemma all_space_lower s : all_space (lower s) = all_space s.
Proof. induction s as [| c s IH]; simpl; [reflexivity |]. rewrite isspace_lower_char, IH. reflexivity. Qed.

Lemma lstrip_empty s : lstrip s = "" <-> all_space s = true.
Proof.
  induction s as [| c s IH]; simpl; [tauto |].
  destruct (isspace c); simpl; [exact IH |]. split; discriminate.
Qed.

Lemma rstrip_empty s : rstrip s = "" <-> all_space s = true.
Proof.
  induction s as [| c s IH]; simpl; [tauto |].
  destruct (rstrip s) eqn:E.
  - destruct (isspace c); simpl.
    + split; [intros _; apply IH; reflexivity | reflexivity].
    + split; discriminate.
  - split; [discriminate |]. intros H. apply andb_true_iff in H as [_ H].
    apply IH in H. discriminate.
Qed.

Lemma all_space_lstrip s : all_space (lstrip s) = all_space s.
Proof.
  induction s as [| c s IH]; simpl; [reflexivity |].
  destruct (isspace c) eqn:E; simpl; [exact IH | rewrite E; reflexivity].
Qed.

Lemma all_space_rstrip s : all_space (rstrip s) = all_space s.
Proof.
  induction s as [| c s IH]; simpl; [reflexivity |].
  destruct (rstrip s) eqn:E.
  - simpl in IH. rewrite <- IH. destruct (isspace c) eqn:Ec; simpl; rewrite ?Ec; reflexivity.
  - cbn [all_space]. rewrite <- IH. reflexivity.
Qed.

Lemma strip_empty s : strip s = "" <-> all_space s = true.
Proof. unfold strip. rewrite rstrip_empty, all_space_lstrip. tauto. Qed.

Lemma all_space_strip s : all_space (strip s) = all_space s.
Proof. unfold strip. rewrite all_space_rstrip, all_space_lstrip. reflexivity. Qed.

Lemma blank_spec s : blank s = true <-> all_space s = true.
Proof. unfold blank. rewrite String.eqb_eq. apply strip_empty. Qed.

Lemma blank_normalize s : blank s = true <-> normalize s = "".
Proof.
  unfold normalize. rewrite blank_spec, strip_empty, all_space_lower. tauto.
Qed.

Lemma normalize_not_space s : normalize s <> "" -> all_space (normalize s) = false.
Proof.
  unfold normalize. intros H. rewrite all_space_strip.
  destruct (all_space (lower s)) eqn:E; [| reflexivity].
  exfalso. apply H. apply strip_empty. exact E.
Qed.

Lemma split_go_nil s tok : split_go s tok = [] -> tok = "" /\ all_space s = true.
Proof.
  revert tok. induction s as [| c s IH]; intros tok; simpl.
  - destruct tok; [tauto | discriminate].
  - destruct (isspace c); simpl.
    + destruct tok; [| discriminate]. intros H. split; [reflexivity | apply (IH "" H)].
    + intros H. apply IH in H as [H _]. destruct tok; discriminate.
Qed.

Lemma split_nil s : split s = [] -> all_space s = true.
Proof. intros H. apply (split_go_nil s "" H). Qed.

(** A normalized text that is not empty has at least one token. *)
Lemma words_normalize_size s : normalize s <> "" -> (0 < size (words (normalize s)))%nat.
Proof.
  intros H. pose proof (normalize_not_space s H) as Hs.
  destruct (split (normalize s)) as [| w ws] eqn:E.
  - apply split_nil in E. congruence.
  - assert (Hw : w ∈ words (normalize s)).
    { unfold words. rewrite E. apply elem_of_list_to_set. left. }
    destruct (size (words (normalize s))) eqn:Es; [| lia].
    apply size_empty_inv in Es. exfalso. apply (Es w) in Hw. set_solver.
Qed.

(** ** Every grader returns *)

Lemma truediv_ok a b : b <> 0 -> truediv a b = Ok (Float.int_truediv a b).
Proof. intros H. unfold truediv. destruct (Z.eqb_spec b 0); [contradiction | reflexivity]. Qed.

Lemma _grade_mcq_returns user_answer correct_answers :
  exists g, _grade_mcq user_answer correct_answers = Ok g.
Proof.
  unfold _grade_mcq. destruct (mcq_exact _ _); [eauto |].
  destruct (mcq_selected _ _); eauto.
Qed.

Lemma _grade_true_false_returns user_answer correct_answers :
  exists g, _grade_true_false user_answer correct_answers = Ok g.
Proof. unfold _grade_true_false. destruct (tf_loop _ _); eauto. Qed.

(** The division of the word-overlap test is reached only when the
    normalized key text is not a substring of the answer, so the key text
    is not empty and its word set has at least one element. *)
Lemma fill_blank_step_denominator user_answer_lower correct_answer :
  contains (normalize (answer_text correct_answer)) user_answer_lower = false ->
  (1 <= size (words (normalize (answer_text correct_answer))))%nat.
Proof.
  intros H. apply words_normalize_size. intros E. rewrite E, contains_empty in H. discriminate.
Qed.

Lemma fill_blank_step_returns user_answer_lower correct_answer :
  exists r, fill_blank_step user_answer_lower correct_answer = Ok r.
Proof.
  unfold fill_blank_step.
  destruct (String.eqb _ _); [eauto |].
  destruct (contains (normalize (answer_text correct_answer)) user_answer_lower) eqn:E1;
    [simpl; eauto |].
  destruct (contains user_answer_lower _); [simpl; eauto |]. cbn [orb].
  pose proof (fill_blank_step_denominator _ _ E1) as Hd.
  rewrite truediv_ok by lia. cbn [res_bind].
  destruct (Float.fge _ _); eauto.
Qed.

Lemma fill_blank_loop_returns user_answer_lower correct_answers :
  exists r, fill_blank_loop user_answer_lower correct_answers = Ok r.
Proof.
  induction correct_answers as [| ca rest IH]; simpl; [eauto |].
  destruct (fill_blank_step_returns user_answer_lower ca) as [r ->]. simpl.
  destruct r; eauto.
Qed.

Lemma _grade_fill_blank_returns user_answer correct_answers :
  exists g, _grade_fill_blank user_answer correct_answers = Ok g.
Proof.
  unfold _grade_fill_blank. destruct (blank user_answer); [eauto |].
  destruct (fill_blank_loop_returns (normalize user_answer) correct_answers) as [r ->].
  simpl. destruct r; eauto.
Qed.

Lemma _grade_essay_returns user_answer correct_answers :
  exists g, _grade_essay user_answer correct_answers = Ok g.
Proof.
  unfold _grade_essay. destruct (blank user_answer); [eauto |].
  destruct (String.length user_answer <? 50)%nat; [eauto |].
  destruct (essay_terms user_answer correct_answers) as [found total].
  destruct (Z.ltb_spec 0 total); [| eauto].
  rewrite truediv_ok by lia. simpl. eauto.
Qed.

Lemma _grade_text_comparison_returns user_answer correct_answers :
  exists g, _grade_text_comparison user_answer correct_answers = Ok g.
Proof.
  unfold _grade_text_comparison. destruct (blank user_answer); [simpl; eauto |].
  destruct correct_answers as [| first rest]; [simpl; eauto |]. cbn [orb].
  destruct (text_comparison_loop _ _); eauto.
Qed.

Lemma _grade_single_answer_returns question user_answer correct_answers :
  exists g, _grade_single_answer question user_answer correct_answers = Ok g.
Proof.
  unfold _grade_single_answer, grade_by_tag.
  destruct (String.eqb _ "mcq"); [apply _grade_mcq_returns |].
  destruct (String.eqb _ "tf"); [apply _grade_true_false_returns |].
  destruct (String.eqb _ "fill_blank"); [apply _grade_fill_blank_returns |].
  destruct (String.eqb _ "essay"); [apply _grade_essay_returns |].
  apply _grade_text_comparison_returns.
Qed.

Lemma grade_answer_returns db question_map st answer :
  exists st', grade_answer db question_map st answer = Ok st'.
Proof.
  unfold grade_answer. destruct st as [[results possible] earned].
  destruct (ua_question_id answer) as [id |]; [| eauto].
  destruct (question_map !! id) as [question |]; [| eauto].
  destruct (_grade_single_answer_returns question (default "" (ua_answer_text answer))
              (correct_answers_of db id)) as [[[c p] fb] ->].
  simpl. eauto.
Qed.

Lemma grade_answers_returns db question_map user_answers st :
  exists st', grade_answers db question_map st user_answers = Ok st'.
Proof.
  revert st. induction user_answers as [| answer rest IH]; intros st; simpl; [eauto |].
  destruct (grade_answer_returns db question_map st answer) as [st' ->]. simpl. apply IH.
Qed.

(** ** What the two queries of [grade_quiz_submission] find *)

Lemma find_quiz_none db quiz :
  find (fun q => (quiz_pk q =? quiz)%N) (quizzes db) = None <->
  (forall q, In q (quizzes db) -> quiz_pk q <> quiz).
Proof.
  split.
  - intros H q Hq E. apply (find_none _ _ H) in Hq. apply N.eqb_neq in Hq. contradiction.
  - intros H. destruct (find _ _) as [q |] eqn:E; [| reflexivity].
    apply find_some in E as [Hq E]. apply N.eqb_eq in E. exfalso. apply (H q Hq E).
Qed.

Lemma questions_of_In db quiz q :
  In q (questions_of db quiz) <-> In q (quiz_questions db) /\ quiz_id q = quiz.
Proof.
  unfold questions_of. rewrite <- list_elem_of_In.
  rewrite merge_sort_Permutation. rewrite list_elem_of_In, filter_In, N.eqb_eq. tauto.
Qed.

Lemma questions_of_nil db quiz :
  questions_of db quiz = [] <-> (forall q, In q (quiz_questions db) -> quiz_id q <> quiz).
Proof.
  split.
  - intros H q Hq E. assert (Hin : In q (questions_of db quiz)) by (apply questions_of_In; tauto).
    rewrite H in Hin. destruct Hin.
  - intros H. destruct (questions_of db quiz) as [| q l] eqn:E; [reflexivity |].
    assert (Hin : In q (questions_of db quiz)) by (rewrite E; left; reflexivity).
    apply questions_of_In in Hin as [Hq Eq]. exfalso. apply (H q Hq Eq).
Qed.

Lemma grade_quiz_submission_cases db user_id quiz user_answers :
  (find (fun q => (quiz_pk q =? quiz)%N) (quizzes db) = None /\
   grade_quiz_submission db user_id quiz user_answers = Raise (ValueError "Quiz not found")) \/
  (find (fun q => (quiz_pk q =? quiz)%N) (quizzes db) <> None /\
   questions_of db quiz = [] /\
   grade_quiz_submission db user_id quiz user_answers
   = Raise (ValueError "No questions found for this quiz")) \/
  (find (fun q => (quiz_pk q =? quiz)%N) (quizzes db) <> None /\
   questions_of db quiz <> [] /\
   exists g, grade_quiz_submission db user_id quiz user_answers = Ok g).
Proof.
  unfold grade_quiz_submission.
  destruct (find _ (quizzes db)) as [q0 |]; [| left; split; reflexivity].
  right. destruct (questions_of db quiz) as [| q l] eqn:E.
  - left. repeat split; congruence.
  - right. repeat split; try congruence.
    destruct (grade_answers_returns db (question_map_of (q :: l)) user_answers ([], 0, 0))
      as [[[results possible] earned] ->].
    simpl. eauto.
Qed.

(** C3. Grading raises exactly when the quiz is missing or has no
    question, and what it raises is then the validation error
    ([ValueError]); for every other input it returns a result.  Every
    type grader returns a [(correct, points, feedback)] triple for every
    submitted text and every list of answer-key entries, whatever their
    texts; in particular one step of the fill-blank loop never raises, and
    the denominator of its word-overlap division is at least 1 whenever
    the division is reached. *)
Theorem C3_grading_fails_iff_no_quiz_or_no_question
  (db : Session) (user_id quiz : uuid) (user_answers : list UserAnswer) :
  let quiz_missing := forall q, In q (quizzes db) -> quiz_pk q <> quiz in
  let no_question := forall q, In q (quiz_questions db) -> quiz_id q <> quiz in
  ((exists e, grade_quiz_submission db user_id quiz user_answers = Raise e)
   <-> quiz_missing \/ no_question) /\
  (forall e, grade_quiz_submission db user_id quiz user_answers = Raise e
             <-> (quiz_missing /\ e = ValueError "Quiz not found") \/
                 (~ quiz_missing /\ no_question /\
                  e = ValueError "No questions found for this quiz")) /\
  ((exists g, grade_quiz_submission db user_id quiz user_answers = Ok g)
   <-> ~ (quiz_missing \/ no_question)) /\
  (forall user_answer correct_answers,
      (exists g, _grade_mcq user_answer correct_answers = Ok g) /\
      (exists g, _grade_true_false user_answer correct_answers = Ok g) /\
      (exists g, _grade_fill_blank user_answer correct_answers = Ok g) /\
      (exists g, _grade_essay user_answer correct_answers = Ok g) /\
      (exists g, _grade_text_comparison user_answer correct_answers = Ok g)) /\
  (forall user_answer_lower correct_answer,
      (exists r, fill_blank_step user_answer_lower correct_answer = Ok r) /\
      (contains (normalize (answer_text correct_answer)) user_answer_lower = false ->
       (1 <= size (words (normalize (answer_text correct_answer))))%nat)).
Proof.
  intros quiz_missing no_question.
  pose proof (find_quiz_none db quiz) as Hq. fold quiz_missing in Hq.
  pose proof (questions_of_nil db quiz) as Hn. fold no_question in Hn.
  assert (G : forall user_answer correct_answers,
      (exists g, _grade_mcq user_answer correct_answers = Ok g) /\
      (exists g, _grade_true_false user_answer correct_answers = Ok g) /\
      (exists g, _grade_fill_blank user_answer correct_answers = Ok g) /\
      (exists g, _grade_essay user_answer correct_answers = Ok g) /\
      (exists g, _grade_text_comparison user_answer correct_answers = Ok g)).
  { intros ua cas. split; [apply _grade_mcq_returns |].
    split; [apply _grade_true_false_returns |].
    split; [apply _grade_fill_blank_returns |].
    split; [apply _grade_essay_returns | apply _grade_text_comparison_returns]. }
  assert (S : forall user_answer_lower correct_answer,
      (exists r, fill_blank_step user_answer_lower correct_answer = Ok r) /\
      (contains (normalize (answer_text correct_answer)) user_answer_lower = false ->
       (1 <= size (words (normalize (answer_text correct_answer))))%nat)).
  { intros ual ca. split; [apply fill_blank_step_returns | apply fill_blank_step_denominator]. }
  destruct (grade_quiz_submission_cases db user_id quiz user_answers)
    as [[Hf E] | [[Hf [Hl E]] | [Hf [Hl [g E]]]]]; rewrite E.
  - apply Hq in Hf.
    split; [split; [tauto | eauto] |].
    split; [intros e; split; [intros He; injection He as <-; tauto
                             | intros [[_ ->] | [H _]]; [reflexivity | contradiction]] |].
    split; [split; [intros [g' Hg]; discriminate | tauto] |].
    split; assumption.
  - rewrite Hq in Hf. apply Hn in Hl.
    split; [split; [tauto | eauto] |].
    split; [intros e; split; [intros He; injection He as <-; tauto
                             | intros [[H _] | [_ [_ ->]]]; [contradiction | reflexivity]] |].
    split; [split; [intros [g' Hg]; discriminate | tauto] |].
    split; assumption.
  - rewrite Hq in Hf. rewrite Hn in Hl.
    split; [split; [intros [e He]; discriminate | tauto] |].
    split; [intros e; split; [discriminate
                             | intros [[H _] | [_ [H _]]]; contradiction] |].
    split; [split; [tauto | eauto] |].
    split; assumption.
Qed.

(** ** Points awarded by the graders *)

Lemma Int32_bounds (x : Int32.t) : - 2 ^ 31 <= Int32.val x < 2 ^ 31.
Proof.
  destruct x as [v Hv]. cbn [Int32.val]. unfold Int32.in_range in Hv.
  apply andb_true_iff in Hv as [H1 H2]. apply Z.leb_le in H1. apply Z.ltb_lt in H2. lia.
Qed.

Lemma partial_credit_range (p : Int32.t) (c : Q) :
  0 <= Int32.val p -> (0 <= c)%Q -> (c <= 1)%Q ->
  0 <= partial_credit p c <= p.
Proof.
  intros Hp H0 H1. pose proof (Int32_bounds p). unfold partial_credit.
  apply FloatFacts.fmul_int_le; [lia | assumption | assumption].
Qed.

Lemma f0_8_unit : (0 <= Float.f0_8)%Q /\ (Float.f0_8 <= 1)%Q.
Proof. split; vm_compute; discriminate. Qed.

Lemma f0_7_unit : (0 <= Float.f0_7)%Q /\ (Float.f0_7 <= 1)%Q.
Proof. split; vm_compute; discriminate. Qed.

Lemma fmin_unit r : (0 <= r)%Q -> (0 <= Float.fmin r Float.f1_0)%Q /\ (Float.fmin r Float.f1_0 <= 1)%Q.
Proof.
  intros Hr. unfold Float.fmin. destruct (Qle_bool r Float.f1_0) eqn:E.
  - apply Qle_bool_iff in E. split; [exact Hr |]. exact E.
  - split; vm_compute; discriminate.
Qed.

Lemma count_found_range user_answer terms found :
  found <= count_found user_answer terms found <= found + Z.of_nat (length terms).
Proof.
  unfold count_found. revert found.
  induction terms as [| t terms IH]; intros found; simpl; [lia |].
  destruct (contains _ _).
  - specialize (IH (found + 1)). simpl in IH. lia.
  - specialize (IH found). simpl in IH. lia.
Qed.

Lemma essay_fold_range user_answer correct_answers found total :
  0 <= found <= total ->
  let '(found', total') :=
    fold_left
      (fun '(key_terms_found, total_key_terms) correct_answer =>
         let terms := key_terms (answer_text correct_answer) in
         (count_found user_answer terms key_terms_found,
          total_key_terms + Z.of_nat (length terms)))
      correct_answers (found, total) in
  0 <= found' <= total' /\ found <= found'.
Proof.
  revert found total.
  induction correct_answers as [| ca rest IH]; intros found total H; simpl; [lia |].
  pose proof (count_found_range user_answer (key_terms (answer_text ca)) found) as Hc.
  specialize (IH (count_found user_answer (key_terms (answer_text ca)) found)
                 (total + Z.of_nat (length (key_terms (answer_text ca)))) ltac:(lia)).
  destruct (fold_left _ rest _) as [f' t']. lia.
Qed.

Lemma essay_terms_range user_answer correct_answers :
  0 <= fst (essay_terms user_answer correct_answers)
    <= snd (essay_terms user_answer correct_answers).
Proof.
  unfold essay_terms.
  pose proof (essay_fold_range user_answer correct_answers 0 0 ltac:(lia)) as H.
  destruct (fold_left _ correct_answers _) as [f t]. simpl. lia.
Qed.

Lemma key_within_cons hi a l : key_within hi (a :: l) ->
  0 <= Int32.val (points_awarded a) <= hi /\ key_within hi l.
Proof. intros H. split; [apply H; left; reflexivity | intros b Hb; apply H; right; exact Hb]. Qed.

Lemma mcq_exact_range hi u cas g :
  key_within hi cas -> mcq_exact u cas = Some g -> 0 <= snd (fst g) <= hi.
Proof.
  induction cas as [| a l IH]; simpl; [discriminate |]. intros H.
  apply key_within_cons in H as [Ha Hl]. destruct (String.eqb _ _).
  - intros E. injection E as <-. exact Ha.
  - apply IH, Hl.
Qed.

Lemma mcq_selected_range hi u cas g :
  key_within hi cas -> mcq_selected u cas = Some g -> 0 <= snd (fst g) <= hi.
Proof.
  induction cas as [| a l IH]; simpl; [discriminate |]. intros H.
  apply key_within_cons in H as [Ha Hl]. destruct (contains _ _).
  - intros E. injection E as <-. exact Ha.
  - apply IH, Hl.
Qed.

Lemma tf_loop_range hi u cas g :
  key_within hi cas -> tf_loop u cas = Some g -> 0 <= snd (fst g) <= hi.
Proof.
  induction cas as [| a l IH]; simpl; [discriminate |]. intros H.
  apply key_within_cons in H as [Ha Hl]. destruct (tf_agree _ _).
  - intros E. injection E as <-. exact Ha.
  - apply IH, Hl.
Qed.

Lemma fill_blank_step_range hi u a g :
  0 <= Int32.val (points_awarded a) <= hi ->
  fill_blank_step u a = Ok (Some g) -> 0 <= snd (fst g) <= hi.
Proof.
  intros Ha. unfold fill_blank_step.
  pose proof (partial_credit_range (points_awarded a) Float.f0_8 ltac:(lia)
                (proj1 f0_8_unit) (proj2 f0_8_unit)) as H8.
  pose proof (partial_credit_range (points_awarded a) Float.f0_7 ltac:(lia)
                (proj1 f0_7_unit) (proj2 f0_7_unit)) as H7.
  destruct (String.eqb _ _); [intros E; injection E as <-; exact Ha |].
  destruct (_ || _); [intros E; injection E as <-; cbn [fst snd]; lia |].
  destruct (truediv _ _) as [ratio | e]; [| discriminate]. cbn [res_bind].
  destruct (Float.fge _ _); [| discriminate].
  intros E; injection E as <-; cbn [fst snd]; lia.
Qed.

Lemma fill_blank_loop_range hi u cas g :
  key_within hi cas -> fill_blank_loop u cas = Ok (Some g) -> 0 <= snd (fst g) <= hi.
Proof.
  induction cas as [| a l IH]; simpl; [discriminate |]. intros H.
  apply key_within_cons in H as [Ha Hl].
  destruct (fill_blank_step u a) as [[g' |] | e] eqn:E; cbn [res_bind]; [| apply IH, Hl | discriminate].
  intros E'. injection E' as <-. apply (fill_blank_step_range hi u a g' Ha E).
Qed.

Lemma text_comparison_loop_range hi u cas g :
  key_within hi cas -> text_comparison_loop u cas = Some g -> 0 <= snd (fst g) <= hi.
Proof.
  induction cas as [| a l IH]; simpl; [discriminate |]. intros H.
  apply key_within_cons in H as [Ha Hl].
  pose proof (partial_credit_range (points_awarded a) Float.f0_8 ltac:(lia)
                (proj1 f0_8_unit) (proj2 f0_8_unit)) as H8.
  destruct (String.eqb _ _); [intros E; injection E as <-; exact Ha |].
  destruct (_ || _); [intros E; injection E as <-; cbn [fst snd]; lia |].
  apply IH, Hl.
Qed.

(** A grader that answers "not correct" awards no point; with a key
    within [[0, hi]] and [1 <= hi], every award lies in [[0, hi]]. *)
Lemma _grade_single_answer_range question user_answer correct_answers c p fb :
  _grade_single_answer question user_answer correct_answers = Ok (c, p, fb) ->
  (c = false -> p = 0) /\
  (forall hi, key_within hi correct_answers -> 1 <= hi -> 0 <= p <= hi).
Proof.
  unfold _grade_single_answer, grade_by_tag.
  destruct (String.eqb _ "mcq").
  { unfold _grade_mcq.
    destruct (mcq_exact _ _) as [g |] eqn:E1.
    - intros E. injection E as ->. split.
      + intros ->. clear -E1. induction correct_answers as [| a l IH]; simpl in E1; [discriminate |].
        destruct (String.eqb _ _); [discriminate | auto].
      + intros hi Hk _. apply (mcq_exact_range hi _ _ _ Hk E1).
    - destruct (mcq_selected _ _) as [g |] eqn:E2.
      + intros E. injection E as ->. split.
        * intros ->. clear -E2. induction correct_answers as [| a l IH]; simpl in E2; [discriminate |].
          destruct (contains _ _); [discriminate | auto].
        * intros hi Hk _. apply (mcq_selected_range hi _ _ _ Hk E2).
      + intros E. injection E as <- <- <-. split; [reflexivity | intros; lia]. }
  destruct (String.eqb _ "tf").
  { unfold _grade_true_false.
    destruct (tf_loop _ _) as [g |] eqn:E1.
    - intros E. injection E as ->. split.
      + intros ->. clear -E1. induction correct_answers as [| a l IH]; simpl in E1; [discriminate |].
        destruct (tf_agree _ _); [discriminate | auto].
      + intros hi Hk _. apply (tf_loop_range hi _ _ _ Hk E1).
    - intros E. injection E as <- <- <-. split; [reflexivity | intros; lia]. }
  destruct (String.eqb _ "fill_blank").
  { unfold _grade_fill_blank. destruct (blank user_answer).
    { intros E. injection E as <- <- <-. split; [reflexivity | intros; lia]. }
    destruct (fill_blank_loop _ _) as [[g |] | e] eqn:E1; cbn [res_bind]; [| | discriminate].
    - intros E. injection E as ->. split.
      + intros ->. clear -E1. exfalso.
        induction correct_answers as [| a l IH]; simpl in E1; [discriminate |].
        unfold fill_blank_step in E1.
        destruct (String.eqb _ _); [discriminate |].
        destruct (_ || _); [discriminate |].
        destruct (truediv _ _); cbn [res_bind] in E1; [| discriminate].
        destruct (Float.fge _ _); [discriminate | auto].
      + intros hi Hk _. apply (fill_blank_loop_range hi _ _ _ Hk E1).
    - intros E. injection E as <- <- <-. split; [reflexivity | intros; lia]. }
  destruct (String.eqb _ "essay").
  { unfold _grade_essay. destruct (blank user_answer).
    { intros E. injection E as <- <- <-. split; [reflexivity | intros; lia]. }
    destruct (String.length user_answer <? 50)%nat.
    { intros E. injection E as <- <- <-. split; [discriminate | intros; lia]. }
    pose proof (essay_terms_range user_answer correct_answers) as Hr.
    destruct (essay_terms user_answer correct_answers) as [found total]. cbn [fst snd] in Hr.
    destruct (Z.ltb_spec 0 total) as [Ht | Ht].
    - rewrite truediv_ok by lia. cbn [res_bind].
      intros E. injection E as <- <- <-. split; [discriminate |].
      intros hi Hk Hhi. destruct correct_answers as [| first rest]; [lia |].
      apply key_within_cons in Hk as [Hf _].
      destruct (FloatFacts.int_truediv_unit found total ltac:(lia) Ht) as [R0 R1].
      destruct (fmin_unit _ R0) as [M0 M1].
      pose proof (partial_credit_range (points_awarded first) _ ltac:(lia) M0 M1). lia.
    - intros E. injection E as <- <- <-. split; [discriminate | intros; lia]. }
  unfold _grade_text_comparison.
  destruct (blank user_answer || _).
  { intros E. injection E as <- <- <-. split; [reflexivity | intros; lia]. }
  destruct (text_comparison_loop _ _) as [g |] eqn:E1.
  - intros E. injection E as ->. split.
    + intros ->. clear -E1. exfalso.
      induction correct_answers as [| a l IH]; simpl in E1; [discriminate |].
      destruct (String.eqb _ _); [discriminate |].
      destruct (_ || _); [discriminate | auto].
    + intros hi Hk _. apply (text_comparison_loop_range hi _ _ _ Hk E1).
  - destruct correct_answers; [discriminate |].
    intros E. injection E as <- <- <-. split; [reflexivity | intros; lia].
Qed.

(** ** The loop over the submitted answers *)

Lemma sum_Z_app l1 l2 : sum_Z (l1 ++ l2) = sum_Z l1 + sum_Z l2.
Proof. induction l1 as [| x l1 IH]; simpl; [reflexivity |]. rewrite IH. lia. Qed.

Lemma possible_of_app l1 l2 : possible_of (l1 ++ l2) = possible_of l1 + possible_of l2.
Proof. unfold possible_of. rewrite map_app. apply sum_Z_app. Qed.

Lemma earned_of_app l1 l2 : earned_of (l1 ++ l2) = earned_of l1 + earned_of l2.
Proof. unfold earned_of. rewrite map_app. apply sum_Z_app. Qed.

Lemma result_of_incorrect db id q a r :
  result_of db id q a r -> r_is_correct r = false -> r_points_awarded r = 0.
Proof.
  intros (c & p & fb & E & ->) Hc. cbn in *. 
  apply (proj1 (_grade_single_answer_range _ _ _ _ _ _ E) Hc).
Qed.

(** The results appended by the loop are those of the known answers, in
    order, and the two counters grow by their sums. *)
Lemma grade_answers_spec db question_map user_answers results possible earned st' :
  grade_answers db question_map (results, possible, earned) user_answers = Ok st' ->
  exists new,
    st' = ((results ++ new)%list, possible + possible_of new, earned + earned_of new) /\
    Forall2 (fun a r => exists id q, ua_question_id a = Some id /\ question_map !! id = Some q /\
                             result_of db id q a r)
            (List.filter (known question_map) user_answers) new.
Proof.
  revert results possible earned st'.
  induction user_answers as [| a rest IH]; intros results possible earned st';
    cbn [grade_answers List.filter].
  - intros E. injection E as <-. exists []. rewrite app_nil_r. split; [f_equal; [f_equal|]; cbn; lia |].
    constructor.
  - unfold grade_answer at 1, known at 1.
    destruct (ua_question_id a) as [id |] eqn:Eid; [| cbn [res_bind]; apply IH].
    destruct (question_map !! id) as [q |] eqn:Eq.
    + destruct (_grade_single_answer q _ _) as [[[c p] fb] | e] eqn:Eg; cbn [res_bind]; [| discriminate].
      intros E. apply IH in E as (new & -> & HF).
      set (r := {| r_question_id := id;
                   r_question_text := question_text q;
                   r_user_answer := default "" (ua_answer_text a);
                   r_is_correct := c;
                   r_points_awarded := p;
                   r_points_possible := points q;
                   r_feedback := fb;
                   r_question_type := value (question_type q) |}).
      exists (r :: new). split.
      * rewrite <- app_assoc. cbn [app]. f_equal; [f_equal |].
        -- change (r :: new) with ([r] ++ new)%list. rewrite possible_of_app. cbn. lia.
        -- change (r :: new) with ([r] ++ new)%list. rewrite earned_of_app. cbn.
           destruct c; [lia |].
           assert (p = 0) by (apply (proj1 (_grade_single_answer_range _ _ _ _ _ _ Eg)); reflexivity).
           lia.
      * constructor; [| exact HF]. exists id, q. split; [exact Eid |]. split; [exact Eq |].
        exists c, p, fb. split; [exact Eg | reflexivity].
    + cbn [res_bind]. apply IH.
Qed.

(** ** The question map *)

Lemma fold_insert_lookup (questions : list QuizQuestion) (m : gmap N QuizQuestion) id q :
  fold_left (fun m q => <[question_pk q := q]> m) questions m !! id = Some q ->
  (In q questions /\ question_pk q = id) \/ m !! id = Some q.
Proof.
  revert m. induction questions as [| a l IH]; intros m; simpl; [auto |].
  intros H. apply IH in H as [[H1 H2] | H]; [left; auto |].
  destruct (decide (question_pk a = id)) as [E | NE].
  - rewrite E, lookup_insert_eq in H. injection H as <-. left. auto.
  - rewrite lookup_insert_ne in H by exact NE. right. exact H.
Qed.

Lemma question_map_of_lookup questions id q :
  question_map_of questions !! id = Some q -> In q questions /\ question_pk q = id.
Proof.
  intros H. apply fold_insert_lookup in H as [H | H]; [exact H |].
  rewrite lookup_empty in H. discriminate.
Qed.

Lemma fold_insert_is_some (questions : list QuizQuestion) (m : gmap N QuizQuestion) id :
  is_Some (fold_left (fun m q => <[question_pk q := q]> m) questions m !! id) <->
  (exists q, In q questions /\ question_pk q = id) \/ is_Some (m !! id).
Proof.
  revert m. induction questions as [| a l IH]; intros m; simpl.
  - split; [auto | intros [[q [[] _]] | H]; exact H].
  - rewrite IH. rewrite lookup_insert_is_Some. split.
    + intros [[q [H1 H2]] | [H | [_ H]]]; eauto.
    + intros [[q [[-> | H1] H2]] | H]; eauto.
      destruct (decide (question_pk a = id)); auto.
Qed.

Lemma question_map_of_is_some questions id :
  is_Some (question_map_of questions !! id) <-> exists q, In q questions /\ question_pk q = id.
Proof.
  unfold question_map_of. rewrite fold_insert_is_some, lookup_empty.
  split; [intros [H | H]; [exact H | destruct H; discriminate] | auto].
Qed.

Lemma fold_insert_size (questions : list QuizQuestion) (m : gmap N QuizQuestion) :
  (size (fold_left (fun m q => <[question_pk q := q]> m) questions m)
   <= size m + length questions)%nat.
Proof.
  revert m. induction questions as [| a l IH]; intros m; simpl; [lia |].
  specialize (IH (<[question_pk a := a]> m)).
  assert (size (<[question_pk a := a]> m) <= S (size m))%nat.
  { destruct (m !! question_pk a) eqn:E.
    - rewrite map_size_insert_Some by eauto. lia.
    - rewrite map_size_insert_None by exact E. lia. }
  lia.
Qed.

Lemma question_map_of_size questions :
  (size (question_map_of questions) <= length questions)%nat.
Proof.
  unfold question_map_of. pose proof (fold_insert_size questions ∅) as H.
  rewrite map_size_empty in H. exact H.
Qed.

(** ** What [grade_quiz_submission] returns *)

Lemma grade_quiz_submission_ok db user_id quiz user_answers g :
  grade_quiz_submission db user_id quiz user_answers = Ok g ->
  let question_map := question_map_of (questions_of db quiz) in
  Forall2 (fun a r => exists id q, ua_question_id a = Some id /\ question_map !! id = Some q /\
                             result_of db id q a r)
          (List.filter (known question_map) user_answers) (graded_answers g) /\
  max_score g = possible_of (graded_answers g) /\
  earned_points g = earned_of (graded_answers g) /\
  overall_score g
  = Float.round2 (percentage (earned_of (graded_answers g)) (possible_of (graded_answers g))).
Proof.
  unfold grade_quiz_submission.
  destruct (find _ (quizzes db)); [| discriminate].
  destruct (questions_of db quiz) as [| q0 l] eqn:Eqs; [discriminate |].
  destruct (grade_answers _ _ _ _) as [st' | e] eqn:E; cbn [res_bind]; [| discriminate].
  apply grade_answers_spec in E as (new & -> & HF). cbn [app].
  intros H. injection H as <-. cbn. rewrite !Z.add_0_l. auto.
Qed.

Lemma lookup_question_sound db quiz id q :
  question_map_of (questions_of db quiz) !! id = Some q ->
  In q (quiz_questions db) /\ quiz_id q = quiz /\ question_pk q = id.
Proof.
  intros H. apply question_map_of_lookup in H as [H1 H3].
  apply questions_of_In in H1 as [H1 H2]. auto.
Qed.

Lemma key_in_range_within db quiz q :
  key_in_range db quiz -> In q (quiz_questions db) -> quiz_id q = quiz ->
  key_within (points q) (correct_answers_of db (question_pk q)).
Proof.
  intros Hk Hq Hid a Ha. unfold correct_answers_of in Ha.
  apply filter_In in Ha as [Ha Hc]. apply andb_true_iff in Hc as [H1 H2].
  apply N.eqb_eq in H1. apply (Hk q a Hq Hid Ha H2 H1).
Qed.

Lemma Forall2_In_r {A B : Type} (P : A -> B -> Prop) l1 l2 b :
  Forall2 P l1 l2 -> In b l2 -> exists a, In a l1 /\ P a b.
Proof.
  induction 1 as [| x y l1 l2 Hxy HF IH]; simpl; [tauto |].
  intros [<- | H]; [eauto |]. destruct (IH H) as [a [Ha HP]]. eauto.
Qed.

(** A result for a question of the quiz is within the question's points
    when the key is in range and the question is worth at least 1 point. *)
Lemma result_of_in_range db quiz id q a r :
  key_in_range db quiz ->
  questions_positive db quiz ->
  question_map_of (questions_of db quiz) !! id = Some q ->
  result_of db id q a r ->
  0 <= r_points_awarded r <= r_points_possible r /\
  In q (quiz_questions db) /\ quiz_id q = quiz /\
  question_pk q = r_question_id r /\
  r_points_possible r = Int32.val (points q).
Proof.
  intros Hk Hp Hq (c & p & fb & Eg & ->).
  apply lookup_question_sound in Hq as (Hq & Hid & <-). cbn. split; [| auto].
  apply (proj2 (_grade_single_answer_range _ _ _ _ _ _ Eg)).
  - apply (key_in_range_within db quiz q Hk Hq Hid).
  - apply (Hp q Hq Hid).
Qed.

(** C1. When every correct answer-key entry of the quiz awards between 0
    points and the points of its question, and every question of the quiz
    is worth at least 1 point, every [QuestionResult] that grading
    produces has [0 <= points_awarded <= points_possible], and its
    [points_possible] is the [points] of the quiz question it answers. *)
Theorem C1_points_awarded_within_points_possible
  (db : Session) (user_id quiz : uuid) (user_answers : list UserAnswer) (g : GradingResult) :
  key_in_range db quiz ->
  questions_positive db quiz ->
  grade_quiz_submission db user_id quiz user_answers = Ok g ->
  forall r, In r (graded_answers g) ->
    0 <= r_points_awarded r <= r_points_possible r /\
    exists q, In q (quiz_questions db) /\ quiz_id q = quiz /\
              question_pk q = r_question_id r /\
              r_points_possible r = Int32.val (points q).
Proof.
  intros Hk Hp Hg r Hr.
  apply grade_quiz_submission_ok in Hg as (HF & _).
  destruct (Forall2_In_r _ _ _ _ HF Hr) as (a & _ & id & q & _ & Hq & Hres).
  destruct (result_of_in_range db quiz id q a r Hk Hp Hq Hres) as (Hb & Hin & Hz & Hpk & Hpp).
  split; [exact Hb |]. exists q. auto.
Qed.

(** ** The overall score *)

Lemma sums_in_range results :
  (forall r, In r results -> 0 <= r_points_awarded r <= r_points_possible r) ->
  0 <= earned_of results <= possible_of results.
Proof.
  induction results as [| r l IH]; intros H; [cbn; lia |].
  unfold earned_of, possible_of in *. cbn [map sum_Z fold_right].
  pose proof (H r (or_introl eq_refl)).
  assert (forall r, In r l -> 0 <= r_points_awarded r <= r_points_possible r)
    by (intros r' Hr'; apply H; right; exact Hr').
  specialize (IH H1). unfold sum_Z in IH. lia.
Qed.

Lemma percentage_range earned possible :
  0 <= earned <= possible ->
  (0 <= Float.round2 (percentage earned possible))%Q /\
  (Float.round2 (percentage earned possible) <= 100)%Q.
Proof.
  intros H. unfold percentage. destruct (Z.ltb_spec 0 possible) as [Hp | Hp].
  - destruct (FloatFacts.int_truediv_unit earned possible H Hp) as [R0 R1].
    destruct (FloatFacts.percent_range _ R0 R1) as [P0 P1].
    apply FloatFacts.round2_range; assumption.
  - split; vm_compute; discriminate.
Qed.

(** C2 (as the code has it). The returned [overall_score] is
    [round(earned / possible * 100, 2)] when [possible > 0] and exactly 0
    otherwise, where [earned] and [possible] are the sums of
    [points_awarded] and [points_possible] over the produced results:
    adding [points_awarded] only for results flagged correct changes
    nothing, since every grader awards 0 points when it answers "not
    correct".  When every correct key entry awards between 0 and its
    question's points and every question is worth at least 1 point, the
    score lies in [[0, 100]]. *)
Theorem C2_overall_score_is_rounded_percentage
  (db : Session) (user_id quiz : uuid) (user_answers : list UserAnswer) (g : GradingResult) :
  grade_quiz_submission db user_id quiz user_answers = Ok g ->
  let earned := earned_of (graded_answers g) in
  let possible := possible_of (graded_answers g) in
  (forall r, In r (graded_answers g) -> r_is_correct r = false -> r_points_awarded r = 0) /\
  earned_points g = earned /\
  max_score g = possible /\
  (0 < possible ->
   overall_score g
   = Float.round2 (Float.fmul (Float.int_truediv earned possible) (Float.float_of_int 100))) /\
  (possible <= 0 -> overall_score g = 0%Q) /\
  (key_in_range db quiz -> questions_positive db quiz ->
   (0 <= overall_score g)%Q /\ (overall_score g <= 100)%Q).
Proof.
  intros Hg earned possible.
  pose proof (grade_quiz_submission_ok _ _ _ _ _ Hg) as (HF & Hmax & Hearned & Hscore).
  fold earned possible in Hmax, Hearned, Hscore.
  split; [| split; [exact Hearned | split; [exact Hmax | split; [| split]]]].
  - intros r Hr. destruct (Forall2_In_r _ _ _ _ HF Hr) as (a & _ & id & q & _ & _ & Hres).
    apply (result_of_incorrect db id q a r Hres).
  - intros Hp. rewrite Hscore. unfold percentage.
    destruct (Z.ltb_spec 0 possible); [reflexivity | lia].
  - intros Hp. rewrite Hscore. unfold percentage.
    destruct (Z.ltb_spec 0 possible); [lia | reflexivity].
  - intros Hk Hq. rewrite Hscore. apply percentage_range. apply sums_in_range.
    intros r Hr. destruct (Forall2_In_r _ _ _ _ HF Hr) as (a & _ & id & q & _ & Hl & Hres).
    apply (result_of_in_range db quiz id q a r Hk Hq Hl Hres).
Qed.

Lemma paris_key_in_range : key_in_range paris_db 1%N.
Proof.
  intros q a Hq _ Ha _ _. simpl in Hq, Ha.
  destruct Hq as [<- | []]. destruct Ha as [<- | []]. vm_compute. split; discriminate.
Qed.

Lemma paris_questions_positive : questions_positive paris_db 1%N.
Proof.
  intros q Hq _. simpl in Hq. destruct Hq as [<- | []]. vm_compute. discriminate.
Qed.

(** C1 at the "Paris" quiz: its key is in range, its question is worth
    10 points, and the one result is within bounds. *)
Lemma C1_witness_paris :
  key_in_range paris_db 1%N /\ questions_positive paris_db 1%N /\
  exists g, grade_quiz_submission paris_db 7%N 1%N [answer_to 10%N "paris "] = Ok g /\
            Forall (fun r => 0 <= r_points_awarded r <= r_points_possible r)
                   (graded_answers g).
Proof.
  split; [exact paris_key_in_range |]. split; [exact paris_questions_positive |].
  eexists. split; [vm_compute; reflexivity |].
  apply List.Forall_forall. intros r Hr.
  apply (C1_points_awarded_within_points_possible paris_db 7%N 1%N
           [answer_to 10%N "paris "] _ paris_key_in_range paris_questions_positive
           eq_refl r Hr).
Defined.

(** C2 at the "Paris" quiz. *)
Lemma C2_witness_paris :
  exists g, grade_quiz_submission paris_db 7%N 1%N [answer_to 10%N "paris "] = Ok g /\
            earned_points g = earned_of (graded_answers g) /\
            max_score g = possible_of (graded_answers g) /\
            (0 <= overall_score g)%Q /\ (overall_score g <= 100)%Q.
Proof.
  eexists. split; [vm_compute; reflexivity |].
  pose proof (C2_overall_score_is_rounded_percentage paris_db 7%N 1%N
                [answer_to 10%N "paris "] _ eq_refl) as (_ & He & Hm & _ & _ & Hr).
  split; [exact He |]. split; [exact Hm |].
  exact (Hr paris_key_in_range paris_questions_positive).
Defined.

(** C2, as stated, fails: with the only precondition that entries award
    at most their question's points, a correct entry may award a negative
    number of points, and the score is then negative.  (Nor may a
    question be worth 0 points: the essay grader's 1-point credit then
    exceeds it, and the score exceeds 100.) *)
Lemma C2_counterexample_negative_entry :
  (let db := one_question_db MCQ 10 [("a", -5)] in
   (forall q a, In q (quiz_questions db) -> In a (quiz_answers db) ->
                question_id a = question_pk q ->
                Int32.val (points_awarded a) <= Int32.val (points q)) /\
   exists g, grade_quiz_submission db 7%N 1%N [answer_to 10%N "a"] = Ok g /\
             overall_score g = (-50)%Q /\
             ~ ((0 <= overall_score g)%Q /\ (overall_score g <= 100)%Q)) /\
  (let db := zero_point_db in
   (forall q a, In q (quiz_questions db) -> In a (quiz_answers db) ->
                question_id a = question_pk q ->
                0 <= Int32.val (points_awarded a) <= Int32.val (points q)) /\
   exists g, grade_quiz_submission db 7%N 1%N
               [answer_to 10%N "Plants make sugar."; answer_to 11%N "a"] = Ok g /\
             overall_score g = 200%Q /\
             ~ ((0 <= overall_score g)%Q /\ (overall_score g <= 100)%Q)).
Proof.
  split; split.
  - intros q a Hq Ha _. simpl in Hq, Ha.
    destruct Hq as [<- | []]. destruct Ha as [<- | []]. vm_compute. discriminate.
  - eexists. split; [vm_compute; reflexivity |]. split; [reflexivity |].
    intros [H _]. vm_compute in H. apply H. reflexivity.
  - intros q a Hq Ha E. simpl in Hq, Ha.
    destruct Hq as [<- | [<- | []]]; destruct Ha as [<- | [<- | []]];
      try discriminate E; vm_compute; split; discriminate.
  - eexists. split; [vm_compute; reflexivity |]. split; [reflexivity |].
    intros [_ H]. vm_compute in H. apply H. reflexivity.
Qed.

(** ** Skipped answers and the number of results *)

Lemma known_is_known db quiz answer :
  known (question_map_of (questions_of db quiz)) answer = is_known db quiz answer.
Proof.
  unfold known, is_known.
  destruct (ua_question_id answer) as [id |]; [| reflexivity].
  pose proof (question_map_of_is_some (questions_of db quiz) id) as H.
  destruct (existsb _ _) eqn:E.
  - apply existsb_exists in E as (q & Hq & Hc). apply andb_true_iff in Hc as [H1 H2].
    apply N.eqb_eq in H1, H2.
    assert (Hs : is_Some (question_map_of (questions_of db quiz) !! id)).
    { apply H. exists q. split; [apply questions_of_In; auto | exact H2]. }
    destruct Hs as [q' ->]. reflexivity.
  - destruct (question_map_of (questions_of db quiz) !! id) as [q |] eqn:El; [| reflexivity].
    destruct (proj1 H (ex_intro _ q eq_refl)) as (q' & Hq' & Hid).
    apply questions_of_In in Hq' as [Hq' Hz].
    assert (existsb (fun q => (quiz_id q =? quiz)%N && (question_pk q =? id)%N)
                    (quiz_questions db) = true).
    { apply existsb_exists. exists q'. split; [exact Hq' |].
      apply andb_true_iff. split; apply N.eqb_eq; assumption. }
    congruence.
Qed.

Lemma filter_known db quiz user_answers :
  List.filter (known (question_map_of (questions_of db quiz))) user_answers
  = List.filter (is_known db quiz) user_answers.
Proof. apply filter_ext. intros a. apply known_is_known. Qed.

Lemma grade_answers_app db question_map l1 l2 st :
  grade_answers db question_map st (l1 ++ l2)
  = res_bind (grade_answers db question_map st l1)
             (fun st' => grade_answers db question_map st' l2).
Proof.
  revert st. induction l1 as [| a l1 IH]; intros st; cbn [app grade_answers]; [reflexivity |].
  destruct (grade_answer db question_map st a) as [st' | e]; cbn [res_bind]; [apply IH | reflexivity].
Qed.

Lemma grade_answer_unknown db question_map st answer :
  known question_map answer = false -> grade_answer db question_map st answer = Ok st.
Proof.
  unfold known, grade_answer. destruct st as [[results possible] earned].
  destruct (ua_question_id answer) as [id |]; [| reflexivity].
  destruct (question_map !! id); [discriminate | reflexivity].
Qed.

Lemma grade_quiz_submission_skip db user_id quiz before answer after :
  is_known db quiz answer = false ->
  grade_quiz_submission db user_id quiz (before ++ answer :: after)
  = grade_quiz_submission db user_id quiz (before ++ after).
Proof.
  intros H. rewrite <- known_is_known in H. unfold grade_quiz_submission.
  destruct (find _ (quizzes db)); [| reflexivity].
  destruct (questions_of db quiz) as [| q0 l] eqn:E; [reflexivity |].
  rewrite !grade_answers_app. cbn [grade_answers].
  destruct (grade_answers db (question_map_of (q0 :: l)) ([], 0, 0) before) as [st | e];
    cbn [res_bind]; [| reflexivity].
  rewrite grade_answer_unknown by exact H. reflexivity.
Qed.

Lemma results_follow_answers db (question_map : gmap N QuizQuestion) user_answers results :
  Forall2 (fun a r => exists id q, ua_question_id a = Some id /\ question_map !! id = Some q /\
                             result_of db id q a r)
          (List.filter (known question_map) user_answers) results ->
  map Some (map r_question_id results)
  = map ua_question_id (List.filter (known question_map) user_answers) /\
  (forall id, In id (map r_question_id results) ->
              In id (omap ua_question_id user_answers) /\ is_Some (question_map !! id)) /\
  (NoDup (omap ua_question_id user_answers) -> NoDup (map r_question_id results)).
Proof.
  revert results.
  induction user_answers as [| a rest IH]; intros results; cbn [List.filter].
  - intros H. inversion H; subst. cbn. repeat split; [tauto | tauto | constructor].
  - destruct (known question_map a) eqn:Ek.
    + intros H.
      inversion H as [| a' r l1 results' (qid & q & Hid & Hq & c & p & fb & Eg & Er) HF]; subst.
      destruct (IH results' HF) as (I1 & I2 & I3).
      assert (Hsome : is_Some (question_map !! qid)) by eauto.
      cbn [map r_question_id omap list_omap]. rewrite Hid.
      split; [f_equal; exact I1 |]. split.
      * intros id [<- | Hin]; [split; [left; reflexivity | exact Hsome] |].
        destruct (I2 id Hin) as [J1 J2]. split; [right; exact J1 | exact J2].
      * intros Hnd. apply NoDup_cons in Hnd as [Hn Hnd]. apply NoDup_cons. split; [| auto].
        intros Hin. apply Hn. apply list_elem_of_In. apply list_elem_of_In in Hin.
        apply (I2 _ Hin).
    + intros H. destruct (IH results H) as (I1 & I2 & I3). split; [exact I1 |]. split.
      * intros id Hin. destruct (I2 id Hin) as [J1 J2]. split; [| exact J2].
        cbn [omap list_omap]. destruct (ua_question_id a); [right |]; exact J1.
      * intros Hnd. apply I3. cbn [omap list_omap] in Hnd.
        destruct (ua_question_id a); [apply NoDup_cons in Hnd as [_ Hnd] |]; exact Hnd.
Qed.

Lemma distinct_ids_bounded (question_map : gmap N QuizQuestion) (ids : list N) :
  NoDup ids -> (forall id, In id ids -> is_Some (question_map !! id)) ->
  (length ids <= size question_map)%nat.
Proof.
  intros Hnd Hin. rewrite <- (size_list_to_set (C := gset N) ids Hnd).
  rewrite <- (size_dom (D := gset N) question_map). apply subseteq_size.
  intros id Hid. apply elem_of_list_to_set in Hid. apply elem_of_dom.
  apply Hin. apply list_elem_of_In. exact Hid.
Qed.

(** C4 (as the code has it). Grading produces exactly one
    [QuestionResult] for every submitted answer whose [question_id] is
    the id of a question of the quiz, in the order submitted, so their
    number is at most the number of submitted answers; it is at most the
    number of quiz questions when no question id is submitted twice.  A
    submitted answer whose [question_id] is not among the quiz's
    questions is skipped: removing it from the submission changes nothing
    in what [grade_quiz_submission] returns (results, points, score) and
    it raises nothing. *)
Theorem C4_one_result_per_known_answer
  (db : Session) (user_id quiz : uuid) (user_answers : list UserAnswer) :
  (forall g, grade_quiz_submission db user_id quiz user_answers = Ok g ->
     length (graded_answers g) = length (List.filter (is_known db quiz) user_answers) /\
     map Some (map r_question_id (graded_answers g))
     = map ua_question_id (List.filter (is_known db quiz) user_answers) /\
     (length (graded_answers g) <= length user_answers)%nat /\
     (NoDup (omap ua_question_id user_answers) ->
      (length (graded_answers g) <= length (questions_of db quiz))%nat)) /\
  (forall before answer after,
     user_answers = (before ++ answer :: after)%list ->
     is_known db quiz answer = false ->
     grade_quiz_submission db user_id quiz user_answers
     = grade_quiz_submission db user_id quiz (before ++ after)).
Proof.
  split.
  - intros g Hg. apply grade_quiz_submission_ok in Hg as (HF & _).
    pose proof (Forall2_length _ _ _ HF) as Hlen.
    destruct (results_follow_answers db _ user_answers (graded_answers g) HF)
      as (Hids & Hin & Hnd).
    rewrite filter_known in Hlen, Hids.
    split; [symmetry; exact Hlen |]. split; [exact Hids |]. split.
    + rewrite <- Hlen. apply filter_length_le.
    + intros Hd. rewrite <- (length_map r_question_id).
      etransitivity; [| apply question_map_of_size].
      apply distinct_ids_bounded; [apply Hnd, Hd | intros id Hid; apply (Hin id Hid)].
  - intros before answer after -> Hk. apply grade_quiz_submission_skip, Hk.
Qed.

(** C4, as stated, fails: two submitted answers to the one question of a
    quiz give two results, more than the number of quiz questions. *)
Lemma C4_counterexample_repeated_answer :
  let user_answers := [answer_to 10%N "paris"; answer_to 10%N "Paris"] in
  exists g, grade_quiz_submission paris_db 7%N 1%N user_answers = Ok g /\
            length (graded_answers g) = 2%nat /\
            length user_answers = 2%nat /\
            length (questions_of paris_db 1%N) = 1%nat /\
            ~ (length (graded_answers g)
               <= Nat.min (length user_answers) (length (questions_of paris_db 1%N)))%nat.
Proof.
  eexists. split; [vm_compute; reflexivity |].
  split; [reflexivity |]. split; [reflexivity |]. split; [reflexivity |].
  vm_compute. lia.
Qed.

(** ** Blank answers *)

Lemma contains_in_empty s : s <> "" -> contains s "" = false.
Proof. destruct s; [congruence | reflexivity]. Qed.

Lemma blank_false_normalize s : blank s = false -> normalize s <> "".
Proof. intros H E. apply blank_normalize in E. congruence. Qed.

Lemma mcq_exact_blank correct_answers :
  (forall e, In e correct_answers -> blank (answer_text e) = false) ->
  mcq_exact "" correct_answers = None /\ mcq_selected "" correct_answers = None.
Proof.
  induction correct_answers as [| a l IH]; intros H; [split; reflexivity |].
  pose proof (blank_false_normalize _ (H a (or_introl eq_refl))) as Ha.
  destruct IH as [I1 I2]; [intros e He; apply H; right; exact He |].
  cbn [mcq_exact mcq_selected]. rewrite (contains_in_empty _ Ha).
  destruct (String.eqb_spec "" (normalize (answer_text a))) as [E | _]; [congruence |].
  split; assumption.
Qed.

Lemma tf_loop_blank correct_answers : tf_loop "" correct_answers = None.
Proof.
  induction correct_answers as [| a l IH]; [reflexivity |]. cbn [tf_loop].
  unfold tf_agree. cbn [mem existsb String.eqb orb]. rewrite !andb_false_r. exact IH.
Qed.

(** C5. An empty or whitespace-only answer gets [correct = false], 0
    points and a "no answer" message from the fill-blank, essay and
    text-comparison graders, whatever the key.  The multiple-choice and
    true/false graders have no such test: for a blank answer they answer
    "Incorrect. The correct answer was: ..." (multiple choice: when no
    key entry is blank; a blank key entry makes the blank answer correct,
    with full points). *)
Theorem C5_blank_answer_by_grader :
  (forall user_answer correct_answers, blank user_answer = true ->
     _grade_fill_blank user_answer correct_answers = Ok (false, 0, "No answer provided.") /\
     _grade_essay user_answer correct_answers = Ok (false, 0, "No answer provided.") /\
     _grade_text_comparison user_answer correct_answers
     = Ok (false, 0, "No answer provided or no correct answers defined.")) /\
  (forall user_answer correct_answers, blank user_answer = true ->
     _grade_true_false user_answer correct_answers
     = Ok (false, 0,
           match correct_answers with
           | first :: _ => "Incorrect. The correct answer was: " +:+ answer_text first
           | [] => "Incorrect answer."
           end)) /\
  (forall user_answer correct_answers, blank user_answer = true ->
     (forall e, In e correct_answers -> blank (answer_text e) = false) ->
     _grade_mcq user_answer correct_answers
     = Ok (false, 0,
           match correct_answers with
           | first :: _ => "Incorrect. The correct answer was: " +:+ answer_text first
           | [] => "Incorrect answer."
           end)) /\
  _grade_mcq "" [key_entry 10%N "Paris" 10]
  = Ok (false, 0, "Incorrect. The correct answer was: Paris") /\
  _grade_true_false "  " [key_entry 10%N "True" 10]
  = Ok (false, 0, "Incorrect. The correct answer was: True") /\
  _grade_mcq "  " [key_entry 10%N " " 10] = Ok (true, 10, "Correct! Well done.").
Proof.
  split; [| split; [| split; [| split; [| split]]]].
  - intros ua cas Hb. unfold _grade_fill_blank, _grade_essay, _grade_text_comparison.
    rewrite Hb. auto.
  - intros ua cas Hb. unfold _grade_true_false.
    rewrite (proj1 (blank_normalize ua) Hb), tf_loop_blank. reflexivity.
  - intros ua cas Hb Hk. unfold _grade_mcq. rewrite (proj1 (blank_normalize ua) Hb).
    destruct (mcq_exact_blank cas Hk) as [-> ->]. reflexivity.
  - vm_compute. reflexivity.
  - vm_compute. reflexivity.
  - vm_compute. reflexivity.
Qed.

(** ** The essay grader *)

Lemma RN_Z_eq z : (Z.abs z < 2 ^ 53)%Z -> Float.RN (inject_Z z) = inject_Z z.
Proof.
  intros Hz. pose proof (FloatFacts.RN_exact_Z z Hz) as E. unfold Float.RN in *.
  destruct (Qcompare (inject_Z z) 0) eqn:C.
  - unfold Qeq in E. cbn in E. replace z with 0 by lia. reflexivity.
  - apply Qred_complete in E. rewrite Qcanon.Qred_involutive in E. rewrite E.
    apply Qcanon.Qred_identity. cbn. apply Z.gcd_1_r.
  - apply Qred_complete in E. rewrite Qcanon.Qred_involutive in E. rewrite E.
    apply Qcanon.Qred_identity. cbn. apply Z.gcd_1_r.
Qed.

Lemma partial_credit_zero (p : Int32.t) : partial_credit p 0%Q = 0.
Proof.
  unfold partial_credit, Float.fmul. rewrite (FloatFacts.RN_zero _); [reflexivity |].
  apply Qmult_0_r.
Qed.

Lemma partial_credit_one (p : Int32.t) : partial_credit p 1%Q = Int32.val p.
Proof.
  pose proof (Int32_bounds p) as Hp.
  unfold partial_credit, Float.fmul, Float.float_of_int.
  rewrite (RN_Z_eq p) by lia.
  rewrite (FloatFacts.RN_proper _ (inject_Z p)) by apply Qmult_1_r.
  rewrite (RN_Z_eq p) by lia. unfold Float.int_of_float. cbn. apply Z.quot_1_r.
Qed.

Lemma int_truediv_zero total : Float.int_truediv 0 total = 0%Q.
Proof.
  unfold Float.int_truediv. apply FloatFacts.RN_zero. unfold Qdiv. apply Qmult_0_l.
Qed.

Lemma int_truediv_same total : 0 < total -> Float.int_truediv total total = 1%Q.
Proof.
  intros H. unfold Float.int_truediv.
  rewrite (FloatFacts.RN_proper _ (inject_Z 1)); [apply (RN_Z_eq 1); reflexivity |].
  change (inject_Z 1) with 1%Q. field. intros E.
  assert (0 < inject_Z total)%Q by (change 0%Q with (inject_Z 0); rewrite <- Zlt_Qlt; lia).
  rewrite E in H0. discriminate.
Qed.

(** C6 (as the code has it). The essay grader marks every answer that
    is not blank as correct.  An answer shorter than 50 characters gets
    exactly 1 point.  An answer of 50 characters or more, in which
    [found] of the [total] key terms of the correct entries occur
    ([0 <= found <= total]), gets 0 points when the key has no key term
    and otherwise [int(p0 * min(found / total, 1.0))] points, where [p0]
    is the points of the first correct entry: that is 0 when no key term
    occurs, even when [p0 > 0]; it is [p0] when all of them occur; and it
    lies between 0 and [p0] when [0 <= p0]. *)
Theorem C6_essay_points_by_length
  (user_answer : string) (correct_answers : list QuizAnswer) :
  blank user_answer = false ->
  ((String.length user_answer < 50)%nat ->
   _grade_essay user_answer correct_answers
   = Ok (true, 1, "Response is too short. Please provide more detail and explanation.")) /\
  ((50 <= String.length user_answer)%nat ->
   let found := fst (essay_terms user_answer correct_answers) in
   let total := snd (essay_terms user_answer correct_answers) in
   0 <= found <= total /\
   (total = 0 ->
    _grade_essay user_answer correct_answers = Ok (true, 0, "Essay response received.")) /\
   (0 < total ->
    exists first rest fb,
      correct_answers = first :: rest /\
      let p0 := Int32.val (points_awarded first) in
      let p := partial_credit p0 (Float.fmin (Float.int_truediv found total) Float.f1_0) in
      _grade_essay user_answer correct_answers = Ok (true, p, fb) /\
      (found = 0 -> p = 0) /\
      (found = total -> p = p0) /\
      (0 <= p0 -> 0 <= p <= p0))).
Proof.
  intros Hb. unfold _grade_essay. rewrite Hb. split.
  - intros Hlen. destruct (Nat.ltb_spec (String.length user_answer) 50); [reflexivity | lia].
  - intros Hlen. destruct (Nat.ltb_spec (String.length user_answer) 50); [lia |].
    pose proof (essay_terms_range user_answer correct_answers) as Hr.
    destruct (essay_terms user_answer correct_answers) as [found total] eqn:Et.
    cbn [fst snd] in *. split; [exact Hr |]. split.
    + intros ->. reflexivity.
    + intros Ht. destruct correct_answers as [| first rest].
      { cbn in Et. injection Et as <- <-. lia. }
      replace (0 <? total) with true by (symmetry; apply Z.ltb_lt; exact Ht).
      rewrite truediv_ok by lia. cbn [res_bind].
      exists first, rest. eexists. split; [reflexivity |]. split; [reflexivity |].
      split; [| split].
      * intros ->. rewrite int_truediv_zero.
        change (Float.fmin 0 Float.f1_0) with 0%Q. apply partial_credit_zero.
      * intros ->. rewrite int_truediv_same by lia.
        change (Float.fmin 1 Float.f1_0) with 1%Q. apply partial_credit_one.
      * intros Hp.
        destruct (FloatFacts.int_truediv_unit found total ltac:(lia) Ht) as [R0 R1].
        destruct (fmin_unit _ R0) as [M0 M1].
        apply (partial_credit_range (points_awarded first) _ Hp M0 M1).
Qed.

(** C6 at an 18-character answer: 1 point. *)
Lemma C6_witness_short_answer :
  _grade_essay "Plants make sugar." [key_entry 10%N "photosynthesis" 10]
  = Ok (true, 1, "Response is too short. Please provide more detail and explanation.").
Proof.
  apply (proj1 (C6_essay_points_by_length "Plants make sugar."
                  [key_entry 10%N "photosynthesis" 10] eq_refl)).
  cbn. lia.
Defined.

(** C6, as stated, fails: an answer of 71 characters that contains no
    key term gets 0 points although it is not empty and the first correct
    entry is worth 10 points. *)
Lemma C6_counterexample_long_answer_without_key_term :
  let correct_answers := [key_entry 10%N "photosynthesis" 10] in
  blank long_answer = false /\
  String.length long_answer = 71%nat /\
  (forall first rest, correct_answers = first :: rest ->
                      Int32.val (points_awarded first) = 10) /\
  _grade_essay long_answer correct_answers
  = Ok (true, 0, "Response needs more key concepts and details.").
Proof.
  split; [reflexivity |]. split; [reflexivity |]. split; [| vm_compute; reflexivity].
  intros first rest E. injection E as <- _. reflexivity.
Qed.

(** ** The multiple-choice grader *)

Lemma mcq_exact_none u correct_answers :
  (forall e, In e correct_answers -> normalize (answer_text e) <> u) ->
  mcq_exact u correct_answers = None.
Proof.
  induction correct_answers as [| a l IH]; intros H; [reflexivity |]. cbn [mcq_exact].
  destruct (String.eqb_spec u (normalize (answer_text a))) as [E | _].
  - exfalso. apply (H a (or_introl eq_refl)). congruence.
  - apply IH. intros e He. apply H. right. exact He.
Qed.

Lemma mcq_exact_some u correct_answers :
  (exists e, In e correct_answers /\ normalize (answer_text e) = u) ->
  exists e, In e correct_answers /\ normalize (answer_text e) = u /\
            mcq_exact u correct_answers
            = Some (true, Int32.val (points_awarded e), "Correct! Well done.").
Proof.
  induction correct_answers as [| a l IH]; intros (e & He & Hn); [destruct He |].
  cbn [mcq_exact]. destruct (String.eqb_spec u (normalize (answer_text a))) as [E | NE].
  - exists a. split; [left; reflexivity |]. split; [congruence | reflexivity].
  - destruct He as [-> | He]; [congruence |].
    destruct (IH (ex_intro _ e (conj He Hn))) as (e' & H1 & H2 & H3).
    exists e'. split; [right; exact H1 |]. split; assumption.
Qed.

Lemma mcq_selected_none u correct_answers :
  (forall e, In e correct_answers -> contains (normalize (answer_text e)) u = false) ->
  mcq_selected u correct_answers = None.
Proof.
  induction correct_answers as [| a l IH]; intros H; [reflexivity |]. cbn [mcq_selected].
  rewrite (H a (or_introl eq_refl)). apply IH. intros e He. apply H. right. exact He.
Qed.

Lemma mcq_selected_some u correct_answers :
  (exists e, In e correct_answers /\ contains (normalize (answer_text e)) u = true) ->
  exists e, In e correct_answers /\ contains (normalize (answer_text e)) u = true /\
            mcq_selected u correct_answers
            = Some (true, Int32.val (points_awarded e),
                    "Partially correct. Consider reviewing the material for a complete answer.").
Proof.
  induction correct_answers as [| a l IH]; intros (e & He & Hn); [destruct He |].
  cbn [mcq_selected]. destruct (contains (normalize (answer_text a)) u) eqn:E.
  - exists a. split; [left; reflexivity |]. split; [exact E | reflexivity].
  - destruct He as [-> | He]; [congruence |].
    destruct (IH (ex_intro _ e (conj He Hn))) as (e' & H1 & H2 & H3).
    exists e'. split; [right; exact H1 |]. split; assumption.
Qed.

Lemma mcq_exact_first u before e after :
  (forall b, In b before -> normalize (answer_text b) <> u) ->
  normalize (answer_text e) = u ->
  mcq_exact u (before ++ e :: after)
  = Some (true, Int32.val (points_awarded e), "Correct! Well done.").
Proof.
  intros Hb He. induction before as [| a l IH]; cbn [app mcq_exact].
  - rewrite He, String.eqb_refl. reflexivity.
  - destruct (String.eqb_spec u (normalize (answer_text a))) as [E | _].
    + exfalso. apply (Hb a (or_introl eq_refl)). congruence.
    + apply IH. intros b Hin. apply Hb. right. exact Hin.
Qed.

Lemma mcq_selected_first u before e after :
  (forall b, In b before -> contains (normalize (answer_text b)) u = false) ->
  contains (normalize (answer_text e)) u = true ->
  mcq_selected u (before ++ e :: after)
  = Some (true, Int32.val (points_awarded e),
          "Partially correct. Consider reviewing the material for a complete answer.").
Proof.
  intros Hb He. induction before as [| a l IH]; cbn [app mcq_selected].
  - rewrite He. reflexivity.
  - rewrite (Hb a (or_introl eq_refl)). apply IH. intros b Hin. apply Hb. right. exact Hin.
Qed.

(** C7. The multiple-choice grader.  If the trimmed, lower-cased answer
    equals the trimmed, lower-cased text of some correct entry, the
    answer is correct with the full points of such an entry.  Otherwise,
    if the normalized text of some correct entry is a substring of the
    normalized answer, the answer is correct with the full points of such
    an entry and the "Partially correct" feedback.  Otherwise it is not
    correct, with 0 points and feedback naming the first correct entry.
    In both tiers the entry whose points are awarded is the first one,
    in the order of the key, that matches.
    For the 10-point question with correct entry "Paris" (10 points), the
    answer "paris " is correct with 10 points and the overall score is
    100.0. *)
Theorem C7_mcq_exact_then_substring_then_incorrect
  (user_answer : string) (correct_answers : list QuizAnswer) :
  let u := normalize user_answer in
  ((exists e, In e correct_answers /\ normalize (answer_text e) = u) ->
   exists e, In e correct_answers /\ normalize (answer_text e) = u /\
             _grade_mcq user_answer correct_answers
             = Ok (true, Int32.val (points_awarded e), "Correct! Well done.")) /\
  ((forall e, In e correct_answers -> normalize (answer_text e) <> u) ->
   (exists e, In e correct_answers /\ contains (normalize (answer_text e)) u = true) ->
   exists e, In e correct_answers /\ contains (normalize (answer_text e)) u = true /\
             _grade_mcq user_answer correct_answers
             = Ok (true, Int32.val (points_awarded e),
                   "Partially correct. Consider reviewing the material for a complete answer.")) /\
  ((forall e, In e correct_answers ->
              normalize (answer_text e) <> u /\
              contains (normalize (answer_text e)) u = false) ->
   _grade_mcq user_answer correct_answers
   = Ok (false, 0,
         match correct_answers with
         | first :: _ => "Incorrect. The correct answer was: " +:+ answer_text first
         | [] => "Incorrect answer."
         end)) /\
  (forall before e after,
     correct_answers = (before ++ e :: after)%list ->
     (forall b, In b before -> normalize (answer_text b) <> u) ->
     normalize (answer_text e) = u ->
     _grade_mcq user_answer correct_answers
     = Ok (true, Int32.val (points_awarded e), "Correct! Well done.")) /\
  (forall before e after,
     correct_answers = (before ++ e :: after)%list ->
     (forall b, In b correct_answers -> normalize (answer_text b) <> u) ->
     (forall b, In b before -> contains (normalize (answer_text b)) u = false) ->
     contains (normalize (answer_text e)) u = true ->
     _grade_mcq user_answer correct_answers
     = Ok (true, Int32.val (points_awarded e),
           "Partially correct. Consider reviewing the material for a complete answer.")) /\
  (exists g,
     grade_quiz_submission paris_db 7%N 1%N [answer_to 10%N "paris "] = Ok g /\
     map (fun r => (r_is_correct r, r_points_awarded r, r_points_possible r))
         (graded_answers g) = [(true, 10, 10)] /\
     overall_score g = 100%Q).
Proof.
  intros u. split; [| split; [| split; [| split; [| split]]]].
  - intros H. destruct (mcq_exact_some u correct_answers H) as (e & H1 & H2 & H3).
    exists e. split; [exact H1 |]. split; [exact H2 |].
    unfold _grade_mcq. fold u. rewrite H3. reflexivity.
  - intros Hn H. destruct (mcq_selected_some u correct_answers H) as (e & H1 & H2 & H3).
    exists e. split; [exact H1 |]. split; [exact H2 |].
    unfold _grade_mcq. fold u. rewrite (mcq_exact_none u correct_answers Hn), H3. reflexivity.
  - intros H. unfold _grade_mcq. fold u.
    rewrite (mcq_exact_none u correct_answers) by (intros e He; apply (H e He)).
    rewrite (mcq_selected_none u correct_answers) by (intros e He; apply (H e He)).
    reflexivity.
  - intros before e after -> Hb He. unfold _grade_mcq. fold u.
    rewrite (mcq_exact_first u before e after Hb He). reflexivity.
  - intros before e after E Hn Hb He. unfold _grade_mcq. fold u.
    rewrite (mcq_exact_none u correct_answers Hn). rewrite E.
    rewrite (mcq_selected_first u before e after Hb He). reflexivity.
  - eexists. split; [vm_compute; reflexivity |]. split; reflexivity.
Qed.

(** ** The true/false grader *)

Lemma mem_In s l : mem s l = true <-> In s l.
Proof.
  unfold mem. rewrite existsb_exists. split.
  - intros (x & Hx & E). apply String.eqb_eq in E. subst. exact Hx.
  - intros H. exists s. split; [exact H | apply String.eqb_refl].
Qed.

Lemma mem_false s l : ~ In s l -> mem s l = false.
Proof. intros H. destruct (mem s l) eqn:E; [| reflexivity]. apply mem_In in E. contradiction. Qed.

Lemma tf_agree_same_truth u k : tf_agree u k = true <-> same_truth u k.
Proof.
  unfold tf_agree, same_truth, answer_truth, key_truth. split.
  - intros H. apply orb_true_iff in H as [H | H]; apply andb_true_iff in H as [Hk Hu].
    + exists true. rewrite Hk, Hu. auto.
    + exists false. rewrite Hk, Hu.
      rewrite (mem_false u ["true"; "yes"; "correct"; "t"; "y"]),
              (mem_false k ["true"; "yes"; "correct"]); [auto | |].
      * apply mem_In in Hk. intros Hc. cbn in Hk, Hc.
        repeat (destruct Hk as [Hk | Hk]; [subst k; intuition discriminate |]). exact Hk.
      * apply mem_In in Hu. intros Hc. cbn in Hu, Hc.
        repeat (destruct Hu as [Hu | Hu]; [subst u; intuition discriminate |]). exact Hu.
  - intros (b & Hu & Hk). revert Hu Hk.
    destruct (mem u ["true"; "yes"; "correct"; "t"; "y"]),
             (mem k ["true"; "yes"; "correct"]),
             (mem u ["false"; "no"; "incorrect"; "f"; "n"]),
             (mem k ["false"; "no"; "incorrect"]), b; cbn; intros; congruence.
Qed.

Lemma tf_loop_none u correct_answers :
  (forall e, In e correct_answers -> ~ same_truth u (normalize (answer_text e))) ->
  tf_loop u correct_answers = None.
Proof.
  induction correct_answers as [| a l IH]; intros H; [reflexivity |]. cbn [tf_loop].
  destruct (tf_agree u (normalize (answer_text a))) eqn:E.
  - exfalso. apply (H a (or_introl eq_refl)). apply tf_agree_same_truth. exact E.
  - apply IH. intros e He. apply H. right. exact He.
Qed.

Lemma tf_loop_some u correct_answers :
  (exists e, In e correct_answers /\ same_truth u (normalize (answer_text e))) ->
  exists e, In e correct_answers /\ same_truth u (normalize (answer_text e)) /\
            tf_loop u correct_answers
            = Some (true, Int32.val (points_awarded e), "Correct! Well done.").
Proof.
  induction correct_answers as [| a l IH]; intros (e & He & Hn); [destruct He |].
  cbn [tf_loop]. destruct (tf_agree u (normalize (answer_text a))) eqn:E.
  - exists a. split; [left; reflexivity |]. split; [apply tf_agree_same_truth, E | reflexivity].
  - destruct He as [-> | He]; [apply tf_agree_same_truth in Hn; congruence |].
    destruct (IH (ex_intro _ e (conj He Hn))) as (e' & H1 & H2 & H3).
    exists e'. split; [right; exact H1 |]. split; assumption.
Qed.

(** C9 (as the code has it). The true/false grader trims and
    lower-cases both texts.  The submitted answer stands for true when it
    is one of [{true, yes, correct, t, y}] and for false when it is one
    of [{false, no, incorrect, f, n}]; a correct entry stands for true
    only when it is one of [{true, yes, correct}] and for false only when
    it is one of [{false, no, incorrect}].  The answer is correct, with
    the full points of such an entry, exactly when it stands for the same
    truth value as some correct entry; otherwise it is not correct, with
    0 points.  There is no partial credit.  A correct entry whose text
    is "t", "y", "f" or "n" after normalization matches no answer. *)
Theorem C9_true_false_agreement
  (user_answer : string) (correct_answers : list QuizAnswer) :
  let u := normalize user_answer in
  ((exists e, In e correct_answers /\ same_truth u (normalize (answer_text e))) ->
   exists e, In e correct_answers /\ same_truth u (normalize (answer_text e)) /\
             _grade_true_false user_answer correct_answers
             = Ok (true, Int32.val (points_awarded e), "Correct! Well done.")) /\
  ((forall e, In e correct_answers -> ~ same_truth u (normalize (answer_text e))) ->
   _grade_true_false user_answer correct_answers
   = Ok (false, 0,
         match correct_answers with
         | first :: _ => "Incorrect. The correct answer was: " +:+ answer_text first
         | [] => "Incorrect answer."
         end)) /\
  ((exists p fb, _grade_true_false user_answer correct_answers = Ok (true, p, fb))
   <-> exists e, In e correct_answers /\ same_truth u (normalize (answer_text e))) /\
  (forall c p fb,
     _grade_true_false user_answer correct_answers = Ok (c, p, fb) ->
     (c = true /\ exists e, In e correct_answers /\ p = Int32.val (points_awarded e)) \/
     (c = false /\ p = 0)) /\
  (forall e, In (normalize (answer_text e)) ["t"; "y"; "f"; "n"] ->
             ~ same_truth u (normalize (answer_text e))).
Proof.
  intros u.
  assert (A : (exists e, In e correct_answers /\ same_truth u (normalize (answer_text e))) ->
              exists e, In e correct_answers /\ same_truth u (normalize (answer_text e)) /\
                        _grade_true_false user_answer correct_answers
                        = Ok (true, Int32.val (points_awarded e), "Correct! Well done.")).
  { intros H. destruct (tf_loop_some u correct_answers H) as (e & H1 & H2 & H3).
    exists e. split; [exact H1 |]. split; [exact H2 |].
    unfold _grade_true_false. fold u. rewrite H3. reflexivity. }
  assert (B : (forall e, In e correct_answers -> ~ same_truth u (normalize (answer_text e))) ->
              _grade_true_false user_answer correct_answers
              = Ok (false, 0,
                    match correct_answers with
                    | first :: _ => "Incorrect. The correct answer was: " +:+ answer_text first
                    | [] => "Incorrect answer."
                    end)).
  { intros H. unfold _grade_true_false. fold u. rewrite (tf_loop_none u correct_answers H).
    reflexivity. }
  assert (D : (exists e, In e correct_answers /\ same_truth u (normalize (answer_text e))) \/
              (forall e, In e correct_answers -> ~ same_truth u (normalize (answer_text e)))).
  { clear A B. induction correct_answers as [| a l IH]; [right; intros e [] |].
    destruct (tf_agree u (normalize (answer_text a))) eqn:E.
    - left. exists a. split; [left; reflexivity | apply tf_agree_same_truth, E].
    - destruct IH as [(e & He & Hs) | Hn].
      + left. exists e. split; [right; exact He | exact Hs].
      + right. intros e [<- | He]; [| apply Hn, He].
        intros Hs. apply tf_agree_same_truth in Hs. congruence. }
  split; [exact A |]. split; [exact B |]. split; [| split].
  - split; [| intros H; destruct (A H) as (e & _ & _ & ->); eauto].
    intros (p & fb & E). destruct D as [H | H]; [exact H |].
    rewrite (B H) in E. discriminate.
  - intros c p fb E. destruct D as [H | H].
    + destruct (A H) as (e & He & _ & E'). rewrite E' in E. injection E as <- <- <-.
      left. split; [reflexivity | eauto].
    + rewrite (B H) in E. injection E as <- <- <-. right. split; reflexivity.
  - intros e He (b & _ & Hk). cbn in He.
    destruct He as [E | [E | [E | [E | []]]]]; rewrite <- E in Hk; discriminate Hk.
Qed.

(** C9, as stated, fails: the key text "t" is in the specification's set
    for true, as is the answer "true", yet the answer is graded as not
    correct. *)
Lemma C9_counterexample_short_key :
  spec_same_truth (normalize "true") (normalize "t") /\
  _grade_true_false "true" [key_entry 10%N "t" 10]
  = Ok (false, 0, "Incorrect. The correct answer was: t").
Proof.
  split; [exists true; split; reflexivity |]. vm_compute. reflexivity.
Qed.

(** ** The fill-in-the-blank grader *)

Lemma fge_ratio k n :
  0 < n -> 4 * n <= 5 * k -> Float.fge (Float.int_truediv k n) Float.f0_8 = true.
Proof.
  intros Hn H. unfold Float.fge, Float.f0_8, Float.literal, Float.int_truediv.
  apply Qle_bool_iff. apply FloatFacts.RN_le.
  assert (B : (0 < inject_Z n)%Q) by (change 0%Q with (inject_Z 0); rewrite <- Zlt_Qlt; lia).
  apply Qle_shift_div_l; [exact B |].
  unfold Qle, Qmult, inject_Z. cbn. lia.
Qed.

(** Third tier of the loop body: neither equal nor contained either way,
    and at least four fifths of the key's words occur in the answer. *)
Lemma fill_blank_step_overlap user_answer_lower correct_answer :
  let correct_text_lower := normalize (answer_text correct_answer) in
  user_answer_lower <> correct_text_lower ->
  contains correct_text_lower user_answer_lower = false ->
  contains user_answer_lower correct_text_lower = false ->
  (4 * Z.of_nat (size (words correct_text_lower))
   <= 5 * Z.of_nat (size (words correct_text_lower ∩ words user_answer_lower))) ->
  fill_blank_step user_answer_lower correct_answer
  = Ok (Some (true, partial_credit (points_awarded correct_answer) Float.f0_7,
              "Partially correct. Consider reviewing the exact terminology.")).
Proof.
  intros ctl Hne H1 H2 Hr. unfold fill_blank_step. fold ctl.
  destruct (String.eqb_spec user_answer_lower ctl) as [E | _]; [contradiction |].
  rewrite H1, H2. cbn [orb].
  pose proof (fill_blank_step_denominator user_answer_lower correct_answer H1) as Hd.
  fold ctl in Hd. rewrite truediv_ok by lia. cbn [res_bind].
  rewrite fge_ratio by lia. reflexivity.
Qed.

Lemma partial_credit_0_7_below_90 :
  forallb (fun n => partial_credit (Int32.of_Z (Z.of_nat n)) Float.f0_7
                    =? 7 * Z.of_nat n / 10) (seq 0 90) = true.
Proof. vm_compute. reflexivity. Qed.

(** C8. In the fill-blank loop, for an entry that the answer neither
    equals nor contains nor is contained in, the 70%-credit tier fires as
    soon as at least four fifths of the key's words occur in the answer,
    the ratio 0.8 included, with the "review terminology" feedback and
    [int(points_awarded * 0.7)] points.  In double precision that number
    is the floor of 0.7 times the entry's points for every entry worth
    fewer than 90 points, and the floor or one less in general: an entry
    worth 90 points awards 62 points, not 63. *)
Theorem C8_overlap_tier_awards_62_of_90 :
  (forall user_answer_lower correct_answer,
     let correct_text_lower := normalize (answer_text correct_answer) in
     user_answer_lower <> correct_text_lower ->
     contains correct_text_lower user_answer_lower = false ->
     contains user_answer_lower correct_text_lower = false ->
     (4 * Z.of_nat (size (words correct_text_lower))
      <= 5 * Z.of_nat (size (words correct_text_lower ∩ words user_answer_lower))) ->
     fill_blank_step user_answer_lower correct_answer
     = Ok (Some (true, partial_credit (points_awarded correct_answer) Float.f0_7,
                 "Partially correct. Consider reviewing the exact terminology."))) /\
  (forall p, 0 <= p < 90 -> partial_credit (Int32.of_Z p) Float.f0_7 = 7 * p / 10) /\
  (forall p : Int32.t,
     0 <= Int32.val p ->
     7 * Int32.val p / 10 - 1 <= partial_credit p Float.f0_7 <= 7 * Int32.val p / 10) /\
  (let correct_answer := key_entry 10%N "alpha beta gamma delta epsilon" 90 in
   let user_answer := "beta alpha gamma delta zzz" in
   blank user_answer = false /\
   normalize user_answer <> normalize (answer_text correct_answer) /\
   contains (normalize (answer_text correct_answer)) (normalize user_answer) = false /\
   contains (normalize user_answer) (normalize (answer_text correct_answer)) = false /\
   size (words (normalize (answer_text correct_answer))) = 5%nat /\
   size (words (normalize (answer_text correct_answer)) ∩ words (normalize user_answer)) = 4%nat /\
   _grade_fill_blank user_answer [correct_answer]
   = Ok (true, 62, "Partially correct. Consider reviewing the exact terminology.") /\
   7 * Int32.val (points_awarded correct_answer) / 10 = 63).
Proof.
  split; [exact fill_blank_step_overlap |]. split; [| split].
  - intros p Hp. pose proof partial_credit_0_7_below_90 as H.
    rewrite forallb_forall in H. specialize (H (Z.to_nat p)).
    rewrite Z2Nat.id in H by lia. apply Z.eqb_eq, H. apply in_seq. lia.
  - intros p Hp. pose proof (Int32_bounds p). unfold partial_credit.
    apply FloatFacts.fmul_0_7_near_floor. lia.
  - split; [reflexivity |]. split; [vm_compute; discriminate |].
    split; [reflexivity |]. split; [reflexivity |].
    split; [vm_compute; reflexivity |]. split; [vm_compute; reflexivity |].
    split; vm_compute; reflexivity.
Qed.

Lemma fill_blank_step_blank_key user_answer_lower correct_answer :
  user_answer_lower <> "" ->
  normalize (answer_text correct_answer) = "" ->
  fill_blank_step user_answer_lower correct_answer
  = Ok (Some (true, partial_credit (points_awarded correct_answer) Float.f0_8,
              "Close! The answer was slightly different than expected.")).
Proof.
  intros Hu Hk. unfold fill_blank_step. rewrite Hk.
  destruct (String.eqb_spec user_answer_lower "") as [E | _]; [contradiction |].
  rewrite contains_empty. reflexivity.
Qed.

Lemma fill_blank_loop_prefix u before rest :
  (forall b, In b before -> fill_blank_step u b = Ok None) ->
  fill_blank_loop u (before ++ rest) = fill_blank_loop u rest.
Proof.
  induction before as [| a l IH]; intros H; [reflexivity |].
  cbn [app fill_blank_loop]. rewrite (H a (or_introl eq_refl)). cbn [res_bind].
  apply IH. intros b Hb. apply H. right. exact Hb.
Qed.

Lemma fill_blank_step_correct u a g : fill_blank_step u a = Ok (Some g) -> fst (fst g) = true.
Proof.
  unfold fill_blank_step.
  destruct (String.eqb _ _); [intros E; injection E as <-; reflexivity |].
  destruct (_ || _); [intros E; injection E as <-; reflexivity |].
  destruct (truediv _ _); cbn [res_bind]; [| discriminate].
  destruct (Float.fge _ _); [intros E; injection E as <-; reflexivity | discriminate].
Qed.

Lemma fill_blank_loop_blank_key u correct_answers :
  u <> "" ->
  (exists e, In e correct_answers /\ normalize (answer_text e) = "") ->
  exists p fb, fill_blank_loop u correct_answers = Ok (Some (true, p, fb)).
Proof.
  intros Hu. induction correct_answers as [| a l IH]; intros (e & He & Hk); [destruct He |].
  cbn [fill_blank_loop].
  destruct (fill_blank_step_returns u a) as [[g |] E]; rewrite E; cbn [res_bind].
  - pose proof (fill_blank_step_correct u a g E) as Hc. destruct g as [[c p] fb].
    cbn in Hc. subst c. eauto.
  - destruct He as [-> | He].
    + rewrite (fill_blank_step_blank_key u e Hu Hk) in E. discriminate.
    + apply IH. eauto.
Qed.

(** C10 (as the code has it). For an answer that is not blank, an entry
    whose text strips to the empty string always fires the containment
    tier when the loop reaches it, that is when no earlier entry matched
    in any tier: the grader then returns [correct = true],
    [int(0.8 * points_awarded)] points (truncated toward zero, which is
    the floor of four fifths of [points_awarded] when
    [0 <= points_awarded]) and the "Close!" feedback.  Whatever the order
    of the entries, a key with such an entry makes every answer that is
    not blank correct.  The word-overlap division is reached only for an
    entry whose normalized text is not empty: its word set is not empty
    and the denominator is at least 1. *)
Theorem C10_blank_key_entry_fires_containment
  (user_answer : string) (before : list QuizAnswer) (e : QuizAnswer) (after : list QuizAnswer) :
  blank user_answer = false ->
  normalize (answer_text e) = "" ->
  (forall b, In b before -> fill_blank_step (normalize user_answer) b = Ok None) ->
  _grade_fill_blank user_answer (before ++ e :: after)
  = Ok (true, partial_credit (points_awarded e) Float.f0_8,
        "Close! The answer was slightly different than expected.") /\
  (0 <= Int32.val (points_awarded e) ->
   partial_credit (points_awarded e) Float.f0_8 = 4 * Int32.val (points_awarded e) / 5) /\
  (forall correct_answers,
     In e correct_answers ->
     exists p fb, _grade_fill_blank user_answer correct_answers = Ok (true, p, fb)) /\
  (forall user_answer_lower correct_answer,
     contains (normalize (answer_text correct_answer)) user_answer_lower = false ->
     normalize (answer_text correct_answer) <> "" /\
     (1 <= size (words (normalize (answer_text correct_answer))))%nat /\
     exists ratio,
       truediv (Z.of_nat (size (words (normalize (answer_text correct_answer))
                                ∩ words user_answer_lower)))
               (Z.of_nat (size (words (normalize (answer_text correct_answer)))))
       = Ok ratio).
Proof.
  intros Hb Hk Hbefore. pose proof (blank_false_normalize _ Hb) as Hu.
  split; [| split; [| split]].
  - unfold _grade_fill_blank. rewrite Hb.
    rewrite (fill_blank_loop_prefix _ before (e :: after) Hbefore). cbn [fill_blank_loop].
    rewrite (fill_blank_step_blank_key _ e Hu Hk). reflexivity.
  - intros Hp. pose proof (Int32_bounds (points_awarded e)).
    apply FloatFacts.fmul_0_8_floor. lia.
  - intros cas He. unfold _grade_fill_blank. rewrite Hb.
    destruct (fill_blank_loop_blank_key (normalize user_answer) cas Hu
                (ex_intro _ e (conj He Hk))) as (p & fb & ->).
    cbn [res_bind]. eauto.
  - intros ual ca Hc. pose proof (fill_blank_step_denominator ual ca Hc) as Hd.
    split; [intros E; rewrite E, contains_empty in Hc; discriminate |].
    split; [exact Hd |]. rewrite truediv_ok by lia. eauto.
Qed.

(** C10 at the key made of one blank entry worth 5 points: 4 points. *)
Lemma C10_witness_blank_key :
  _grade_fill_blank "x" [key_entry 10%N " " 5]
  = Ok (true, 4, "Close! The answer was slightly different than expected.").
Proof.
  exact (proj1 (C10_blank_key_entry_fires_containment "x" [] (key_entry 10%N " " 5) []
                  eq_refl eq_refl (fun b (H : In b []) => match H with end))).
Defined.

(** C10, as stated, fails: when an earlier entry matches, the loop
    returns before it reaches the blank entry; and for a negative
    [points_awarded] the truncation toward zero is not the floor. *)
Lemma C10_counterexample_earlier_entry_or_negative_points :
  (let blank_entry := key_entry 10%N " " 3 in
   let correct_answers := [key_entry 10%N "cat" 5; blank_entry] in
   blank "cat" = false /\
   In blank_entry correct_answers /\
   strip (answer_text blank_entry) = "" /\
   _grade_fill_blank "cat" correct_answers = Ok (true, 5, "Correct! Well done.") /\
   _grade_fill_blank "cat" correct_answers
   <> Ok (true, 4 * 3 / 5, "Close! The answer was slightly different than expected.")) /\
  (_grade_fill_blank "x" [key_entry 10%N "" (-1)]
   = Ok (true, 0, "Close! The answer was slightly different than expected.") /\
   4 * (-1) / 5 = -1).
Proof.
  split.
  - split; [reflexivity |]. split; [right; left; reflexivity |]. split; [reflexivity |].
    split; [vm_compute; reflexivity |]. vm_compute. discriminate.
  - split; [vm_compute; reflexivity | reflexivity].
Qed.

(** ** Further properties of the graders and of the feedback *)

(** X1. In the fill-blank grader, when the answer is not blank, differs
    from the first correct entry after normalization, and one of the two
    normalized texts contains the other, the answer is correct with
    [int(0.8 * points_awarded)] points, four fifths of the entry's points
    rounded down when they are not negative, and the "Close!" feedback.
    The key "photosynthesis" worth 5 points awards 4 points to the answer
    "photosynthesis process". *)
Theorem X1_fill_blank_containment_awards_four_fifths :
  (forall user_answer correct_answer rest,
     blank user_answer = false ->
     normalize user_answer <> normalize (answer_text correct_answer) ->
     contains (normalize (answer_text correct_answer)) (normalize user_answer)
     || contains (normalize user_answer) (normalize (answer_text correct_answer)) = true ->
     _grade_fill_blank user_answer (correct_answer :: rest)
     = Ok (true, partial_credit (points_awarded correct_answer) Float.f0_8,
           "Close! The answer was slightly different than expected.") /\
     (0 <= Int32.val (points_awarded correct_answer) ->
      partial_credit (points_awarded correct_answer) Float.f0_8
      = 4 * Int32.val (points_awarded correct_answer) / 5)) /\
  _grade_fill_blank "photosynthesis process" [key_entry 10%N "photosynthesis" 5]
  = Ok (true, 4, "Close! The answer was slightly different than expected.").
Proof.
  split; [| vm_compute; reflexivity].
  intros ua ca rest Hb Hne Hc. split.
  - unfold _grade_fill_blank. rewrite Hb. cbn [fill_blank_loop]. unfold fill_blank_step.
    destruct (String.eqb_spec (normalize ua) (normalize (answer_text ca))) as [E | _];
      [contradiction |].
    rewrite Hc. reflexivity.
  - intros Hp. pose proof (Int32_bounds (points_awarded ca)).
    apply FloatFacts.fmul_0_8_floor. lia.
Qed.

Lemma int_truediv_four_fifths found total :
  0 < total -> 5 * found = 4 * total -> Float.int_truediv found total = Float.f0_8.
Proof.
  intros Ht E. unfold Float.int_truediv, Float.f0_8, Float.literal.
  apply FloatFacts.RN_proper.
  assert (N : ~ inject_Z total == 0).
  { intros C. assert (0 < inject_Z total)%Q
      by (change 0%Q with (inject_Z 0); rewrite <- Zlt_Qlt; exact Ht).
    rewrite C in H. discriminate. }
  assert (Q5 : (5 * inject_Z found == 4 * inject_Z total)%Q).
  { change 5%Q with (inject_Z 5). change 4%Q with (inject_Z 4).
    rewrite <- !inject_Z_mult, E. reflexivity. }
  assert (F : (inject_Z found == (8 # 10) * inject_Z total)%Q) by lra.
  rewrite F. field. exact N.
Qed.

(** X2. The essay grader on an answer of 50 characters or more that is
    not blank and in which four fifths of the key terms occur, 8 of 10
    say: the match ratio is the double 0.8, the feedback is the "strong
    coverage" one and the points are [int(p0 * 0.8)] for the first
    entry's [p0], which is [4 * p0 / 5] rounded down when [p0] is not
    negative. *)
Theorem X2_essay_eight_of_ten_key_terms
  (user_answer : string) (first : QuizAnswer) (rest : list QuizAnswer) :
  blank user_answer = false ->
  (50 <= String.length user_answer)%nat ->
  let found := fst (essay_terms user_answer (first :: rest)) in
  let total := snd (essay_terms user_answer (first :: rest)) in
  0 < total ->
  5 * found = 4 * total ->
  Float.int_truediv found total = Float.f0_8 /\
  _grade_essay user_answer (first :: rest)
  = Ok (true, partial_credit (points_awarded first) Float.f0_8,
        "Strong response with good coverage of key concepts.") /\
  (0 <= Int32.val (points_awarded first) ->
   partial_credit (points_awarded first) Float.f0_8
   = 4 * Int32.val (points_awarded first) / 5).
Proof.
  intros Hb Hlen found total Ht E.
  pose proof (int_truediv_four_fifths found total Ht E) as R.
  split; [exact R |]. split.
  - unfold _grade_essay. rewrite Hb.
    destruct (Nat.ltb_spec (String.length user_answer) 50) as [C | _]; [lia |].
    unfold found, total in *. clear found total.
    destruct (essay_terms user_answer (first :: rest)) as [found total]. cbn [fst snd] in *.
    replace (0 <? total) with true by (symmetry; apply Z.ltb_lt; exact Ht).
    rewrite truediv_ok by lia. cbn [res_bind]. rewrite R. reflexivity.
  - intros Hp. pose proof (Int32_bounds (points_awarded first)).
    apply FloatFacts.fmul_0_8_floor. lia.
Qed.

(** X2 at a key of ten terms worth 10 points and an answer of 90
    characters in which eight of them occur: 8 points. *)
Lemma X2_witness_leaves :
  let key := "chlorophyll sunlight water carbon dioxide glucose oxygen stomata leaves roots" in
  let user_answer :=
    "In leaves, chlorophyll uses sunlight, water and carbon dioxide to make glucose and oxygen." in
  essay_terms user_answer [key_entry 10%N key 10] = (8, 10) /\
  _grade_essay user_answer [key_entry 10%N key 10]
  = Ok (true, 8, "Strong response with good coverage of key concepts.").
Proof.
  intros key user_answer. split; [vm_compute; reflexivity |].
  exact (proj1 (proj2 (X2_essay_eight_of_ten_key_terms user_answer (key_entry 10%N key 10) []
                         ltac:(vm_compute; reflexivity) ltac:(vm_compute; lia)
                         ltac:(vm_compute; reflexivity) ltac:(vm_compute; reflexivity)))).
Defined.

(** X3. The narrative feedback and the confidence level use the same
    comparison, [>=], on the unrounded score: "high" and the "Excellent"
    narrative from 90 on, "medium" from 70 to below 90, "low" below 70;
    the narrative bands start at 90, 80, 70 and 60, each lower bound
    included. *)
Theorem X3_score_bands_include_their_lower_bound (results : list QuestionResult) (s : Q) :
  (_calculate_confidence_level s = "high" <-> (90 <= s)%Q) /\
  (_calculate_confidence_level s = "medium" <-> (70 <= s)%Q /\ (s < 90)%Q) /\
  (_calculate_confidence_level s = "low" <-> (s < 70)%Q) /\
  (_generate_overall_feedback results s
   = "Excellent work! You demonstrated strong understanding of the material."
   <-> (90 <= s)%Q) /\
  (_generate_overall_feedback results s
   = "Great job! You have a good grasp of the concepts with room for minor improvements."
   <-> (80 <= s)%Q /\ (s < 90)%Q) /\
  (_generate_overall_feedback results s
   = "Good effort! You understand the main concepts but should review some areas."
   <-> (70 <= s)%Q /\ (s < 80)%Q) /\
  (_generate_overall_feedback results s
   = "Fair performance. Focus on reviewing the areas where you had difficulties."
   <-> (60 <= s)%Q /\ (s < 70)%Q) /\
  (_generate_overall_feedback results s
   = "More practice needed. Review the material and try again."
   <-> (s < 60)%Q).
Proof.
  unfold _calculate_confidence_level, _generate_overall_feedback, Float.fge.
  destruct (Qle_bool 90 s) eqn:E90; [apply Qle_bool_iff in E90 |];
  destruct (Qle_bool 80 s) eqn:E80; [apply Qle_bool_iff in E80 | | apply Qle_bool_iff in E80 |];
  destruct (Qle_bool 70 s) eqn:E70; try apply Qle_bool_iff in E70;
  destruct (Qle_bool 60 s) eqn:E60; try apply Qle_bool_iff in E60;
  repeat match goal with
         | H : Qle_bool ?a ?b = false |- _ =>
             assert (b < a)%Q
               by (apply Qnot_le_lt; intros Hc; apply Qle_bool_iff in Hc; congruence);
             clear H
         end;
  repeat split; intros; try discriminate; try lra; try reflexivity.
Qed.

Lemma text_comparison_loop_none u correct_answers :
  (forall e, In e correct_answers ->
             normalize (answer_text e) <> u /\
             contains (normalize (answer_text e)) u = false /\
             contains u (normalize (answer_text e)) = false) ->
  text_comparison_loop u correct_answers = None.
Proof.
  induction correct_answers as [| a l IH]; intros H; [reflexivity |]. cbn [text_comparison_loop].
  destruct (H a (or_introl eq_refl)) as (H1 & H2 & H3).
  destruct (String.eqb_spec u (normalize (answer_text a))) as [E | _]; [congruence |].
  rewrite H2, H3. cbn [orb]. apply IH. intros e He. apply H. right. exact He.
Qed.

(** X4. The text-comparison grader, the dispatcher's last branch: with a
    non-blank answer and a non-empty key, an answer equal to the first
    correct entry after normalization gets the entry's full points; one
    that contains it or is contained in it gets [int(0.8 * points)]
    points; an answer that no entry equals, contains or is contained in
    is not correct, with 0 points and feedback naming the first entry.
    The dispatcher never takes this branch for the four question types. *)
Theorem X4_text_comparison_tiers (user_answer : string) (first : QuizAnswer)
  (rest : list QuizAnswer) :
  let u := normalize user_answer in
  let k := normalize (answer_text first) in
  (blank user_answer = false -> u = k ->
   _grade_text_comparison user_answer (first :: rest)
   = Ok (true, Int32.val (points_awarded first), "Correct! Well done.")) /\
  (blank user_answer = false -> u <> k -> contains k u || contains u k = true ->
   _grade_text_comparison user_answer (first :: rest)
   = Ok (true, partial_credit (points_awarded first) Float.f0_8, "Partially correct.")) /\
  (blank user_answer = false ->
   (forall e, In e (first :: rest) ->
              normalize (answer_text e) <> u /\
              contains (normalize (answer_text e)) u = false /\
              contains u (normalize (answer_text e)) = false) ->
   _grade_text_comparison user_answer (first :: rest)
   = Ok (false, 0, "Incorrect. Expected: " +:+ answer_text first)) /\
  (forall question correct_answers,
     _grade_single_answer question user_answer correct_answers
     = match question_type question with
       | MCQ => _grade_mcq user_answer correct_answers
       | TF => _grade_true_false user_answer correct_answers
       | FILL_BLANK => _grade_fill_blank user_answer correct_answers
       | ESSAY => _grade_essay user_answer correct_answers
       end).
Proof.
  intros u k. split; [| split; [| split]].
  - intros Hb E. unfold _grade_text_comparison. rewrite Hb. cbn [orb text_comparison_loop].
    fold u k. rewrite E, String.eqb_refl. reflexivity.
  - intros Hb Hne Hc. unfold _grade_text_comparison. rewrite Hb.
    cbn [orb text_comparison_loop]. fold u k.
    destruct (String.eqb_spec u k) as [E | _]; [contradiction |]. rewrite Hc. reflexivity.
  - intros Hb H. unfold _grade_text_comparison. rewrite Hb. cbn [orb]. fold u.
    rewrite (text_comparison_loop_none u (first :: rest) H). reflexivity.
  - intros question cas. unfold _grade_single_answer, grade_by_tag.
    destruct (question_type question); reflexivity.
Qed.

(** * Further properties *)

(** ** Thresholds on doubles, as conditions on integers *)

Module FloatBands.
Import Float FloatFacts.
Local Open Scope Q_scope.

Lemma fge_true x y : fge x y = true <-> y <= x.
Proof. unfold fge. apply Qle_bool_iff. Qed.

Lemma fge_false x y : fge x y = false <-> x < y.
Proof.
  unfold fge. split; intros H.
  - apply Qnot_le_lt. intro Hle. apply Qle_bool_iff in Hle. congruence.
  - destruct (Qle_bool y x) eqn:E; [|reflexivity]. apply Qle_bool_iff in E. exfalso. lra.
Qed.

(** [k / n >= 0.8] on doubles is [4 * n <= 5 * k] on integers. *)
Lemma fge_ratio_iff k n :
  (0 < n <= 2 ^ 53)%Z -> fge (int_truediv k n) f0_8 = true <-> (4 * n <= 5 * k)%Z.
Proof.
  intros Hn. split; [|apply fge_ratio; lia].
  intros H. destruct (Z_le_gt_dec (4 * n) (5 * k)) as [Hle | Hgt]; [exact Hle | exfalso].
  apply fge_true in H.
  assert (N : 0 < inject_Z n) by (change 0 with (inject_Z 0); rewrite <- Zlt_Qlt; lia).
  assert (N' : inject_Z n <= 9007199254740992).
  { change 9007199254740992 with (inject_Z (2 ^ 53)). rewrite <- Zle_Qle. lia. }
  assert (K : 5 * inject_Z k <= 4 * inject_Z n - 1).
  { assert (K : inject_Z (5 * k) <= inject_Z (4 * n + - (1))) by (rewrite <- Zle_Qle; lia).
    rewrite inject_Z_plus, !inject_Z_mult in K. exact K. }
  set (q0 := (4 # 5) - (1 # 45035996273704960)).
  assert (L : int_truediv k n <= RN q0).
  { unfold int_truediv. apply RN_le. apply Qle_shift_div_r; [exact N|]. unfold q0. lra. }
  assert (C : RN q0 < f0_8) by (vm_compute; reflexivity).
  lra.
Qed.

(** [k / n >= 0.5] on doubles is [n <= 2 * k] on integers. *)
Lemma fge_half_iff k n :
  (0 < n <= 2 ^ 53)%Z -> fge (int_truediv k n) f0_5 = true <-> (n <= 2 * k)%Z.
Proof.
  intros Hn.
  assert (N : 0 < inject_Z n) by (change 0 with (inject_Z 0); rewrite <- Zlt_Qlt; lia).
  assert (N' : inject_Z n <= 9007199254740992).
  { change 9007199254740992 with (inject_Z (2 ^ 53)). rewrite <- Zle_Qle. lia. }
  assert (V : f0_5 = 1 # 2) by (vm_compute; reflexivity).
  split.
  - intros H. destruct (Z_le_gt_dec n (2 * k)) as [Hle | Hgt]; [exact Hle | exfalso].
    apply fge_true in H.
    assert (K : 2 * inject_Z k <= inject_Z n - 1).
    { assert (K : inject_Z (2 * k) <= inject_Z (n + - (1))) by (rewrite <- Zle_Qle; lia).
      rewrite inject_Z_plus, !inject_Z_mult in K. exact K. }
    set (q0 := (1 # 2) - (1 # 18014398509481984)).
    assert (L : int_truediv k n <= RN q0).
    { unfold int_truediv. apply RN_le. apply Qle_shift_div_r; [exact N|]. unfold q0. lra. }
    assert (C : RN q0 < f0_5) by (vm_compute; reflexivity).
    lra.
  - intros H. apply fge_true. rewrite V.
    assert (K : inject_Z n <= 2 * inject_Z k).
    { change 2 with (inject_Z 2). rewrite <- !inject_Z_mult, <- Zle_Qle. lia. }
    apply Qle_trans with (RN (1 # 2)); [vm_compute; discriminate|].
    unfold int_truediv. apply RN_le. apply Qle_shift_div_l; [exact N|]. lra.
Qed.

(** The score [earned / possible * 100] reaches one of the thresholds
    60, 70, 80, 90 exactly when the points do. *)
Lemma percentage_band (t earned possible : Z) :
  In t [60; 70; 80; 90]%Z -> (0 < possible <= 2 ^ 46)%Z ->
  fge (percentage earned possible) (inject_Z t) = true <-> (t * possible <= 100 * earned)%Z.
Proof.
  intros Ht Hp.
  assert (P : 0 < inject_Z possible) by (change 0 with (inject_Z 0); rewrite <- Zlt_Qlt; lia).
  assert (P' : inject_Z possible <= 70368744177664).
  { change 70368744177664 with (inject_Z (2 ^ 46)). rewrite <- Zle_Qle. lia. }
  unfold percentage. replace (0 <? possible)%Z with true by (symmetry; apply Z.ltb_lt; lia).
  rewrite fge_true. unfold fmul, int_truediv.
  assert (E : float_of_int 100 = 100) by (vm_compute; reflexivity). rewrite E.
  split.
  - intros H. destruct (Z_le_gt_dec (t * possible) (100 * earned)) as [Hle | Hgt]; [exact Hle | exfalso].
    assert (K : 100 * inject_Z earned <= inject_Z t * inject_Z possible - 1).
    { assert (K : inject_Z (100 * earned) <= inject_Z (t * possible + - (1)))
        by (rewrite <- Zle_Qle; lia).
      rewrite inject_Z_plus, !inject_Z_mult in K. exact K. }
    set (q0 := inject_Z t / 100 - (1 # 7036874417766400)).
    assert (L : RN (RN (inject_Z earned / inject_Z possible) * 100) <= RN (RN q0 * 100)).
    { apply RN_le. apply Qmult_le_compat_r; [|discriminate]. apply RN_le.
      apply Qle_shift_div_r; [exact P|]. unfold q0.
      assert (T : 0 <= inject_Z t).
      { cbn in Ht. destruct Ht as [<- | [<- | [<- | [<- | []]]]]; discriminate. }
      setoid_replace ((inject_Z t / 100 - (1 # 7036874417766400)) * inject_Z possible)
        with (inject_Z t * inject_Z possible * (1 # 100) - inject_Z possible * (1 # 7036874417766400))
        using relation Qeq by field.
      clear H. set (tp := inject_Z t * inject_Z possible) in *. lra. }
    assert (C : RN (RN q0 * 100) < inject_Z t).
    { unfold q0. cbn in Ht. destruct Ht as [<- | [<- | [<- | [<- | []]]]]; vm_compute; reflexivity. }
    lra.
  - intros H.
    assert (K : inject_Z t * inject_Z possible <= 100 * inject_Z earned).
    { change 100 with (inject_Z 100). rewrite <- !inject_Z_mult, <- Zle_Qle. lia. }
    apply Qle_trans with (RN (RN (inject_Z t / 100) * 100)).
    + cbn in Ht. destruct Ht as [<- | [<- | [<- | [<- | []]]]]; vm_compute; discriminate.
    + apply RN_le. apply Qmult_le_compat_r; [|discriminate]. apply RN_le.
      apply Qle_shift_div_l; [exact P|].
      setoid_replace (inject_Z t / 100 * inject_Z possible)
        with (inject_Z t * inject_Z possible * (1 # 100)) using relation Qeq by field.
      set (tp := inject_Z t * inject_Z possible) in *. lra.
Qed.

Lemma fgt_true x y : fgt x y = true <-> y < x.
Proof.
  unfold fgt. rewrite negb_true_iff. split; intros H.
  - apply Qnot_le_lt. intro Hle. apply Qle_bool_iff in Hle. congruence.
  - destruct (Qle_bool x y) eqn:E; [|reflexivity]. apply Qle_bool_iff in E. exfalso. lra.
Qed.

Lemma fgt_false x y : fgt x y = false <-> x <= y.
Proof.
  unfold fgt. rewrite negb_false_iff. apply Qle_bool_iff.
Qed.

(** [n * 0.5] is exact. *)
Lemma fmul_half n : (Z.abs n < 2 ^ 53)%Z -> fmul (float_of_int n) f0_5 == inject_Z n * (1 # 2).
Proof.
  intros Hn. pose proof (float_of_int_exact n Hn) as E.
  assert (V : f0_5 = 1 # 2) by (vm_compute; reflexivity).
  unfold fmul. rewrite (RN_proper _ (inject_Z n * (1 # 2))) by (rewrite E, V; reflexivity).
  apply (RN_exact _ n (-1)); [exact Hn | unfold emin; lia | reflexivity].
Qed.

(** [k > n * 0.5] on doubles is [n < 2 * k] on integers. *)
Lemma fgt_half_iff k n :
  (Z.abs n < 2 ^ 53)%Z ->
  fgt (inject_Z k) (fmul (float_of_int n) f0_5) = true <-> (n < 2 * k)%Z.
Proof.
  intros Hn. rewrite fgt_true, (fmul_half n Hn). split; intros H.
  - assert (K : inject_Z n < inject_Z (2 * k)) by (rewrite inject_Z_mult; change (inject_Z 2) with 2; lra).
    rewrite <- Zlt_Qlt in K. exact K.
  - assert (K : inject_Z n < inject_Z (2 * k)) by (rewrite <- Zlt_Qlt; exact H).
    rewrite inject_Z_mult in K. change (inject_Z 2) with 2 in K. lra.
Qed.

Lemma rhe_near (M : Z) (s : Q) :
  inject_Z M - (1 # 2) < s -> s <= inject_Z M -> round_half_even s = M.
Proof.
  intros H1 H2.
  pose proof (Qfloor_le s) as F1. pose proof (Qlt_floor s) as F2.
  assert (A : (Qfloor s <= M)%Z) by (rewrite <- (Qfloor_Z M); apply Qfloor_resp_le, H2).
  assert (B : (M - 1 <= Qfloor s)%Z).
  { rewrite <- (Qfloor_Z (M - 1)). apply Qfloor_resp_le.
    replace (M - 1)%Z with (M + (-1))%Z by lia. rewrite inject_Z_plus.
    change (inject_Z (-1)) with (-1). lra. }
  assert (U : (round_half_even s <= M)%Z) by (rewrite <- (rhe_Z M); apply rhe_le, H2).
  destruct (Z.eq_dec (Qfloor s) M) as [E | NE].
  - pose proof (rhe_bounds s). lia.
  - assert (E : Qfloor s = (M - 1)%Z) by lia.
    assert (I : inject_Z (Qfloor s) == inject_Z M - 1).
    { rewrite E. replace (M - 1)%Z with (M + (-1))%Z by lia. rewrite inject_Z_plus.
      reflexivity. }
    destruct (rhe_cases s) as [[C _] | [[C _] | [_ C]]].
    + exfalso. lra.
    + exfalso. lra.
    + lia.
Qed.

(** A rational within less than half a unit in the last place below the
    integer [K] rounds to [K]. *)
Lemma RN_to_int (K : Z) (y : Q) :
  (1 <= K < 2 ^ 53)%Z ->
  pow2 (Z.log2 K) <= y -> inject_Z K - pow2 (Z.log2 K - 53) < y -> y <= inject_Z K ->
  RN y == inject_Z K.
Proof.
  intros HK Y1 Y2 Y3. set (e := Z.log2 K) in *.
  destruct (Z.log2_spec K ltac:(lia)) as [L1 L2]. fold e in L1, L2.
  assert (He0 : (0 <= e)%Z) by apply Z.log2_nonneg.
  assert (He : (e < 53)%Z).
  { destruct (Z_lt_ge_dec e 53) as [H | H]; [exact H | exfalso].
    assert (2 ^ 53 <= 2 ^ e)%Z by (apply Z.pow_le_mono_r; lia). lia. }
  pose proof (pow2_pos e) as Pe.
  assert (Ypos : 0 < y) by lra.
  assert (Elog : ilog2 y = e).
  { apply ilog2_unique; [exact Y1|]. rewrite pow2_Z by lia.
    eapply Qle_lt_trans; [exact Y3|]. rewrite <- Zlt_Qlt. replace (e + 1)%Z with (Z.succ e) by lia. exact L2. }
  rewrite (RN_pos y Ypos). unfold RNpos, fexp. rewrite Elog.
  replace (Z.max (e - (prec - 1)) emin) with (e - 52)%Z by (unfold prec, emin; lia).
  pose proof (pow2_pos (e - 52)) as Pf.
  assert (Hf : ~ pow2 (e - 52) == 0) by lra.
  assert (Hs : pow2 (e - 53) == pow2 (e - 52) * (1 # 2)).
  { replace (e - 53)%Z with ((e - 52) + -1)%Z by lia. rewrite pow2_add. reflexivity. }
  assert (HM : inject_Z (K * 2 ^ (52 - e)) == inject_Z K / pow2 (e - 52)).
  { rewrite inject_Z_mult, <- pow2_Z by lia.
    replace (52 - e)%Z with (0 - (e - 52))%Z by lia. rewrite pow2_sub.
    change (pow2 0) with 1. field. exact Hf. }
  rewrite (rhe_near (K * 2 ^ (52 - e))).
  - rewrite HM. field. exact Hf.
  - rewrite HM. apply Qlt_shift_div_l; [exact Pf|].
    setoid_replace ((inject_Z K / pow2 (e - 52) - (1 # 2)) * pow2 (e - 52))
      with (inject_Z K - pow2 (e - 52) * (1 # 2)) using relation Qeq by (field; exact Hf).
    rewrite <- Hs. exact Y2.
  - rewrite HM. apply Qle_shift_div_l; [exact Pf|].
    setoid_replace (y / pow2 (e - 52) * pow2 (e - 52)) with y using relation Qeq
      by (field; exact Hf).
    exact Y3.
Qed.

Lemma pow2_mod_3 (e : nat) : (2 ^ Z.of_nat e mod 3 = 1 \/ 2 ^ Z.of_nat e mod 3 = 2)%Z.
Proof.
  induction e as [| e IH].
  - left. reflexivity.
  - rewrite Nat2Z.inj_succ, Z.pow_succ_r by lia. rewrite Z.mul_mod by lia.
    destruct IH as [-> | ->]; [right | left]; reflexivity.
Qed.

(** [n * 0.3] for [n = 10 * m] rounds to [3 * m]. *)
Lemma fmul_three_tenths_exact m :
  (1 <= m < 2 ^ 28)%Z -> fmul (float_of_int (10 * m)) f0_3 == inject_Z (3 * m).
Proof.
  intros Hm. pose proof (float_of_int_exact (10 * m) ltac:(lia)) as E.
  assert (V : f0_3 = 5404319552844595 # 18014398509481984) by (vm_compute; reflexivity).
  unfold fmul.
  rewrite (RN_proper _ (inject_Z (3 * m) - inject_Z m * (1 # 9007199254740992))).
  2:{ rewrite E, V, !inject_Z_mult. change (inject_Z 10) with 10. change (inject_Z 3) with 3.
      field. }
  set (K := (3 * m)%Z). set (e := Z.log2 K).
  destruct (Z.log2_spec K ltac:(lia)) as [L1 L2]. fold e in L1, L2.
  assert (He0 : (0 <= e)%Z) by apply Z.log2_nonneg.
  assert (Hne : (2 ^ e <> K)%Z).
  { intro Hc. pose proof (pow2_mod_3 (Z.to_nat e)) as P3. rewrite Z2Nat.id in P3 by lia.
    rewrite Hc in P3. unfold K in P3. rewrite Z.mul_comm, Z.mod_mul in P3 by lia.
    destruct P3; discriminate. }
  assert (Q1 : inject_Z (2 ^ e) + 1 <= inject_Z K).
  { change 1 with (inject_Z 1). rewrite <- inject_Z_plus, <- Zle_Qle. lia. }
  assert (Q2 : inject_Z K < 2 * inject_Z (2 ^ e)).
  { change 2 with (inject_Z 2). rewrite <- inject_Z_mult, <- Zlt_Qlt.
    replace (Z.succ e) with (e + 1)%Z in L2 by lia. rewrite Z.pow_add_r in L2 by lia. lia. }
  assert (Q3 : inject_Z K == 3 * inject_Z m) by (unfold K; rewrite inject_Z_mult; reflexivity).
  assert (Q4 : 1 <= inject_Z m) by (change 1 with (inject_Z 1); rewrite <- Zle_Qle; lia).
  assert (Q5 : inject_Z m <= 268435456).
  { change 268435456 with (inject_Z (2 ^ 28)). rewrite <- Zle_Qle. lia. }
  assert (Hs : pow2 (e - 53) == inject_Z (2 ^ e) * (1 # 9007199254740992)).
  { rewrite pow2_sub, pow2_Z by lia. rewrite (pow2_Z 53) by lia.
    change (inject_Z (2 ^ 53)) with 9007199254740992. field. }
  apply RN_to_int.
  - unfold K. lia.
  - fold e. rewrite pow2_Z by lia. lra.
  - fold e. rewrite Hs. lra.
  - lra.
Qed.

(** [k > n * 0.3] on doubles is [3 * n < 10 * k] on integers. *)
Lemma fgt_three_tenths_iff k n :
  (0 <= k <= n)%Z -> (n < 2 ^ 31)%Z ->
  fgt (inject_Z k) (fmul (float_of_int n) f0_3) = true <-> (3 * n < 10 * k)%Z.
Proof.
  intros Hk Hn. pose proof (float_of_int_exact n ltac:(lia)) as E.
  assert (V : f0_3 = 5404319552844595 # 18014398509481984) by (vm_compute; reflexivity).
  assert (N0 : 0 <= inject_Z n) by (apply inject_Z_nonneg; lia).
  assert (N1 : inject_Z n <= 2147483648).
  { change 2147483648 with (inject_Z (2 ^ 31)). rewrite <- Zle_Qle. lia. }
  assert (X : fmul (float_of_int n) f0_3 = RN (inject_Z n * f0_3)).
  { unfold fmul. apply RN_proper. rewrite E. reflexivity. }
  split.
  - intros H. apply fgt_true in H.
    destruct (Z_lt_ge_dec (3 * n) (10 * k))%Z as [Hlt | Hge]; [exact Hlt | exfalso].
    destruct (Z.eq_dec (3 * n) (10 * k))%Z as [Heq | Hneq].
    + (* exactly three tenths *)
      destruct (Z.eq_dec k 0%Z) as [Hk0 | Hk0].
      * assert (n = 0%Z) by lia. subst n k. vm_compute in H. discriminate.
      * assert (Hm : exists m, n = (10 * m)%Z /\ k = (3 * m)%Z).
        { exists (n / 10)%Z. pose proof (Z.div_mod n 10 ltac:(lia)) as D.
          pose proof (Z.mod_pos_bound n 10 ltac:(lia)) as B.
          assert ((3 * (n mod 10)) mod 10 = 0)%Z.
          { replace (3 * (n mod 10))%Z with (10 * (k - 3 * (n / 10)))%Z by lia.
            rewrite Z.mul_comm. apply Z.mod_mul. lia. }
          assert (n mod 10 = 0)%Z.
          { destruct (Z.eq_dec (n mod 10) 0)%Z as [Z0 | NZ]; [exact Z0 | exfalso].
            assert (C : (n mod 10 = 1 \/ n mod 10 = 2 \/ n mod 10 = 3 \/ n mod 10 = 4 \/
                         n mod 10 = 5 \/ n mod 10 = 6 \/ n mod 10 = 7 \/ n mod 10 = 8 \/
                         n mod 10 = 9)%Z) by lia.
            destruct C as [C | [C | [C | [C | [C | [C | [C | [C | C]]]]]]]];
              rewrite C in H0; discriminate. }
          lia. }
        destruct Hm as [m [-> ->]].
        rewrite (fmul_three_tenths_exact m) in H by lia. lra.
    + assert (K : inject_Z (10 * k) <= inject_Z (3 * n + - (1))) by (rewrite <- Zle_Qle; lia).
      rewrite inject_Z_plus, !inject_Z_mult in K.
      change (inject_Z 10) with 10 in K. change (inject_Z 3) with 3 in K.
      change (inject_Z (- (1))) with (-1) in K.
      assert (L : inject_Z k <= RN (inject_Z n * f0_3)).
      { rewrite <- (RN_exact_Z k) by (unfold prec; lia). apply RN_le. rewrite V. lra. }
      rewrite X in H. lra.
  - intros H. apply fgt_true. rewrite X.
    assert (K : inject_Z (3 * n + 1) <= inject_Z (10 * k)) by (rewrite <- Zle_Qle; lia).
    rewrite inject_Z_plus, !inject_Z_mult in K.
    change (inject_Z 10) with 10 in K. change (inject_Z 3) with 3 in K.
    change (inject_Z 1) with 1 in K.
    apply Qle_lt_trans with (inject_Z k - (1 # 16)); [|lra].
    rewrite <- (RN_exact (inject_Z k - (1 # 16)) (16 * k - 1) (-4)).
    + apply RN_le. rewrite V. lra.
    + unfold prec. lia.
    + unfold emin. lia.
    + replace (16 * k - 1)%Z with (16 * k + (-1))%Z by lia.
      rewrite inject_Z_plus, inject_Z_mult. unfold pow2. simpl. field.
Qed.

End FloatBands.

(** ** Rounding errors *)

Module FloatError.
Import Float FloatFacts.
Local Open Scope Q_scope.

(** A non-negative rational below [2^(53-s)] is rounded to one of the two
    neighbouring multiples of [2^-s]. *)
Lemma RN_within (x : Q) (s : Z) :
  0 <= x -> x * pow2 s < inject_Z (2 ^ 53 - 1) -> (emin <= - s)%Z ->
  x - pow2 (- s) <= RN x /\ RN x <= x + pow2 (- s).
Proof.
  intros Hx Hs He. pose proof (pow2_pos s) as Ps. pose proof (pow2_pos (- s)) as Pn.
  assert (Hinv : pow2 s * pow2 (- s) == 1).
  { rewrite <- pow2_add. replace (s + - s)%Z with 0%Z by lia. reflexivity. }
  set (a := Qfloor (x * pow2 s)).
  pose proof (Qfloor_le (x * pow2 s)) as F1. pose proof (Qlt_floor (x * pow2 s)) as F2.
  fold a in F1, F2. rewrite inject_Z_plus in F2. change (inject_Z 1) with 1 in F2.
  assert (Ha0 : (0 <= a)%Z).
  { unfold a. rewrite <- (Qfloor_Z 0). apply Qfloor_resp_le.
    apply Qmult_le_0_compat; [exact Hx | apply Qlt_le_weak, Ps]. }
  assert (Ha1 : (a + 1 < 2 ^ 53)%Z).
  { assert (inject_Z a < inject_Z (2 ^ 53 - 1)) by (eapply Qle_lt_trans; eassumption).
    rewrite <- Zlt_Qlt in H. lia. }
  assert (Ex : x == x * pow2 s * pow2 (- s)).
  { rewrite <- Qmult_assoc, Hinv. ring. }
  assert (Lo : inject_Z a * pow2 (- s) <= x).
  { apply Qle_trans with (x * pow2 s * pow2 (- s)); [| rewrite <- Ex; apply Qle_refl].
    apply Qmult_le_compat_r; [exact F1 | apply Qlt_le_weak, Pn]. }
  assert (Hi : x <= inject_Z (a + 1) * pow2 (- s)).
  { apply Qle_trans with (x * pow2 s * pow2 (- s)); [rewrite <- Ex; apply Qle_refl |].
    apply Qmult_le_compat_r; [| apply Qlt_le_weak, Pn].
    rewrite inject_Z_plus. change (inject_Z 1) with 1. apply Qlt_le_weak, F2. }
  assert (RLo : RN (inject_Z a * pow2 (- s)) == inject_Z a * pow2 (- s)).
  { apply (RN_exact _ a (- s)); [unfold prec; lia | exact He | reflexivity]. }
  assert (RHi : RN (inject_Z (a + 1) * pow2 (- s)) == inject_Z (a + 1) * pow2 (- s)).
  { apply (RN_exact _ (a + 1) (- s)); [unfold prec; lia | exact He | reflexivity]. }
  pose proof (RN_le _ _ Lo) as M1. pose proof (RN_le _ _ Hi) as M2.
  rewrite RLo in M1. rewrite RHi in M2.
  assert (Gap : inject_Z (a + 1) * pow2 (- s) == inject_Z a * pow2 (- s) + pow2 (- s)).
  { rewrite inject_Z_plus. change (inject_Z 1) with 1. ring. }
  rewrite Gap in M2, Hi.
  set (lo := inject_Z a * pow2 (- s)) in *. set (u := pow2 (- s)) in *.
  split; lra.
Qed.

(** Rounding half-even moves a rational by one half at most. *)
Lemma rhe_within q : q - (1 # 2) <= inject_Z (round_half_even q) /\
                     inject_Z (round_half_even q) <= q + (1 # 2).
Proof.
  pose proof (Qfloor_le q) as F1. pose proof (Qlt_floor q) as F2.
  rewrite inject_Z_plus in F2. change (inject_Z 1) with 1 in F2.
  destruct (rhe_cases q) as [[C E] | [[C E] | [C E]]]; rewrite E.
  - split; lra.
  - destruct (Z.even (Qfloor q)).
    + split; lra.
    + rewrite inject_Z_plus. change (inject_Z 1) with 1. split; lra.
  - rewrite inject_Z_plus. change (inject_Z 1) with 1. split; lra.
Qed.

(** The reported score [round(earned / possible * 100, 2)] against the
    exact percentage. *)
Lemma round2_percentage_error (earned possible : Z) :
  (0 <= earned <= possible)%Z -> (0 < possible)%Z ->
  let exact := 100 * inject_Z earned / inject_Z possible in
  exact - (1 # 200) - (1 # 17592186044416) <= round2 (percentage earned possible) /\
  round2 (percentage earned possible) <= exact + (1 # 200) + (1 # 17592186044416).
Proof.
  intros He Hp exact.
  assert (P : 0 < inject_Z possible) by (change 0 with (inject_Z 0); rewrite <- Zlt_Qlt; lia).
  assert (E0 : 0 <= inject_Z earned) by (apply inject_Z_nonneg; lia).
  assert (E1 : inject_Z earned <= inject_Z possible) by (rewrite <- Zle_Qle; lia).
  set (q := inject_Z earned / inject_Z possible).
  assert (Q0 : 0 <= q).
  { unfold q. apply Qle_shift_div_l; [exact P | rewrite Qmult_0_l; exact E0]. }
  assert (Q1 : q <= 1).
  { unfold q. apply Qle_shift_div_r; [exact P | rewrite Qmult_1_l; exact E1]. }
  assert (Ex : exact == 100 * q) by (unfold exact, q; field; intro C; rewrite C in P; discriminate).
  assert (V52 : pow2 52 == 4503599627370496) by reflexivity.
  assert (V52' : pow2 (- (52)) == 1 # 4503599627370496) by reflexivity.
  assert (V46 : pow2 46 == 70368744177664) by reflexivity.
  assert (V46' : pow2 (- (46)) == 1 # 70368744177664) by reflexivity.
  assert (V53 : inject_Z (2 ^ 53 - 1) == 9007199254740991) by reflexivity.
  (* the quotient *)
  destruct (RN_within q 52 Q0) as [R1 R2]; [rewrite V52, V53; lra | unfold emin; lia |].
  rewrite V52' in R1, R2.
  destruct (int_truediv_unit earned possible He Hp) as [U0 U1].
  unfold int_truediv in U0, U1. fold q in U0, U1.
  set (r := RN q) in *.
  (* the product *)
  destruct (RN_within (r * 100) 46) as [S1 S2];
    [lra | rewrite V46, V53; lra | unfold emin; lia |].
  rewrite V46' in S1, S2.
  destruct (percent_range r U0 U1) as [Y0 Y1].
  assert (F100 : float_of_int 100 = 100) by (vm_compute; reflexivity).
  unfold fmul in Y0, Y1. rewrite F100 in Y0, Y1.
  assert (Epc : percentage earned possible = RN (r * 100)).
  { unfold percentage. replace (0 <? possible)%Z with true by (symmetry; apply Z.ltb_lt; lia).
    unfold fmul, int_truediv. fold q. fold r. rewrite F100. reflexivity. }
  rewrite Epc. set (y := RN (r * 100)) in *.
  (* the two decimals *)
  unfold round2. destruct (rhe_within (y * 100)) as [H1 H2].
  set (n := round_half_even (y * 100)) in *.
  assert (N0 : 0 <= inject_Z n) by (apply inject_Z_nonneg, rhe_nonneg; lra).
  assert (N1 : inject_Z n <= 10000).
  { change 10000 with (inject_Z 10000). rewrite <- Zle_Qle. rewrite <- (rhe_Z 10000).
    apply rhe_le. change (inject_Z 10000) with 10000. lra. }
  assert (Em : inject_Z n / 100 == inject_Z n * (1 # 100)) by (field).
  destruct (RN_within (inject_Z n / 100) 46) as [T1 T2];
    [rewrite Em; lra | rewrite Em, V46, V53; lra | unfold emin; lia |].
  set (z := RN (inject_Z n / 100)) in *.
  rewrite V46', Em in T1, T2. rewrite Ex. split; lra.
Qed.

(** [int(p * (found / total))] against the exact share. *)
Lemma partial_credit_share (p found total : Z) :
  (0 <= p < 2 ^ 31)%Z -> (0 <= found <= total)%Z -> (0 < total < 2 ^ 20)%Z ->
  (p * found / total - 1 <= int_of_float (fmul (float_of_int p) (int_truediv found total))
   <= p * found / total)%Z /\
  ((p * found) mod total <> 0 ->
   int_of_float (fmul (float_of_int p) (int_truediv found total)) = p * found / total)%Z.
Proof.
  intros Hp Hf Ht. pose proof (float_of_int_exact p ltac:(lia)) as E.
  unfold fmul. set (r := int_truediv found total).
  rewrite (RN_proper _ (inject_Z p * r)) by (rewrite E; reflexivity).
  set (k := (p * found / total)%Z).
  assert (Hk : (k * total <= p * found < (k + 1) * total)%Z).
  { unfold k. pose proof (Z.mul_div_le (p * found) total ltac:(lia)).
    pose proof (Z.mul_succ_div_gt (p * found) total ltac:(lia)). lia. }
  assert (Hk0 : (0 <= k)%Z) by (unfold k; apply Z.div_pos; nia).
  assert (Hk1 : (k <= p)%Z) by nia.
  assert (T : 0 < inject_Z total) by (change 0 with (inject_Z 0); rewrite <- Zlt_Qlt; lia).
  assert (T1 : inject_Z total <= 1048576).
  { change 1048576 with (inject_Z (2 ^ 20)). rewrite <- Zle_Qle. lia. }
  assert (P0 : 0 <= inject_Z p) by (apply inject_Z_nonneg; lia).
  assert (P1 : inject_Z p <= 2147483648).
  { change 2147483648 with (inject_Z (2 ^ 31)). rewrite <- Zle_Qle. lia. }
  set (q := inject_Z found / inject_Z total).
  assert (Q0 : 0 <= q).
  { unfold q. apply Qle_shift_div_l; [exact T | rewrite Qmult_0_l; apply inject_Z_nonneg; lia]. }
  assert (Q1 : q <= 1).
  { unfold q. apply Qle_shift_div_r; [exact T | rewrite Qmult_1_l; rewrite <- Zle_Qle; lia]. }
  assert (V52 : pow2 52 == 4503599627370496) by reflexivity.
  assert (V52' : pow2 (- (52)) == 1 # 4503599627370496) by reflexivity.
  assert (V53 : inject_Z (2 ^ 53 - 1) == 9007199254740991) by reflexivity.
  destruct (RN_within q 52 Q0) as [R1 R2]; [rewrite V52, V53; lra | unfold emin; lia |].
  rewrite V52' in R1, R2.
  destruct (int_truediv_unit found total Hf ltac:(lia)) as [U0 U1]. fold r in U0, U1.
  assert (Er : r = RN q) by reflexivity. rewrite <- Er in R1, R2.
  (* the exact share, between k and k + 1 - 1 / total *)
  assert (S1 : inject_Z k <= inject_Z p * q).
  { unfold q. setoid_replace (inject_Z p * (inject_Z found / inject_Z total))
      with (inject_Z (p * found) / inject_Z total) using relation Qeq
      by (rewrite inject_Z_mult; field; intro C; rewrite C in T; discriminate).
    apply Qle_shift_div_l; [exact T|]. rewrite <- inject_Z_mult, <- Zle_Qle. lia. }
  assert (S2 : inject_Z p * q <= inject_Z k + 1 - (1 # 1048576)).
  { unfold q. setoid_replace (inject_Z p * (inject_Z found / inject_Z total))
      with (inject_Z (p * found) / inject_Z total) using relation Qeq
      by (rewrite inject_Z_mult; field; intro C; rewrite C in T; discriminate).
    apply Qle_shift_div_r; [exact T|].
    assert (A : inject_Z (p * found) <= inject_Z ((k + 1) * total + -1))
      by (rewrite <- Zle_Qle; lia).
    assert (B : inject_Z ((k + 1) * total + -1)
                == inject_Z k * inject_Z total + inject_Z total - 1).
    { rewrite inject_Z_plus, inject_Z_mult, inject_Z_plus.
      change (inject_Z 1) with 1. change (inject_Z (-1)) with (-1). ring. }
    rewrite B in A.
    setoid_replace ((inject_Z k + 1 - (1 # 1048576)) * inject_Z total)
      with (inject_Z k * inject_Z total + inject_Z total - (1 # 1048576) * inject_Z total)
      using relation Qeq by ring.
    set (kt := inject_Z k * inject_Z total) in *. lra. }
  (* the product with the rounded quotient *)
  assert (M1 : inject_Z p * q - (1 # 2097152) <= inject_Z p * r).
  { assert (inject_Z p * (q - r) <= inject_Z p * (1 # 4503599627370496)).
    { rewrite !(Qmult_comm (inject_Z p)). apply Qmult_le_compat_r; [lra | exact P0]. }
    assert (inject_Z p * (q - r) == inject_Z p * q - inject_Z p * r) by ring.
    set (pq := inject_Z p * q) in *. set (pr := inject_Z p * r) in *. lra. }
  assert (M2 : inject_Z p * r <= inject_Z p * q + (1 # 2097152)).
  { assert (inject_Z p * (r - q) <= inject_Z p * (1 # 4503599627370496)).
    { rewrite !(Qmult_comm (inject_Z p)). apply Qmult_le_compat_r; [lra | exact P0]. }
    assert (inject_Z p * (r - q) == inject_Z p * r - inject_Z p * q) by ring.
    set (pq := inject_Z p * q) in *. set (pr := inject_Z p * r) in *. lra. }
  assert (N : 0 <= RN (inject_Z p * r)).
  { apply RN_nonneg. apply Qmult_le_0_compat; assumption. }
  set (pq := inject_Z p * q) in *. set (pr := inject_Z p * r) in *.
  assert (U : RN pr <= inject_Z k + 1 - (1 # 2097152)).
  { rewrite <- (RN_exact (inject_Z k + 1 - (1 # 2097152)) (2097152 * (k + 1) + -1) (-21)).
    - apply RN_le. lra.
    - unfold prec. lia.
    - unfold emin. lia.
    - rewrite inject_Z_plus, inject_Z_mult, inject_Z_plus. unfold pow2. simpl. field. }
  assert (Hup : (Qfloor (RN pr) < k + 1)%Z).
  { rewrite Zlt_Qlt. eapply Qle_lt_trans; [apply Qfloor_le |].
    eapply Qle_lt_trans; [exact U |]. rewrite inject_Z_plus. change (inject_Z 1) with 1. lra. }
  rewrite (int_of_float_nonneg _ N). split; [split |].
  - destruct (Z.eq_dec k 0%Z) as [Hz | Hne].
    + apply Z.le_trans with 0%Z; [lia |]. rewrite <- (Qfloor_Z 0). apply Qfloor_resp_le, N.
    + rewrite <- (Qfloor_Z (k - 1)). apply Qfloor_resp_le.
      rewrite <- (RN_exact_Z (k - 1)) by (unfold prec; lia). apply RN_le.
      replace (k - 1)%Z with (k + -1)%Z by lia. rewrite inject_Z_plus.
      change (inject_Z (-1)) with (-1). lra.
  - lia.
  - intros Hrem.
    assert (Hk' : (k * total + 1 <= p * found)%Z).
    { pose proof (Z.div_mod (p * found) total ltac:(lia)) as D. fold k in D.
      pose proof (Z.mod_pos_bound (p * found) total ltac:(lia)) as B. lia. }
    assert (S1' : inject_Z k + (1 # 1048576) <= pq).
    { unfold pq, q. setoid_replace (inject_Z p * (inject_Z found / inject_Z total))
        with (inject_Z (p * found) / inject_Z total) using relation Qeq
        by (rewrite inject_Z_mult; field; intro C; rewrite C in T; discriminate).
      apply Qle_shift_div_l; [exact T|].
      assert (A : inject_Z (k * total + 1) <= inject_Z (p * found)) by (rewrite <- Zle_Qle; lia).
      rewrite inject_Z_plus, inject_Z_mult in A. change (inject_Z 1) with 1 in A.
      setoid_replace ((inject_Z k + (1 # 1048576)) * inject_Z total)
        with (inject_Z k * inject_Z total + (1 # 1048576) * inject_Z total)
        using relation Qeq by ring.
      set (kt := inject_Z k * inject_Z total) in *. lra. }
    assert (L : inject_Z k <= RN pr).
    { rewrite <- (RN_exact_Z k) by (unfold prec; lia). apply RN_le. lra. }
    assert (Hlo : (k <= Qfloor (RN pr))%Z).
    { rewrite <- (Qfloor_Z k). apply Qfloor_resp_le, L. }
    lia.
Qed.

(** The reported score is a number of hundredths. *)
Lemma round2_percentage_hundredths (earned possible : Z) :
  (0 <= earned <= possible)%Z -> (0 < possible)%Z ->
  exists n, (0 <= n <= 10000)%Z /\
            round2 (percentage earned possible) = RN (inject_Z n / 100).
Proof.
  intros He Hp. exists (round_half_even (percentage earned possible * 100)).
  split; [| reflexivity].
  destruct (int_truediv_unit earned possible He Hp) as [U0 U1].
  destruct (percent_range _ U0 U1) as [Y0 Y1].
  assert (Epc : percentage earned possible
                = fmul (int_truediv earned possible) (float_of_int 100)).
  { unfold percentage. replace (0 <? possible)%Z with true by (symmetry; apply Z.ltb_lt; lia).
    reflexivity. }
  rewrite Epc. split.
  - apply rhe_nonneg. lra.
  - rewrite <- (rhe_Z 10000). apply rhe_le. change (inject_Z 10000) with 10000. lra.
Qed.

End FloatError.

(** ** The score breakdown *)

Lemma breakdown_add_keys t p e bd :
  map fst (breakdown_add t p e bd)
  = if mem t (map fst bd) then map fst bd else (map fst bd ++ [t])%list.
Proof.
  induction bd as [| [k [[p0 e0] c0]] bd IH]; [reflexivity|].
  cbn [breakdown_add map fst mem existsb]. fold (mem t (map fst bd)).
  rewrite (String.eqb_sym t k).
  destruct (String.eqb k t) eqn:E; cbn [orb map fst]; [reflexivity|].
  rewrite IH. destruct (mem t (map fst bd)); reflexivity.
Qed.

Lemma breakdown_of_keys results :
  map fst (breakdown_of results) = first_seen (map r_question_type results).
Proof.
  unfold breakdown_of, first_seen.
  induction results as [| r results IH] using rev_ind; [reflexivity|].
  rewrite map_app, !fold_left_app. cbn [map fold_left].
  rewrite breakdown_add_keys, IH. reflexivity.
Qed.

Lemma first_seen_spec l :
  NoDup (first_seen l) /\ (forall t, In t (first_seen l) <-> In t l).
Proof.
  unfold first_seen. induction l as [| x l IH] using rev_ind.
  - split; [apply NoDup_nil_2 | intros t; reflexivity].
  - rewrite fold_left_app. cbn [fold_left]. destruct IH as [ND IN].
    set (acc := fold_left _ l []) in *.
    destruct (mem x acc) eqn:M.
    + split; [exact ND|]. intros t. rewrite IN, in_app_iff. cbn [In].
      apply mem_In in M. apply IN in M. split; [auto|]. intros [H | [<- | []]]; auto.
    + assert (~ In x acc) by (intro Hc; apply mem_In in Hc; congruence).
      split.
      * apply NoDup_app. split; [exact ND|]. split; [|apply NoDup_singleton].
        intros y Hy Hx. apply list_elem_of_In in Hy. apply list_elem_of_In in Hx.
        destruct Hx as [<- | []]. contradiction.
      * intros t. rewrite !in_app_iff, IN. reflexivity.
Qed.

Lemma breakdown_add_In t p e bd k v :
  NoDup (map fst bd) ->
  In (k, v) (breakdown_add t p e bd) ->
  (k <> t /\ In (k, v) bd) \/
  (k = t /\ ((exists p0 e0 c0, In (t, (p0, e0, c0)) bd /\ v = (p0 + p, e0 + e, c0 + 1)) \/
             (~ In t (map fst bd) /\ v = (0 + p, 0 + e, 0 + 1)))).
Proof.
  induction bd as [| [k0 [[p0 e0] c0]] bd IH]; intros ND H.
  - cbn in H. destruct H as [H | []]. injection H as <- <-. right. split; [reflexivity|].
    right. split; [intros [] | reflexivity].
  - cbn [map fst] in ND. apply NoDup_cons in ND. destruct ND as [Hnot ND].
    cbn [breakdown_add] in H. destruct (String.eqb k0 t) eqn:E.
    + apply String.eqb_eq in E. subst k0. destruct H as [H | H].
      * injection H as <- <-. right. split; [reflexivity|]. left.
        exists p0, e0, c0. split; [left; reflexivity | reflexivity].
      * destruct (string_dec k t) as [-> | NE].
        -- exfalso. apply Hnot. apply list_elem_of_In. apply (in_map fst) in H. exact H.
        -- left. split; [exact NE | right; exact H].
    + apply String.eqb_neq in E. destruct H as [H | H].
      * injection H as <- <-. left. split; [exact E | left; reflexivity].
      * destruct (IH ND H) as [[NE HI] | [-> [[p1 [e1 [c1 [HI ->]]]] | [HN ->]]]].
        -- left. split; [exact NE | right; exact HI].
        -- right. split; [reflexivity|]. left. exists p1, e1, c1. split; [right; exact HI | reflexivity].
        -- right. split; [reflexivity|]. right. split; [|reflexivity].
           cbn [map fst In]. intros [Hc | Hc]; [congruence | contradiction].
Qed.

Lemma breakdown_of_snoc results r :
  breakdown_of (results ++ [r])
  = breakdown_add (r_question_type r) (r_points_possible r) (r_points_awarded r)
                  (breakdown_of results).
Proof. unfold breakdown_of. rewrite fold_left_app. reflexivity. Qed.

Lemma breakdown_of_NoDup results : NoDup (map fst (breakdown_of results)).
Proof. rewrite breakdown_of_keys. apply first_seen_spec. Qed.

Lemma of_type_snoc t results r :
  of_type t (results ++ [r])
  = (of_type t results ++ if String.eqb (r_question_type r) t then [r] else [])%list.
Proof. unfold of_type. rewrite List.filter_app. reflexivity. Qed.

Lemma of_type_nil t results :
  ~ In t (map r_question_type results) -> of_type t results = [].
Proof.
  intros H. unfold of_type. induction results as [| r results IH]; [reflexivity|].
  cbn [List.filter]. destruct (String.eqb (r_question_type r) t) eqn:E.
  - exfalso. apply H. left. apply String.eqb_eq, E.
  - apply IH. intro Hc. apply H. right. exact Hc.
Qed.

(** Every entry of the accumulator holds the sums and the count of the
    results of its question type. *)
Lemma breakdown_of_In results k p e c :
  In (k, (p, e, c)) (breakdown_of results) ->
  p = possible_of (of_type k results) /\
  e = earned_of (of_type k results) /\
  c = Z.of_nat (length (of_type k results)) /\
  1 <= c.
Proof.
  revert k p e c. induction results as [| r results IH] using rev_ind; intros k p e c H.
  - destruct H.
  - rewrite breakdown_of_snoc in H.
    apply breakdown_add_In in H; [|apply breakdown_of_NoDup].
    rewrite of_type_snoc.
    destruct H as [[NE HI] | [-> [[p0 [e0 [c0 [HI E]]]] | [HN E]]]].
    + assert (Eb : String.eqb (r_question_type r) k = false)
        by (apply String.eqb_neq; congruence).
      rewrite Eb, app_nil_r. apply IH, HI.
    + rewrite String.eqb_refl. injection E as -> -> ->.
      destruct (IH _ _ _ _ HI) as [-> [-> [-> Hc]]].
      rewrite possible_of_app, earned_of_app, length_app. cbn. repeat split; lia.
    + rewrite String.eqb_refl. injection E as -> -> ->.
      rewrite breakdown_of_keys in HN.
      rewrite of_type_nil by (intro Hc; apply HN; apply first_seen_spec; exact Hc).
      cbn. repeat split; lia.
Qed.

Lemma breakdown_add_sums t p e bd :
  sum_Z (map (fun x => fst (fst (snd x))) (breakdown_add t p e bd))
  = sum_Z (map (fun x => fst (fst (snd x))) bd) + p /\
  sum_Z (map (fun x => snd (fst (snd x))) (breakdown_add t p e bd))
  = sum_Z (map (fun x => snd (fst (snd x))) bd) + e /\
  sum_Z (map (fun x => snd (snd x)) (breakdown_add t p e bd))
  = sum_Z (map (fun x => snd (snd x)) bd) + 1.
Proof.
  induction bd as [| [k0 [[p0 e0] c0]] bd IH]; [cbn; lia|].
  cbn [breakdown_add]. destruct (String.eqb k0 t); cbn [map sum_Z fold_right fst snd] in *.
  - unfold sum_Z. lia.
  - unfold sum_Z in *. lia.
Qed.

Lemma breakdown_of_sums results :
  sum_Z (map (fun x => fst (fst (snd x))) (breakdown_of results)) = possible_of results /\
  sum_Z (map (fun x => snd (fst (snd x))) (breakdown_of results)) = earned_of results /\
  sum_Z (map (fun x => snd (snd x)) (breakdown_of results)) = Z.of_nat (length results).
Proof.
  induction results as [| r results IH] using rev_ind; [cbn; auto|].
  rewrite breakdown_of_snoc.
  destruct (breakdown_add_sums (r_question_type r) (r_points_possible r) (r_points_awarded r)
              (breakdown_of results)) as [-> [-> ->]].
  destruct IH as [-> [-> ->]].
  rewrite possible_of_app, earned_of_app, length_app. cbn. lia.
Qed.

Lemma _create_score_breakdown_rows results :
  _create_score_breakdown results = map row_of (breakdown_of results).
Proof. reflexivity. Qed.

Lemma _create_score_breakdown_spec (results : list QuestionResult) :
  let rows := _create_score_breakdown results in
  map b_question_type rows = first_seen (map r_question_type results) /\
  NoDup (map b_question_type rows) /\
  (forall t, In t (map b_question_type rows) <-> In t (map r_question_type results)) /\
  (forall row, In row rows ->
     let rs := of_type (b_question_type row) results in
     b_count row = Z.of_nat (length rs) /\
     1 <= b_count row /\
     b_possible_points row = possible_of rs /\
     b_earned_points row = earned_of rs /\
     b_percentage row = Float.round2 (percentage (earned_of rs) (possible_of rs))) /\
  sum_Z (map b_count rows) = Z.of_nat (length results) /\
  sum_Z (map b_possible_points rows) = possible_of results /\
  sum_Z (map b_earned_points rows) = earned_of results.
Proof.
  intros rows. unfold rows. rewrite _create_score_breakdown_rows.
  assert (K : map b_question_type (map row_of (breakdown_of results))
              = first_seen (map r_question_type results)).
  { rewrite map_map, <- breakdown_of_keys. apply map_ext. intros [k [[p e] c]]. reflexivity. }
  split; [exact K|]. rewrite K.
  split; [apply first_seen_spec|].
  split; [apply first_seen_spec|].
  split.
  - intros row H. apply in_map_iff in H. destruct H as [[k [[p e] c]] [<- H]].
    cbn [row_of b_question_type b_count b_possible_points b_earned_points b_percentage].
    destruct (breakdown_of_In _ _ _ _ _ H) as [-> [-> [-> Hc]]]. repeat split; try reflexivity. exact Hc.
  - destruct (breakdown_of_sums results) as [S1 [S2 S3]].
    rewrite !map_map. repeat split.
    + rewrite <- S3. f_equal. apply map_ext. intros [k [[p e] c]]. reflexivity.
    + rewrite <- S1. f_equal. apply map_ext. intros [k [[p e] c]]. reflexivity.
    + rewrite <- S2. f_equal. apply map_ext. intros [k [[p e] c]]. reflexivity.
Qed.

(** The breakdown has, for each question type in the order of first
    appearance, the row of that type. *)
Lemma _create_score_breakdown_rows_for results :
  _create_score_breakdown results
  = map (row_for results) (first_seen (map r_question_type results)).
Proof.
  destruct (_create_score_breakdown_spec results) as (Hkeys & _ & _ & Hrows & _).
  rewrite <- Hkeys, map_map.
  rewrite <- (map_id (_create_score_breakdown results)) at 1.
  apply map_ext_in. intros row Hrow.
  destruct (Hrows row Hrow) as (Hc & _ & Hp & He & Hpc).
  destruct row as [t p e c pc]. cbn in *. unfold row_for. subst. reflexivity.
Qed.

(** The derived fields of the returned dict are computed from the graded
    answers and from the unrounded score. *)
Lemma grade_quiz_submission_fields db user_id quiz user_answers g :
  grade_quiz_submission db user_id quiz user_answers = Ok g ->
  let score := percentage (earned_points g) (max_score g) in
  g_quiz_id g = quiz /\ g_user_id g = user_id /\
  overall_score g = Float.round2 score /\
  breakdown g = _create_score_breakdown (graded_answers g) /\
  detailed_feedback g = _generate_overall_feedback (graded_answers g) score /\
  suggested_improvements g = _generate_suggestions (graded_answers g) /\
  misconceptions_identified g = _identify_misconceptions (graded_answers g) /\
  next_learning_recommendations g = _generate_recommendations (graded_answers g) /\
  confidence_level g = _calculate_confidence_level score /\
  grading_method g = "rule_based".
Proof.
  unfold grade_quiz_submission.
  destruct (find _ (quizzes db)); [| discriminate].
  destruct (questions_of db quiz) as [| q0 l] eqn:Eqs; [discriminate |].
  destruct (grade_answers _ _ _ _) as [[[results possible] earned] | e] eqn:E;
    cbn [res_bind]; [| discriminate].
  intros H. injection H as <-. cbn. repeat split; reflexivity.
Qed.

(** The question types of the results are the four tags. *)
Lemma graded_types db user_id quiz user_answers g :
  grade_quiz_submission db user_id quiz user_answers = Ok g ->
  forall r, In r (graded_answers g) ->
    In (r_question_type r) ["mcq"; "tf"; "fill_blank"; "essay"].
Proof.
  intros Hg r Hr. apply grade_quiz_submission_ok in Hg as (HF & _).
  destruct (Forall2_In_r _ _ _ _ HF Hr) as (a & _ & id & q & _ & _ & (c & p & fb & _ & ->)).
  cbn. destruct (question_type q); cbn; auto.
Qed.

Lemma NoDup_within_length (l allowed : list string) :
  NoDup l -> (forall t, In t l -> In t allowed) -> (length l <= length allowed)%nat.
Proof.
  intros ND Hin. apply (NoDup_incl_length). 
  - apply NoDup_ListNoDup. exact ND.
  - intros t Ht. apply Hin, Ht.
Qed.

Lemma of_type_In t results r : In r (of_type t results) -> In r results /\ r_question_type r = t.
Proof.
  unfold of_type. intros H. apply filter_In in H as [H1 H2]. apply String.eqb_eq in H2. auto.
Qed.

Lemma breakdown_in_result
  (db : Session) (user_id quiz : uuid) (user_answers : list UserAnswer) (g : GradingResult) :
  grade_quiz_submission db user_id quiz user_answers = Ok g ->
  breakdown g = _create_score_breakdown (graded_answers g) /\
  sum_Z (map b_possible_points (breakdown g)) = max_score g /\
  sum_Z (map b_earned_points (breakdown g)) = earned_points g /\
  sum_Z (map b_count (breakdown g)) = Z.of_nat (length (graded_answers g)) /\
  (length (breakdown g) <= 4)%nat /\
  (forall row, In row (breakdown g) ->
     In (b_question_type row) ["mcq"; "tf"; "fill_blank"; "essay"]) /\
  (forall row, breakdown g = [row] ->
     b_possible_points row = max_score g /\ b_earned_points row = earned_points g /\
     b_percentage row = overall_score g) /\
  (key_in_range db quiz -> questions_positive db quiz ->
   forall row, In row (breakdown g) ->
     0 <= b_earned_points row <= b_possible_points row /\
     1 <= b_possible_points row /\
     (0 <= b_percentage row)%Q /\ (b_percentage row <= 100)%Q).
Proof.
  intros Hg.
  destruct (grade_quiz_submission_fields _ _ _ _ _ Hg) as (_ & _ & Hs & Hb & _).
  destruct (grade_quiz_submission_ok _ _ _ _ _ Hg) as (HF & Hmax & Hearned & _).
  destruct (_create_score_breakdown_spec (graded_answers g))
    as (Hkeys & HND & Hin & Hrows & Hc & Hp & He).
  rewrite <- Hb in Hkeys, HND, Hin, Hrows, Hc, Hp, He.
  assert (Htypes : forall row, In row (breakdown g) ->
            In (b_question_type row) ["mcq"; "tf"; "fill_blank"; "essay"]).
  { intros row Hrow. assert (Ht : In (b_question_type row) (map b_question_type (breakdown g)))
      by (apply in_map, Hrow).
    apply Hin in Ht. apply in_map_iff in Ht as (r & <- & Hr).
    apply (graded_types _ _ _ _ _ Hg r Hr). }
  split; [exact Hb|]. split; [congruence|]. split; [congruence|]. split; [exact Hc|].
  split.
  { rewrite <- (length_map b_question_type).
    apply (NoDup_within_length _ ["mcq"; "tf"; "fill_blank"; "essay"] HND).
    intros t Ht. apply in_map_iff in Ht as (row & <- & Hrow). apply Htypes, Hrow. }
  split; [exact Htypes|].
  split.
  { intros row Hrow. rewrite Hrow in Hp, He. cbn in Hp, He.
    assert (P : b_possible_points row = max_score g) by lia.
    assert (E : b_earned_points row = earned_points g) by lia.
    split; [exact P|]. split; [exact E|].
    destruct (Hrows row) as (_ & _ & Hp' & He' & Hpc); [rewrite Hrow; left; reflexivity|].
    rewrite Hpc, Hs, <- Hp', <- He', P, E. reflexivity. }
  intros Hk Hq row Hrow.
  destruct (Hrows row Hrow) as (_ & Hcount & Hp' & He' & Hpc).
  assert (R : forall r, In r (of_type (b_question_type row) (graded_answers g)) ->
                        0 <= r_points_awarded r <= r_points_possible r /\ 1 <= r_points_possible r).
  { intros r Hr. apply of_type_In in Hr as [Hr _].
    destruct (Forall2_In_r _ _ _ _ HF Hr) as (a & _ & id & q & _ & Hq' & Hres).
    destruct (result_of_in_range db quiz id q a r Hk Hq Hq' Hres) as (B1 & B2 & B3 & _ & B5).
    split; [exact B1|]. rewrite B5. apply (Hq q B2 B3). }
  set (rs := of_type (b_question_type row) (graded_answers g)) in *.
  assert (S : 0 <= earned_of rs <= possible_of rs)
    by (apply sums_in_range; intros r Hr; apply R, Hr).
  assert (P1 : 1 <= possible_of rs).
  { destruct (Hrows row Hrow) as (Hlen & Hone & _). fold rs in Hlen.
    destruct rs as [| r rs']; [cbn in Hlen; lia|].
    assert (1 <= r_points_possible r) by (apply R; left; reflexivity).
    assert (0 <= possible_of rs').
    { assert (0 <= earned_of rs' <= possible_of rs'); [|lia].
      apply sums_in_range. intros r' Hr'. apply R. right. exact Hr'. }
    change (r :: rs') with ([r] ++ rs')%list. rewrite possible_of_app. cbn. lia. }
  rewrite Hp', He', Hpc. split; [exact S|]. split; [exact P1|].
  apply percentage_range. exact S.
Qed.

(** X5. [_create_score_breakdown] returns one row for each question type
    that occurs among the results, in the order in which the types first
    occur; the row of a type holds the number of results of that type
    (at least 1), the sums of their [points_possible] and
    [points_awarded], and the percentage
    [round(earned / possible * 100, 2)] of these two sums (0 when the
    possible points are not positive).  The counts of the rows add up to
    the number of results, and their points to the sums over all
    results. *)
Theorem X5_breakdown_has_one_row_per_question_type (results : list QuestionResult) :
  let types := first_seen (map r_question_type results) in
  let rows := _create_score_breakdown results in
  rows = map (row_for results) types /\
  NoDup types /\
  (forall t, In t types <-> In t (map r_question_type results)) /\
  (forall row, In row rows -> 1 <= b_count row) /\
  sum_Z (map b_count rows) = Z.of_nat (length results) /\
  sum_Z (map b_possible_points rows) = possible_of results /\
  sum_Z (map b_earned_points rows) = earned_of results.
Proof.
  intros types rows.
  destruct (_create_score_breakdown_spec results) as (_ & _ & _ & Hrows & Hc & Hp & He).
  destruct (first_seen_spec (map r_question_type results)) as [ND IN].
  split; [apply _create_score_breakdown_rows_for |].
  split; [exact ND |]. split; [exact IN |].
  split; [| auto].
  intros row Hrow. apply (Hrows row Hrow).
Qed.

(** X6. In the dict returned by [grade_quiz_submission], the rows of
    [breakdown] add up to the totals: their possible points to
    [max_score], their earned points to [earned_points] (the breakdown
    adds the points of every result, the total only those of results
    flagged correct, and a result that is not correct has 0 points), and
    their counts to the number of graded answers.  There are at most four
    rows, one per question type.  When there is a single row, its
    percentage is the overall score.  When every correct key entry awards
    between 0 and its question's points and every question is worth at
    least 1 point, every row has [0 <= earned <= possible], [1 <=
    possible] and a percentage in [[0, 100]]. *)
Theorem X6_breakdown_adds_up_to_the_totals
  (db : Session) (user_id quiz : uuid) (user_answers : list UserAnswer) (g : GradingResult) :
  grade_quiz_submission db user_id quiz user_answers = Ok g ->
  breakdown g = _create_score_breakdown (graded_answers g) /\
  sum_Z (map b_possible_points (breakdown g)) = max_score g /\
  sum_Z (map b_earned_points (breakdown g)) = earned_points g /\
  sum_Z (map b_count (breakdown g)) = Z.of_nat (length (graded_answers g)) /\
  (length (breakdown g) <= 4)%nat /\
  (forall row, In row (breakdown g) ->
     In (b_question_type row) ["mcq"; "tf"; "fill_blank"; "essay"]) /\
  (forall row, breakdown g = [row] ->
     b_possible_points row = max_score g /\ b_earned_points row = earned_points g /\
     b_percentage row = overall_score g) /\
  (key_in_range db quiz -> questions_positive db quiz ->
   forall row, In row (breakdown g) ->
     0 <= b_earned_points row <= b_possible_points row /\
     1 <= b_possible_points row /\
     (0 <= b_percentage row)%Q /\ (b_percentage row <= 100)%Q).
Proof.
  intros Hg. exact (breakdown_in_result db user_id quiz user_answers g Hg).
Qed.

(** X6 at the "Paris" quiz: one row, of type "mcq", with the totals. *)
Lemma X6_witness_paris :
  exists g, grade_quiz_submission paris_db 7%N 1%N [answer_to 10%N "paris "] = Ok g /\
            sum_Z (map b_possible_points (breakdown g)) = max_score g /\
            sum_Z (map b_earned_points (breakdown g)) = earned_points g /\
            (length (breakdown g) <= 4)%nat.
Proof.
  eexists. split; [vm_compute; reflexivity |].
  pose proof (X6_breakdown_adds_up_to_the_totals paris_db 7%N 1%N
                [answer_to 10%N "paris "] _ eq_refl) as (_ & Hp & He & _ & Hl & _).
  split; [exact Hp |]. split; [exact He | exact Hl].
Defined.

(** ** Suggestions, misconceptions and recommendations *)

Lemma incorrect_nil results :
  incorrect results = [] <-> (forall r, In r results -> r_is_correct r = true).
Proof.
  unfold incorrect. induction results as [| r results IH]; cbn [List.filter].
  - split; [intros _ r [] | reflexivity].
  - destruct (r_is_correct r) eqn:E; cbn [negb].
    + rewrite IH. split.
      * intros H r' [<- | Hr']; [exact E | apply H, Hr'].
      * intros H r' Hr'. apply H. right. exact Hr'.
    + split; [discriminate|]. intros H. specialize (H r (or_introl eq_refl)). congruence.
Qed.

Lemma incorrect_length results : (length (incorrect results) <= length results)%nat.
Proof. unfold incorrect. apply List.filter_length_le. Qed.

Lemma fmul_nonneg x c : (0 <= x)%Q -> (0 <= c)%Q -> (0 <= Float.fmul x c)%Q.
Proof. intros Hx Hc. unfold Float.fmul. apply FloatFacts.RN_nonneg. apply Qmult_le_0_compat; assumption. Qed.

Lemma float_of_int_nonneg z : 0 <= z -> (0 <= Float.float_of_int z)%Q.
Proof.
  intros H. unfold Float.float_of_int. apply FloatFacts.RN_nonneg.
  apply FloatFacts.inject_Z_nonneg, H.
Qed.

(** With no incorrect result, neither threshold is exceeded. *)
Lemma fgt_zero n c : 0 <= n -> (0 <= c)%Q ->
  Float.fgt (inject_Z 0) (Float.fmul (Float.float_of_int n) c) = false.
Proof.
  intros Hn Hc. apply FloatBands.fgt_false. apply fmul_nonneg; [apply float_of_int_nonneg, Hn | exact Hc].
Qed.

Lemma _generate_suggestions_spec (results : list QuestionResult) :
  Z.of_nat (length results) < 2 ^ 53 ->
  let wrong := incorrect results in
  let per_question :=
    map (fun r => "Review the concept related to: " +:+ take_str 50 (r_question_text r) +:+ "...")
        wrong in
  let general :=
    ["Consider reviewing the entire section or chapter";
     "Try additional practice questions on these topics";
     "Seek additional resources or examples for better understanding"] in
  (Z.of_nat (length results) < 2 * Z.of_nat (length wrong) ->
   _generate_suggestions results = (per_question ++ general)%list) /\
  (2 * Z.of_nat (length wrong) <= Z.of_nat (length results) ->
   _generate_suggestions results = per_question) /\
  (_generate_suggestions results = [] <-> (forall r, In r results -> r_is_correct r = true)).
Proof.
  intros Hn wrong per_question general.
  pose proof (FloatBands.fgt_half_iff (Z.of_nat (length wrong)) (Z.of_nat (length results)) ltac:(lia)) as T.
  assert (A : Z.of_nat (length results) < 2 * Z.of_nat (length wrong) ->
              _generate_suggestions results = (per_question ++ general)%list).
  { intros H. apply T in H. unfold _generate_suggestions. fold wrong. rewrite H. reflexivity. }
  assert (B : 2 * Z.of_nat (length wrong) <= Z.of_nat (length results) ->
              _generate_suggestions results = per_question).
  { intros H. unfold _generate_suggestions. fold wrong.
    rewrite (not_true_is_false _ (fun E => Z.lt_irrefl _ (Z.lt_le_trans _ _ _ (proj1 T E) H))).
    reflexivity. }
  split; [exact A|]. split; [exact B|].
  rewrite <- incorrect_nil. fold wrong. split.
  - intros H. destruct (Z_lt_ge_dec (Z.of_nat (length results)) (2 * Z.of_nat (length wrong)))
      as [C | C].
    + rewrite (A C) in H. apply app_eq_nil in H as [_ H]. discriminate.
    + rewrite (B ltac:(lia)) in H. unfold per_question in H. apply map_eq_nil in H. exact H.
  - intros H. rewrite B; [unfold per_question; rewrite H; reflexivity|]. rewrite H. cbn. lia.
Qed.

(** X7. [_generate_suggestions] returns one line per result that is not
    correct, in the order of the results, followed by the three general
    suggestions exactly when strictly more than half of the results are
    not correct (with exactly half, they are not added); the product
    [len(graded_results) * 0.5] is exact in double precision.
    [_identify_misconceptions] returns one line per result that is not
    correct.  Both lists are empty exactly when every result is
    correct. *)
Theorem X7_general_advice_when_more_than_half_incorrect (results : list QuestionResult) :
  Z.of_nat (length results) < 2 ^ 53 ->
  let wrong := incorrect results in
  let per_question :=
    map (fun r => "Review the concept related to: " +:+ take_str 50 (r_question_text r) +:+ "...")
        wrong in
  let general :=
    ["Consider reviewing the entire section or chapter";
     "Try additional practice questions on these topics";
     "Seek additional resources or examples for better understanding"] in
  (Z.of_nat (length results) < 2 * Z.of_nat (length wrong) ->
   _generate_suggestions results = (per_question ++ general)%list) /\
  (2 * Z.of_nat (length wrong) <= Z.of_nat (length results) ->
   _generate_suggestions results = per_question) /\
  length (_identify_misconceptions results) = length wrong /\
  (_generate_suggestions results = [] <-> (forall r, In r results -> r_is_correct r = true)) /\
  (_identify_misconceptions results = [] <-> (forall r, In r results -> r_is_correct r = true)).
Proof.
  intros Hn wrong per_question general.
  destruct (_generate_suggestions_spec results Hn) as (A & B & C).
  split; [exact A |]. split; [exact B |].
  split; [unfold _identify_misconceptions; apply length_map |].
  split; [exact C |].
  rewrite <- incorrect_nil. unfold _identify_misconceptions. split.
  - intros H. apply map_eq_nil in H. exact H.
  - intros ->. reflexivity.
Qed.

(** X7 at three results, two of which are not correct: two lines and the
    three general suggestions. *)
Lemma X7_witness_two_of_three :
  let results := [sample_result false 0 5 "mcq"; sample_result true 5 5 "mcq";
                  sample_result false 0 5 "tf"] in
  Z.of_nat (length results) < 2 ^ 53 /\
  length (_generate_suggestions results) = 5%nat /\
  length (_identify_misconceptions results) = 2%nat.
Proof.
  intros results.
  assert (Hn : Z.of_nat (length results) < 2 ^ 53) by (vm_compute; reflexivity).
  split; [exact Hn |].
  destruct (X7_general_advice_when_more_than_half_incorrect results Hn) as (A & _ & M & _).
  split; [rewrite A by (vm_compute; reflexivity); reflexivity | rewrite M; reflexivity].
Defined.

(** X8. [_generate_recommendations] returns no recommendation when no
    result is incorrect; the two "review" and "practice" recommendations
    when some result is incorrect and at most 30% of the results are; and
    these two followed by the "foundational concepts" one when strictly
    more than 30% of the results are incorrect.  The comparison with
    [len(graded_results) * 0.3] in double precision decides exactly
    [10 * incorrect > 3 * len], the boundary of exactly 30% included. *)
Theorem X8_recommendations_by_share_of_incorrect_answers (results : list QuestionResult) :
  Z.of_nat (length results) < 2 ^ 31 ->
  let n := Z.of_nat (length results) in
  let k := Z.of_nat (length (incorrect results)) in
  (k = 0 -> _generate_recommendations results = []) /\
  (0 < k -> 10 * k <= 3 * n ->
   _generate_recommendations results
   = ["Review the material for incorrectly answered questions";
      "Practice similar questions to reinforce understanding"]) /\
  (3 * n < 10 * k ->
   _generate_recommendations results
   = ["Review the material for incorrectly answered questions";
      "Practice similar questions to reinforce understanding";
      "Consider revisiting the foundational concepts before proceeding"]).
Proof.
  intros Hn n k. pose proof (incorrect_length results) as L.
  pose proof (FloatBands.fgt_three_tenths_iff k n ltac:(unfold k, n; lia) Hn) as T.
  unfold _generate_recommendations. fold k. fold n.
  split; [|split].
  - intros H.
    assert (E : Float.fgt (inject_Z k) (Float.fmul (Float.float_of_int n) Float.f0_3) = false).
    { apply not_true_is_false. intro E. apply T in E. unfold n in E. lia. }
    rewrite E, H. reflexivity.
  - intros H0 H. replace (0 <? k) with true by (symmetry; apply Z.ltb_lt; lia).
    assert (E : Float.fgt (inject_Z k) (Float.fmul (Float.float_of_int n) Float.f0_3) = false).
    { apply not_true_is_false. intro E. apply T in E. lia. }
    rewrite E. reflexivity.
  - intros H. replace (0 <? k) with true by (symmetry; apply Z.ltb_lt; unfold n in H; lia).
    apply T in H. rewrite H. reflexivity.
Qed.

(** X8 at ten results, three of which are incorrect: exactly 30%, two
    recommendations. *)
Lemma X8_witness_three_of_ten :
  let results := (repeat (sample_result false 0 5 "mcq") 3
                  ++ repeat (sample_result true 5 5 "mcq") 7)%list in
  Z.of_nat (length results) < 2 ^ 31 /\
  length (_generate_recommendations results) = 2%nat.
Proof.
  intros results.
  assert (Hn : Z.of_nat (length results) < 2 ^ 31) by (vm_compute; reflexivity).
  split; [exact Hn |].
  destruct (X8_recommendations_by_share_of_incorrect_answers results Hn) as (_ & B & _).
  rewrite B; [reflexivity | vm_compute; reflexivity | vm_compute; discriminate].
Defined.

(** ** The score bands *)

Lemma round2_le x y : (x <= y)%Q -> (Float.round2 x <= Float.round2 y)%Q.
Proof.
  intros H. unfold Float.round2. apply FloatFacts.RN_le.
  apply Qmult_le_compat_r; [|discriminate].
  rewrite <- Zle_Qle. apply FloatFacts.rhe_le. apply Qmult_le_compat_r; [exact H | discriminate].
Qed.

Lemma _calculate_confidence_level_cases s :
  (_calculate_confidence_level s = "high" <-> Float.fge s 90 = true) /\
  (_calculate_confidence_level s = "medium" <-> Float.fge s 90 = false /\ Float.fge s 70 = true) /\
  (_calculate_confidence_level s = "low" <-> Float.fge s 70 = false).
Proof.
  assert (M : Float.fge s 90 = true -> Float.fge s 70 = true).
  { intros H. apply FloatBands.fge_true in H. apply FloatBands.fge_true. lra. }
  unfold _calculate_confidence_level.
  destruct (Float.fge s 90) eqn:E9; destruct (Float.fge s 70) eqn:E7;
    try (specialize (M eq_refl); discriminate);
    repeat split; intros; repeat split; try congruence;
    try (match goal with H : _ /\ _ |- _ => destruct H end; congruence).
Qed.

Lemma _generate_overall_feedback_cases results s :
  (_generate_overall_feedback results s
   = "Excellent work! You demonstrated strong understanding of the material."
   <-> Float.fge s 90 = true) /\
  (_generate_overall_feedback results s
   = "Great job! You have a good grasp of the concepts with room for minor improvements."
   <-> Float.fge s 90 = false /\ Float.fge s 80 = true) /\
  (_generate_overall_feedback results s
   = "Good effort! You understand the main concepts but should review some areas."
   <-> Float.fge s 80 = false /\ Float.fge s 70 = true) /\
  (_generate_overall_feedback results s
   = "Fair performance. Focus on reviewing the areas where you had difficulties."
   <-> Float.fge s 70 = false /\ Float.fge s 60 = true) /\
  (_generate_overall_feedback results s
   = "More practice needed. Review the material and try again."
   <-> Float.fge s 60 = false).
Proof.
  assert (M : forall a b, (a <= b)%Q -> Float.fge s b = true -> Float.fge s a = true).
  { intros a b Hab H. apply FloatBands.fge_true in H. apply FloatBands.fge_true. lra. }
  pose proof (M 80%Q 90%Q ltac:(discriminate)) as M1.
  pose proof (M 70%Q 80%Q ltac:(discriminate)) as M2.
  pose proof (M 60%Q 70%Q ltac:(discriminate)) as M3.
  unfold _generate_overall_feedback.
  destruct (Float.fge s 90) eqn:E9; destruct (Float.fge s 80) eqn:E8;
    destruct (Float.fge s 70) eqn:E7; destruct (Float.fge s 60) eqn:E6;
    try (specialize (M1 eq_refl); discriminate);
    try (specialize (M2 eq_refl); discriminate);
    try (specialize (M3 eq_refl); discriminate);
    repeat split; intros; repeat split; try congruence;
    try (match goal with H : _ /\ _ |- _ => destruct H end; congruence).
Qed.

Lemma fge_band (t : Z) earned possible :
  In t [60; 70; 80; 90] -> 0 < possible <= 2 ^ 46 ->
  (Float.fge (percentage earned possible) (inject_Z t) = true <-> t * possible <= 100 * earned) /\
  (Float.fge (percentage earned possible) (inject_Z t) = false <-> 100 * earned < t * possible).
Proof.
  intros Ht Hp. pose proof (FloatBands.percentage_band t earned possible Ht Hp) as B.
  split; [exact B|]. split.
  - intros H. destruct (Z_lt_ge_dec (100 * earned) (t * possible)) as [C | C]; [exact C|].
    apply Z.ge_le in C. apply B in C. congruence.
  - intros H. apply not_true_is_false. intro C. apply B in C. lia.
Qed.

Lemma score_bands_spec
  (db : Session) (user_id quiz : uuid) (user_answers : list UserAnswer) (g : GradingResult) :
  grade_quiz_submission db user_id quiz user_answers = Ok g ->
  0 < max_score g <= 2 ^ 46 ->
  let e := earned_points g in
  let p := max_score g in
  (confidence_level g = "high" <-> 9 * p <= 10 * e) /\
  (confidence_level g = "medium" <-> 7 * p <= 10 * e < 9 * p) /\
  (confidence_level g = "low" <-> 10 * e < 7 * p) /\
  (detailed_feedback g
   = "Excellent work! You demonstrated strong understanding of the material."
   <-> 9 * p <= 10 * e) /\
  (detailed_feedback g
   = "Great job! You have a good grasp of the concepts with room for minor improvements."
   <-> 8 * p <= 10 * e < 9 * p) /\
  (detailed_feedback g
   = "Good effort! You understand the main concepts but should review some areas."
   <-> 7 * p <= 10 * e < 8 * p) /\
  (detailed_feedback g
   = "Fair performance. Focus on reviewing the areas where you had difficulties."
   <-> 6 * p <= 10 * e < 7 * p) /\
  (detailed_feedback g
   = "More practice needed. Review the material and try again."
   <-> 10 * e < 6 * p) /\
  (confidence_level g = "high" -> (90 <= overall_score g)%Q).
Proof.
  intros Hg Hp e p.
  destruct (grade_quiz_submission_fields _ _ _ _ _ Hg) as (_ & _ & Hs & _ & Hf & _ & _ & _ & Hc & _).
  fold e p in Hs, Hf, Hc.
  destruct (fge_band 60 e p ltac:(cbn; auto) Hp) as [T6 F6].
  destruct (fge_band 70 e p ltac:(cbn; auto) Hp) as [T7 F7].
  destruct (fge_band 80 e p ltac:(cbn; auto) Hp) as [T8 F8].
  destruct (fge_band 90 e p ltac:(cbn; auto) Hp) as [T9 F9].
  change (inject_Z 60) with 60%Q in T6, F6. change (inject_Z 70) with 70%Q in T7, F7.
  change (inject_Z 80) with 80%Q in T8, F8. change (inject_Z 90) with 90%Q in T9, F9.
  destruct (_calculate_confidence_level_cases (percentage e p)) as (C1 & C2 & C3).
  destruct (_generate_overall_feedback_cases (graded_answers g) (percentage e p))
    as (G1 & G2 & G3 & G4 & G5).
  rewrite Hc, Hf.
  split; [rewrite C1, T9; lia|]. split; [rewrite C2, F9, T7; lia|]. split; [rewrite C3, F7; lia|].
  split; [rewrite G1, T9; lia|]. split; [rewrite G2, F9, T8; lia|].
  split; [rewrite G3, F8, T7; lia|]. split; [rewrite G4, F7, T6; lia|].
  split; [rewrite G5, F6; lia|].
  intros H. apply C1 in H. apply FloatBands.fge_true in H. rewrite Hs.
  apply Qle_trans with (Float.round2 90); [vm_compute; discriminate | apply round2_le, H].
Qed.

(** X9. For a submission with [0 < max_score <= 2^46], the confidence
    level and the narrative feedback of the returned dict are decided by
    the points exactly, the double-precision computation of
    [earned / possible * 100] notwithstanding: "high" and "Excellent"
    when [earned_points / max_score >= 0.9], "medium" from 0.7 to below
    0.9, "low" below 0.7; "Great job" from 0.8 to below 0.9, "Good
    effort" from 0.7 to below 0.8, "Fair performance" from 0.6 to below
    0.7, "More practice needed" below 0.6.  A "high" confidence implies a
    reported [overall_score] of at least 90; the converse fails, since
    the bands use the unrounded score: 22499 points of 25000 are reported
    as 90.0 with confidence "medium". *)
Theorem X9_score_bands_follow_the_points
  (db : Session) (user_id quiz : uuid) (user_answers : list UserAnswer) (g : GradingResult) :
  grade_quiz_submission db user_id quiz user_answers = Ok g ->
  0 < max_score g <= 2 ^ 46 ->
  let e := earned_points g in
  let p := max_score g in
  (confidence_level g = "high" <-> 9 * p <= 10 * e) /\
  (confidence_level g = "medium" <-> 7 * p <= 10 * e < 9 * p) /\
  (confidence_level g = "low" <-> 10 * e < 7 * p) /\
  (detailed_feedback g
   = "Excellent work! You demonstrated strong understanding of the material."
   <-> 9 * p <= 10 * e) /\
  (detailed_feedback g
   = "Great job! You have a good grasp of the concepts with room for minor improvements."
   <-> 8 * p <= 10 * e < 9 * p) /\
  (detailed_feedback g
   = "Good effort! You understand the main concepts but should review some areas."
   <-> 7 * p <= 10 * e < 8 * p) /\
  (detailed_feedback g
   = "Fair performance. Focus on reviewing the areas where you had difficulties."
   <-> 6 * p <= 10 * e < 7 * p) /\
  (detailed_feedback g
   = "More practice needed. Review the material and try again."
   <-> 10 * e < 6 * p) /\
  (confidence_level g = "high" -> (90 <= overall_score g)%Q) /\
  (exists g0,
     grade_quiz_submission near_ninety_db 7%N 1%N [answer_to 10%N "a"] = Ok g0 /\
     earned_points g0 = 22499 /\ max_score g0 = 25000 /\
     overall_score g0 = 90%Q /\ confidence_level g0 = "medium").
Proof.
  intros Hg Hp e p.
  destruct (score_bands_spec db user_id quiz user_answers g Hg Hp)
    as (H1 & H2 & H3 & H4 & H5 & H6 & H7 & H8 & H9).
  repeat (split; [assumption |]).
  eexists. split; [vm_compute; reflexivity |]. repeat split.
Qed.

(** X9 at the "Paris" quiz: 10 points of 10, confidence "high". *)
Lemma X9_witness_paris :
  exists g, grade_quiz_submission paris_db 7%N 1%N [answer_to 10%N "paris "] = Ok g /\
            0 < max_score g <= 2 ^ 46 /\
            confidence_level g = "high" /\ (90 <= overall_score g)%Q.
Proof.
  eexists. split; [vm_compute; reflexivity |].
  assert (Hp : 0 < 10 <= 2 ^ 46) by (vm_compute; split; [reflexivity | discriminate]).
  split; [exact Hp |].
  destruct (X9_score_bands_follow_the_points paris_db 7%N 1%N
              [answer_to 10%N "paris "] _ eq_refl Hp) as (H1 & _ & _ & _ & _ & _ & _ & _ & H9 & _).
  assert (Hh : 9 * 10 <= 10 * 10) by (vm_compute; discriminate).
  split; [apply H1, Hh | apply H9, H1, Hh].
Defined.

Lemma graded_in_range db user_id quiz user_answers g :
  key_in_range db quiz -> questions_positive db quiz ->
  grade_quiz_submission db user_id quiz user_answers = Ok g ->
  forall r, In r (graded_answers g) ->
    0 <= r_points_awarded r <= r_points_possible r /\ 1 <= r_points_possible r.
Proof.
  intros Hk Hp Hg r Hr.
  apply grade_quiz_submission_ok in Hg as (HF & _).
  destruct (Forall2_In_r _ _ _ _ HF Hr) as (a & _ & id & q & _ & Hq & Hres).
  destruct (result_of_in_range db quiz id q a r Hk Hp Hq Hres) as (Hb & Hin & Hz & _ & Hpp).
  split; [exact Hb|]. rewrite Hpp. apply (Hp q Hin Hz).
Qed.

(** X10. With a key within [[0, question.points]], questions worth at
    least 1 point and at least one graded answer, the reported
    [overall_score] is a double nearest to a number of hundredths between
    0 and 100, and it differs from the exact percentage
    [100 * earned_points / max_score] by at most 0.005 + 2^-44, the three
    roundings of the double-precision computation included.  The same
    holds for the percentage of every breakdown row against the row's
    points. *)
Theorem X10_reported_score_is_within_half_a_hundredth
  (db : Session) (user_id quiz : uuid) (user_answers : list UserAnswer) (g : GradingResult) :
  key_in_range db quiz -> questions_positive db quiz ->
  grade_quiz_submission db user_id quiz user_answers = Ok g ->
  0 < max_score g ->
  let exact e p := (100 * inject_Z e / inject_Z p)%Q in
  let eps := ((1 # 200) + (1 # 17592186044416))%Q in
  (exact (earned_points g) (max_score g) - eps <= overall_score g)%Q /\
  (overall_score g <= exact (earned_points g) (max_score g) + eps)%Q /\
  (exists n, 0 <= n <= 10000 /\ overall_score g = Float.RN (inject_Z n / 100)) /\
  (forall row, In row (breakdown g) ->
     (exact (b_earned_points row) (b_possible_points row) - eps <= b_percentage row)%Q /\
     (b_percentage row <= exact (b_earned_points row) (b_possible_points row) + eps)%Q).
Proof.
  intros Hk Hq Hg Hp exact eps.
  destruct (grade_quiz_submission_fields _ _ _ _ _ Hg) as (_ & _ & Hs & Hb & _).
  destruct (grade_quiz_submission_ok _ _ _ _ _ Hg) as (_ & Hmax & Hearned & _).
  pose proof (sums_in_range (graded_answers g)
                (fun x Hx => proj1 (graded_in_range _ _ _ _ _ Hk Hq Hg x Hx))) as S.
  rewrite <- Hmax, <- Hearned in S.
  destruct (FloatError.round2_percentage_error (earned_points g) (max_score g) S Hp) as [E1 E2].
  rewrite <- Hs in E1, E2. unfold exact, eps.
  split; [lra |]. split; [lra |]. split.
  - rewrite Hs. apply FloatError.round2_percentage_hundredths; assumption.
  - intros row Hrow.
    destruct (breakdown_in_result db user_id quiz user_answers g Hg)
      as (_ & _ & _ & _ & _ & _ & _ & Hrange).
    destruct (Hrange Hk Hq row Hrow) as (R1 & R2 & _).
    rewrite Hb in Hrow.
    destruct (_create_score_breakdown_spec (graded_answers g)) as (_ & _ & _ & Hrows & _).
    destruct (Hrows row Hrow) as (_ & _ & Hp' & He' & Hpc).
    rewrite <- Hp', <- He' in Hpc.
    destruct (FloatError.round2_percentage_error (b_earned_points row) (b_possible_points row)
                R1 ltac:(lia)) as [F1 F2].
    rewrite <- Hpc in F1, F2. split; lra.
Qed.

(** X10 at the "Paris" quiz. *)
Lemma X10_witness_paris :
  key_in_range paris_db 1%N /\ questions_positive paris_db 1%N /\
  exists g, grade_quiz_submission paris_db 7%N 1%N [answer_to 10%N "paris "] = Ok g /\
            0 < max_score g /\
            (overall_score g <= 100 + ((1 # 200) + (1 # 17592186044416)))%Q.
Proof.
  split; [exact paris_key_in_range |]. split; [exact paris_questions_positive |].
  eexists. split; [vm_compute; reflexivity |].
  assert (Hp : 0 < 10) by reflexivity.
  split; [exact Hp |].
  exact (proj1 (proj2 (X10_reported_score_is_within_half_a_hundredth paris_db 7%N 1%N
                         [answer_to 10%N "paris "] _ paris_key_in_range
                         paris_questions_positive eq_refl Hp))).
Defined.

(** ** Submissions in which nothing is graded, and full marks *)

Lemma grade_answers_unknown db question_map st user_answers :
  (forall a, In a user_answers -> known question_map a = false) ->
  grade_answers db question_map st user_answers = Ok st.
Proof.
  induction user_answers as [| a rest IH]; intros H; [reflexivity|].
  cbn [grade_answers]. rewrite grade_answer_unknown by (apply H; left; reflexivity).
  cbn [res_bind]. apply IH. intros b Hb. apply H. right. exact Hb.
Qed.

(** X11. When the quiz exists and has a question, a submission none of
    whose answers names a question of the quiz (the empty submission in
    particular) is not an error: it returns the score 0 of 0 points, no
    graded answer, no breakdown row, the narrative "More practice
    needed", no suggestion, misconception or recommendation, and the
    confidence "low". *)
Theorem X11_nothing_graded_gives_score_zero
  (db : Session) (user_id quiz : uuid) (user_answers : list UserAnswer) :
  (exists q, In q (quizzes db) /\ quiz_pk q = quiz) ->
  (exists q, In q (quiz_questions db) /\ quiz_id q = quiz) ->
  (forall a, In a user_answers -> is_known db quiz a = false) ->
  grade_quiz_submission db user_id quiz user_answers = Ok (nothing_graded user_id quiz).
Proof.
  intros (qz & Hqz & Epk) (q & Hq & Eid) Hun. unfold grade_quiz_submission.
  destruct (find _ (quizzes db)) eqn:Ef.
  2:{ exfalso. exact (proj1 (find_quiz_none db quiz) Ef qz Hqz Epk). }
  destruct (questions_of db quiz) as [| q1 l] eqn:Eqs.
  { exfalso. exact (proj1 (questions_of_nil db quiz) Eqs q Hq Eid). }
  cbv beta iota zeta. rewrite <- Eqs. rewrite grade_answers_unknown.
  - vm_compute. reflexivity.
  - intros a Ha. rewrite known_is_known. apply Hun, Ha.
Qed.

(** X11 at the "Paris" quiz and the empty submission. *)
Lemma X11_witness_empty_submission :
  grade_quiz_submission paris_db 7%N 1%N [] = Ok (nothing_graded 7%N 1%N).
Proof.
  apply X11_nothing_graded_gives_score_zero.
  - eexists. split; [left; reflexivity | reflexivity].
  - eexists. split; [left; reflexivity | reflexivity].
  - intros a [].
Defined.

Lemma sums_equal results :
  (forall r, In r results -> r_points_awarded r = r_points_possible r) ->
  earned_of results = possible_of results.
Proof.
  induction results as [| r results IH]; intros H; [reflexivity|].
  change (r :: results) with ([r] ++ results)%list.
  rewrite earned_of_app, possible_of_app, IH by (intros r' Hr'; apply H; right; exact Hr').
  cbn. rewrite (H r) by (left; reflexivity). reflexivity.
Qed.

Lemma percentage_full p : 0 < p -> percentage p p = 100%Q.
Proof.
  intros Hp. unfold percentage. replace (0 <? p) with true by (symmetry; apply Z.ltb_lt; lia).
  rewrite int_truediv_same by exact Hp. vm_compute. reflexivity.
Qed.

Lemma percentage_none p : percentage 0 p = 0%Q.
Proof.
  unfold percentage. destruct (0 <? p); [|reflexivity].
  rewrite int_truediv_zero. vm_compute. reflexivity.
Qed.

Lemma no_incorrect_no_advice results :
  incorrect results = [] ->
  _generate_suggestions results = [] /\
  _identify_misconceptions results = [] /\
  _generate_recommendations results = [].
Proof.
  intros H. unfold _generate_suggestions, _identify_misconceptions, _generate_recommendations.
  rewrite H. cbn [length map Z.of_nat Z.ltb Z.compare app].
  rewrite !fgt_zero by (try lia; vm_compute; discriminate). auto.
Qed.

(** X12. When every graded answer is correct with the full points of its
    question and at least one point is possible, the earned points equal
    [max_score], the overall score is exactly 100, the confidence is
    "high", the narrative is "Excellent work", there is no suggestion,
    misconception or recommendation, and every breakdown row with
    positive possible points has percentage 100.  Questions of the quiz
    that were not answered do not count. *)
Theorem X12_full_marks_give_score_100
  (db : Session) (user_id quiz : uuid) (user_answers : list UserAnswer) (g : GradingResult) :
  grade_quiz_submission db user_id quiz user_answers = Ok g ->
  (forall r, In r (graded_answers g) ->
             r_is_correct r = true /\ r_points_awarded r = r_points_possible r) ->
  0 < max_score g ->
  earned_points g = max_score g /\
  overall_score g = 100%Q /\
  confidence_level g = "high" /\
  detailed_feedback g
  = "Excellent work! You demonstrated strong understanding of the material." /\
  suggested_improvements g = [] /\
  misconceptions_identified g = [] /\
  next_learning_recommendations g = [] /\
  (forall row, In row (breakdown g) -> 0 < b_possible_points row ->
               b_percentage row = 100%Q).
Proof.
  intros Hg Hall Hp.
  destruct (grade_quiz_submission_fields _ _ _ _ _ Hg)
    as (_ & _ & Hs & Hb & Hf & Hsu & Hmi & Hre & Hc & _).
  destruct (grade_quiz_submission_ok _ _ _ _ _ Hg) as (_ & Hmax & Hearned & _).
  assert (E : earned_points g = max_score g).
  { rewrite Hearned, Hmax. apply sums_equal. intros r Hr. apply Hall, Hr. }
  rewrite E, (percentage_full _ Hp) in Hs, Hf, Hc.
  destruct (no_incorrect_no_advice (graded_answers g)) as (A1 & A2 & A3).
  { apply incorrect_nil. intros r Hr. apply Hall, Hr. }
  split; [exact E|]. split; [rewrite Hs; vm_compute; reflexivity|].
  split; [rewrite Hc; reflexivity|]. split; [rewrite Hf; reflexivity|].
  split; [congruence|]. split; [congruence|]. split; [congruence|].
  intros row Hrow Hpos. rewrite Hb in Hrow.
  destruct (_create_score_breakdown_spec (graded_answers g)) as (_ & _ & _ & Hrows & _).
  destruct (Hrows row Hrow) as (_ & _ & Hp' & He' & Hpc).
  rewrite Hpc. rewrite sums_equal.
  - rewrite <- Hp'. rewrite (percentage_full _ Hpos). vm_compute. reflexivity.
  - intros r Hr. apply of_type_In in Hr as [Hr _]. apply Hall, Hr.
Qed.

(** X12 at the quiz of two questions, only the second of which is
    answered. *)
Lemma X12_witness_one_of_two_answered :
  exists g, grade_quiz_submission zero_point_db 7%N 1%N [answer_to 11%N "A"] = Ok g /\
            max_score g = 1 /\ overall_score g = 100%Q.
Proof.
  eexists. split; [vm_compute; reflexivity |].
  split; [reflexivity |].
  refine (proj1 (proj2 (X12_full_marks_give_score_100 zero_point_db 7%N 1%N
                          [answer_to 11%N "A"] _ eq_refl _ _))).
  - intros r Hr. simpl in Hr. destruct Hr as [<- | []]. split; reflexivity.
  - reflexivity.
Defined.

(** ** The order of the submitted answers, and one more answer *)

Lemma grade_answers_omap db question_map user_answers results possible earned st' :
  grade_answers db question_map (results, possible, earned) user_answers = Ok st' ->
  let new := omap (result_for db question_map) user_answers in
  st' = ((results ++ new)%list, possible + possible_of new, earned + earned_of new).
Proof.
  revert results possible earned st'.
  induction user_answers as [| a rest IH]; intros results possible earned st';
    cbn [grade_answers omap list_omap].
  - intros E. injection E as <-. cbn. rewrite app_nil_r. f_equal; [f_equal|]; lia.
  - intros E. unfold grade_answer in E.
    destruct (ua_question_id a) as [id |] eqn:Eid.
    2:{ assert (RF : result_for db question_map a = None)
          by (unfold result_for, grade_answer; rewrite Eid; reflexivity).
        rewrite RF. cbn [res_bind] in E. apply IH, E. }
    destruct (question_map !! id) as [q |] eqn:Eq.
    2:{ assert (RF : result_for db question_map a = None)
          by (unfold result_for, grade_answer; rewrite Eid, Eq; reflexivity).
        rewrite RF. cbn [res_bind] in E. apply IH, E. }
    destruct (_grade_single_answer q _ _) as [[[c p] fb] | e] eqn:Eg; cbn [res_bind app] in E;
      [| discriminate].
    set (r := {| r_question_id := id;
                 r_question_text := question_text q;
                 r_user_answer := default "" (ua_answer_text a);
                 r_is_correct := c;
                 r_points_awarded := p;
                 r_points_possible := points q;
                 r_feedback := fb;
                 r_question_type := value (question_type q) |}) in *.
    assert (RF : result_for db question_map a = Some r)
      by (unfold result_for, grade_answer; rewrite Eid, Eq, Eg; reflexivity).
    rewrite RF. apply IH in E. cbn zeta in E. rewrite E.
    set (new := omap (result_for db question_map) rest).
    rewrite <- app_assoc. cbn [app]. f_equal; [f_equal |].
    + change (r :: new) with ([r] ++ new)%list. rewrite possible_of_app. cbn. lia.
    + change (r :: new) with ([r] ++ new)%list. rewrite earned_of_app. cbn.
      destruct c; [lia |].
      assert (p = 0) by (apply (proj1 (_grade_single_answer_range _ _ _ _ _ _ Eg)); reflexivity).
      lia.
Qed.

Lemma sum_Z_Permutation l l' : Permutation l l' -> sum_Z l = sum_Z l'.
Proof. unfold sum_Z. induction 1; cbn [fold_right] in *; lia. Qed.

Lemma possible_of_Permutation l l' : Permutation l l' -> possible_of l = possible_of l'.
Proof. intros H. apply sum_Z_Permutation, Permutation_map, H. Qed.

Lemma earned_of_Permutation l l' : Permutation l l' -> earned_of l = earned_of l'.
Proof. intros H. apply sum_Z_Permutation, Permutation_map, H. Qed.

Lemma of_type_Permutation t l l' : Permutation l l' -> Permutation (of_type t l) (of_type t l').
Proof.
  unfold of_type. induction 1 as [| x l l' H IH | x y l | l l' l'' H1 IH1 H2 IH2];
    cbn [List.filter].
  - constructor.
  - destruct (String.eqb _ _); [constructor|]; exact IH.
  - destruct (String.eqb (r_question_type y) t); destruct (String.eqb (r_question_type x) t);
      try reflexivity. constructor.
  - etransitivity; eassumption.
Qed.

Lemma incorrect_Permutation l l' : Permutation l l' -> Permutation (incorrect l) (incorrect l').
Proof.
  unfold incorrect. induction 1 as [| x l l' H IH | x y l | l l' l'' H1 IH1 H2 IH2];
    cbn [List.filter].
  - constructor.
  - destruct (negb _); [constructor|]; exact IH.
  - destruct (negb (r_is_correct y)); destruct (negb (r_is_correct x));
      try reflexivity. constructor.
  - etransitivity; eassumption.
Qed.

Lemma row_for_Permutation l l' t : Permutation l l' -> row_for l t = row_for l' t.
Proof.
  intros H. pose proof (of_type_Permutation t l l' H) as P. unfold row_for.
  rewrite (possible_of_Permutation _ _ P), (earned_of_Permutation _ _ P),
    (Permutation_length P). reflexivity.
Qed.

Lemma first_seen_Permutation l l' :
  Permutation l l' -> Permutation (first_seen l) (first_seen l').
Proof.
  intros H. apply NoDup_Permutation; try apply first_seen_spec.
  intros x. rewrite !list_elem_of_In.
  rewrite (proj2 (first_seen_spec l) x), (proj2 (first_seen_spec l') x).
  split; apply Permutation_in; [exact H | symmetry; exact H].
Qed.

Lemma _create_score_breakdown_Permutation l l' :
  Permutation l l' ->
  Permutation (_create_score_breakdown l) (_create_score_breakdown l').
Proof.
  intros H. rewrite !_create_score_breakdown_rows_for.
  rewrite (map_ext _ _ (fun t => row_for_Permutation l l' t H)).
  apply Permutation_map, first_seen_Permutation, Permutation_map, H.
Qed.

(** X13. The order of the submitted answers does not matter for the
    score: grading a permutation of the answers returns the same
    [max_score], [earned_points], [overall_score], confidence level,
    narrative feedback and recommendations, and permutations of the
    graded answers, of the breakdown rows, of the misconceptions and of
    the suggestions. *)
Theorem X13_score_does_not_depend_on_the_order_of_answers
  (db : Session) (user_id quiz : uuid) (user_answers user_answers' : list UserAnswer)
  (g : GradingResult) :
  Permutation user_answers user_answers' ->
  grade_quiz_submission db user_id quiz user_answers = Ok g ->
  exists g',
    grade_quiz_submission db user_id quiz user_answers' = Ok g' /\
    Permutation (graded_answers g) (graded_answers g') /\
    max_score g' = max_score g /\
    earned_points g' = earned_points g /\
    overall_score g' = overall_score g /\
    confidence_level g' = confidence_level g /\
    detailed_feedback g' = detailed_feedback g /\
    next_learning_recommendations g' = next_learning_recommendations g /\
    Permutation (breakdown g) (breakdown g') /\
    Permutation (misconceptions_identified g) (misconceptions_identified g') /\
    Permutation (suggested_improvements g) (suggested_improvements g').
Proof.
  intros HP Hg.
  destruct (grade_quiz_submission_cases db user_id quiz user_answers)
    as [[_ E] | [(_ & _ & E) | (Hq & Hqs & _)]]; [congruence | congruence |].
  destruct (grade_quiz_submission_cases db user_id quiz user_answers')
    as [[C _] | [(_ & C & _) | (_ & _ & g' & Hg')]]; [contradiction | contradiction |].
  exists g'. split; [exact Hg'|].
    destruct (grade_quiz_submission_fields _ _ _ _ _ Hg)
      as (_ & _ & Hs & Hb & Hf & Hsu & Hmi & Hre & Hc & _).
    destruct (grade_quiz_submission_fields _ _ _ _ _ Hg')
      as (_ & _ & Hs' & Hb' & Hf' & Hsu' & Hmi' & Hre' & Hc' & _).
    assert (R : Permutation (graded_answers g) (graded_answers g') /\
                max_score g' = max_score g /\ earned_points g' = earned_points g).
    { clear - HP Hg Hg'. unfold grade_quiz_submission in Hg, Hg'.
      destruct (find _ (quizzes db)); [| discriminate].
      destruct (questions_of db quiz) as [| q0 l]; [discriminate |].
      set (qm := question_map_of (q0 :: l)) in *.
      destruct (grade_answers db qm _ user_answers) as [st | e] eqn:E; cbn [res_bind] in Hg;
        [| discriminate].
      destruct (grade_answers db qm _ user_answers') as [st' | e] eqn:E'; cbn [res_bind] in Hg';
        [| discriminate].
      apply grade_answers_omap in E, E'. cbn zeta in E, E'. subst st st'.
      injection Hg as <-. injection Hg' as <-.
      cbn [graded_answers max_score earned_points app].
      pose proof (omap_Permutation (result_for db qm) _ _ HP) as P.
      rewrite (possible_of_Permutation _ _ P), (earned_of_Permutation _ _ P). auto. }
    destruct R as (RP & Rm & Re).
    split; [exact RP|]. split; [exact Rm|]. split; [exact Re|].
    rewrite Hs, Hs', Hc, Hc', Hf, Hf', Re, Rm.
    split; [reflexivity|]. split; [reflexivity|]. split; [reflexivity|].
    pose proof (incorrect_Permutation _ _ RP) as IP.
    split.
    { rewrite Hre, Hre'. unfold _generate_recommendations.
      rewrite (Permutation_length RP), (Permutation_length IP). reflexivity. }
    split; [rewrite Hb, Hb'; apply _create_score_breakdown_Permutation, RP|].
    split; [rewrite Hmi, Hmi'; apply Permutation_map, IP|].
    rewrite Hsu, Hsu'. unfold _generate_suggestions.
    rewrite (Permutation_length RP), (Permutation_length IP).
    destruct (Float.fgt _ _); [apply Permutation_app_tail|]; apply Permutation_map, IP.
Qed.

(** X13 at the quiz of two questions, answered in the two orders. *)
Lemma X13_witness_two_orders :
  let a := answer_to 10%N "Plants make sugar." in
  let b := answer_to 11%N "b" in
  Permutation [a; b] [b; a] /\
  exists g g',
    grade_quiz_submission zero_point_db 7%N 1%N [a; b] = Ok g /\
    grade_quiz_submission zero_point_db 7%N 1%N [b; a] = Ok g' /\
    overall_score g' = overall_score g.
Proof.
  intros a b.
  assert (HP : Permutation [a; b] [b; a]) by apply perm_swap.
  split; [exact HP |].
  eexists.
  destruct (X13_score_does_not_depend_on_the_order_of_answers zero_point_db 7%N 1%N
              [a; b] [b; a] _ HP eq_refl) as (g' & Hg' & _ & _ & _ & Hs & _).
  exists g'. split; [reflexivity |]. split; [exact Hg' | exact Hs].
Defined.

Lemma percentage_mono e p e' p' :
  0 < p -> 0 < p' -> e * p' <= e' * p -> (percentage e p <= percentage e' p')%Q.
Proof.
  intros Hp Hp' H. unfold percentage.
  replace (0 <? p) with true by (symmetry; apply Z.ltb_lt; lia).
  replace (0 <? p') with true by (symmetry; apply Z.ltb_lt; lia).
  unfold Float.fmul, Float.int_truediv. apply FloatFacts.RN_le.
  apply Qmult_le_compat_r; [|apply float_of_int_nonneg; lia].
  apply FloatFacts.RN_le.
  assert (P : (0 < inject_Z p)%Q) by (change 0%Q with (inject_Z 0); rewrite <- Zlt_Qlt; lia).
  assert (P' : (0 < inject_Z p')%Q) by (change 0%Q with (inject_Z 0); rewrite <- Zlt_Qlt; lia).
  apply Qle_shift_div_r; [exact P|].
  setoid_replace (inject_Z e' / inject_Z p' * inject_Z p)%Q
    with (inject_Z e' * inject_Z p / inject_Z p')%Q using relation Qeq
    by (field; intro C; rewrite C in P'; discriminate).
  apply Qle_shift_div_l; [exact P'|].
  rewrite <- !inject_Z_mult, <- Zle_Qle. exact H.
Qed.

Lemma percentage_nonneg e p : 0 <= e -> (0 <= percentage e p)%Q.
Proof.
  intros He. unfold percentage. destruct (Z.ltb_spec 0 p) as [Hp | Hp]; [|discriminate].
  apply fmul_nonneg; [|apply float_of_int_nonneg; lia].
  unfold Float.int_truediv. apply FloatFacts.RN_nonneg.
  apply Qle_shift_div_l; [change 0%Q with (inject_Z 0); rewrite <- Zlt_Qlt; lia|].
  rewrite Qmult_0_l. apply FloatFacts.inject_Z_nonneg, He.
Qed.

Lemma grade_quiz_submission_results db user_id quiz user_answers g :
  grade_quiz_submission db user_id quiz user_answers = Ok g ->
  graded_answers g
  = omap (result_for db (question_map_of (questions_of db quiz))) user_answers.
Proof.
  unfold grade_quiz_submission.
  destruct (find _ (quizzes db)); [| discriminate].
  destruct (questions_of db quiz) as [| q0 l] eqn:Eqs; [discriminate |].
  destruct (grade_answers _ _ _ _) as [st' | e] eqn:E; cbn [res_bind]; [| discriminate].
  apply grade_answers_omap in E. cbn zeta in E. subst st'.
  intros H. injection H as <-. reflexivity.
Qed.

(** X14. Submitting one more answer, when every correct key entry awards
    between 0 and its question's points and every question is worth at
    least 1 point: an answer to a question that is not of the quiz
    changes nothing; an answer to a question of the quiz appends one
    result and adds its points to the two totals, and the overall score
    does not decrease when that result has the full points of its
    question, and does not increase when it has 0 points. *)
Theorem X14_one_more_answer_moves_the_score_its_way
  (db : Session) (user_id quiz : uuid) (user_answers : list UserAnswer) (answer : UserAnswer)
  (g g' : GradingResult) :
  key_in_range db quiz -> questions_positive db quiz ->
  grade_quiz_submission db user_id quiz user_answers = Ok g ->
  grade_quiz_submission db user_id quiz (user_answers ++ [answer]) = Ok g' ->
  (is_known db quiz answer = false -> g' = g) /\
  (is_known db quiz answer = true ->
   exists r,
     graded_answers g' = (graded_answers g ++ [r])%list /\
     max_score g' = max_score g + r_points_possible r /\
     earned_points g' = earned_points g + r_points_awarded r /\
     0 <= r_points_awarded r <= r_points_possible r /\
     (r_points_awarded r = r_points_possible r -> (overall_score g <= overall_score g')%Q) /\
     (r_points_awarded r = 0 -> (overall_score g' <= overall_score g)%Q)).
Proof.
  intros Hk Hq Hg Hg'. split.
  - intros Hun.
    pose proof (grade_quiz_submission_skip db user_id quiz user_answers answer [] Hun) as E.
    rewrite app_nil_r in E. congruence.
  - intros Hkn.
    destruct (grade_quiz_submission_fields _ _ _ _ _ Hg) as (_ & _ & Hs & _).
    destruct (grade_quiz_submission_fields _ _ _ _ _ Hg') as (_ & _ & Hs' & _).
    destruct (grade_quiz_submission_ok _ _ _ _ _ Hg) as (HF & Hmax & Hearned & _).
    destruct (grade_quiz_submission_ok _ _ _ _ _ Hg') as (HF' & Hmax' & Hearned' & _).
    pose proof (grade_quiz_submission_results _ _ _ _ _ Hg) as R.
    pose proof (grade_quiz_submission_results _ _ _ _ _ Hg') as R'.
    set (qm := question_map_of (questions_of db quiz)) in *.
    rewrite omap_app in R'. rewrite <- R in R'. cbn [omap list_omap] in R'.
    apply Forall2_length in HF, HF'.
    rewrite List.filter_app, length_app in HF'. cbn [List.filter] in HF'.
    unfold qm in HF'. rewrite known_is_known, Hkn in HF'. cbn [length] in HF'.
    destruct (result_for db qm answer) as [r |].
    2:{ exfalso. rewrite R', app_nil_r in HF'. unfold qm in HF. lia. }
    exists r. split; [exact R'|].
    assert (Hr : In r (graded_answers g')) by (rewrite R'; apply in_or_app; right; left; reflexivity).
    destruct (graded_in_range _ _ _ _ _ Hk Hq Hg' r Hr) as [Hb Hpos].
    pose proof (sums_in_range (graded_answers g)
                  (fun x Hx => proj1 (graded_in_range _ _ _ _ _ Hk Hq Hg x Hx))) as S.
    rewrite R', possible_of_app in Hmax'. rewrite R', earned_of_app in Hearned'.
    cbn in Hmax', Hearned'. rewrite Z.add_0_r in Hmax', Hearned'.
    rewrite <- Hmax in Hmax'. rewrite <- Hearned in Hearned'. rewrite <- Hmax, <- Hearned in S.
    split; [exact Hmax'|]. split; [exact Hearned'|]. split; [exact Hb|].
    rewrite Hs, Hs', Hmax', Hearned'.
    set (e := earned_points g) in *. set (p := max_score g) in *.
    set (x := r_points_possible r) in *.
    split.
    + intros ->. apply round2_le.
      destruct (Z.eq_dec p 0) as [Hz | Hnz].
      * replace e with 0 by lia. rewrite percentage_none. apply percentage_nonneg. lia.
      * apply percentage_mono; try lia; nia.
    + intros ->. apply round2_le. rewrite Z.add_0_r.
      destruct (Z.eq_dec p 0) as [Hz | Hnz].
      * replace e with 0 by lia. rewrite !percentage_none. apply Qle_refl.
      * apply percentage_mono; try lia; nia.
Qed.

(** X14 at the "Paris" quiz: a wrong answer after the right one. *)
Lemma X14_witness_paris :
  key_in_range paris_db 1%N /\ questions_positive paris_db 1%N /\
  exists g g',
    grade_quiz_submission paris_db 7%N 1%N [answer_to 10%N "paris "] = Ok g /\
    grade_quiz_submission paris_db 7%N 1%N [answer_to 10%N "paris "; answer_to 10%N "Rome"]
    = Ok g' /\
    (overall_score g' <= overall_score g)%Q.
Proof.
  split; [exact paris_key_in_range |]. split; [exact paris_questions_positive |].
  eexists. eexists. split; [vm_compute; reflexivity |]. split; [vm_compute; reflexivity |].
  destruct (X14_one_more_answer_moves_the_score_its_way paris_db 7%N 1%N
              [answer_to 10%N "paris "] (answer_to 10%N "Rome") _ _
              paris_key_in_range paris_questions_positive eq_refl eq_refl) as (_ & H).
  destruct (H eq_refl) as (r & Hr & _ & _ & _ & _ & Hdown).
  apply Hdown. apply app_inj_tail in Hr as [_ <-]. reflexivity.
Defined.

(** ** The normal form of a submitted answer *)

Lemma lower_char_idem c : lower_char (lower_char c) = lower_char c.
Proof. destruct c as [[] [] [] [] [] [] [] []]; reflexivity. Qed.

Lemma lower_idem s : lower (lower s) = lower s.
Proof. induction s as [| c s IH]; simpl; [reflexivity|]. rewrite lower_char_idem, IH. reflexivity. Qed.

Lemma lstrip_lower s : lstrip (lower s) = lower (lstrip s).
Proof.
  induction s as [| c s IH]; simpl; [reflexivity|].
  rewrite isspace_lower_char. destruct (isspace c); [exact IH | reflexivity].
Qed.

Lemma lower_empty s : lower s = "" <-> s = "".
Proof. destruct s; simpl; split; congruence. Qed.

Lemma rstrip_lower s : rstrip (lower s) = lower (rstrip s).
Proof.
  induction s as [| c s IH]; simpl; [reflexivity|].
  rewrite IH, isspace_lower_char. destruct (rstrip s) as [| c' r]; simpl.
  - destruct (isspace c); reflexivity.
  - reflexivity.
Qed.

Lemma strip_lower s : strip (lower s) = lower (strip s).
Proof. unfold strip. rewrite lstrip_lower, rstrip_lower. reflexivity. Qed.

Lemma lstrip_clean s : starts_clean s = true -> lstrip s = s.
Proof. destruct s as [| c s]; simpl; [reflexivity|]. destruct (isspace c); [discriminate | reflexivity]. Qed.

Lemma starts_clean_lstrip s : starts_clean (lstrip s) = true.
Proof.
  induction s as [| c s IH]; simpl; [reflexivity|].
  destruct (isspace c) eqn:E; [exact IH | simpl; rewrite E; reflexivity].
Qed.

Lemma starts_clean_rstrip s : starts_clean s = true -> starts_clean (rstrip s) = true.
Proof.
  destruct s as [| c s]; simpl; [reflexivity|]. intros H.
  destruct (rstrip s); destruct (isspace c) eqn:Ec; simpl; rewrite ?Ec;
    try reflexivity; discriminate.
Qed.

Lemma rstrip_idem s : rstrip (rstrip s) = rstrip s.
Proof.
  induction s as [| c s IH]; simpl; [reflexivity|].
  destruct (rstrip s) as [| c' r] eqn:E.
  - destruct (isspace c) eqn:Ec; simpl; [reflexivity | rewrite Ec; reflexivity].
  - change (rstrip (String c (String c' r)))
      with (match rstrip (String c' r) with
            | EmptyString => if isspace c then EmptyString else String c EmptyString
            | r' => String c r'
            end).
    rewrite IH. reflexivity.
Qed.

Lemma strip_idem s : strip (strip s) = strip s.
Proof.
  unfold strip. rewrite (lstrip_clean (rstrip (lstrip s))).
  - apply rstrip_idem.
  - apply starts_clean_rstrip, starts_clean_lstrip.
Qed.

Lemma normalize_idem s : normalize (normalize s) = normalize s.
Proof.
  unfold normalize. rewrite <- strip_lower, lower_idem. rewrite strip_lower, <- strip_lower.
  rewrite strip_idem. reflexivity.
Qed.

Lemma blank_of_normalize s : blank (normalize s) = blank s.
Proof.
  destruct (blank s) eqn:E.
  - apply blank_normalize. rewrite normalize_idem. apply blank_normalize, E.
  - destruct (blank (normalize s)) eqn:E'; [|reflexivity].
    apply blank_normalize in E'. rewrite normalize_idem in E'.
    apply blank_normalize in E'. congruence.
Qed.

Lemma blank_lower s : blank (lower s) = blank s.
Proof.
  destruct (blank s) eqn:E.
  - apply blank_spec. rewrite all_space_lower. apply blank_spec, E.
  - destruct (blank (lower s)) eqn:E'; [|reflexivity].
    apply blank_spec in E'. rewrite all_space_lower in E'. apply blank_spec in E'. congruence.
Qed.

(** A type grader other than the essay one reads the submitted answer
    only through its normal form. *)
Lemma grade_by_normal_form question user_answer user_answer' correct_answers :
  question_type question <> ESSAY ->
  normalize user_answer = normalize user_answer' ->
  _grade_single_answer question user_answer correct_answers
  = _grade_single_answer question user_answer' correct_answers.
Proof.
  intros Ht E. unfold _grade_single_answer.
  destruct (question_type question); cbn [value grade_by_tag]; cbn -[_grade_mcq _grade_true_false _grade_fill_blank].
  - unfold _grade_mcq. rewrite E. reflexivity.
  - unfold _grade_true_false. rewrite E. reflexivity.
  - unfold _grade_fill_blank. rewrite E.
    assert (B : blank user_answer = blank user_answer').
    { rewrite <- (blank_of_normalize user_answer), <- (blank_of_normalize user_answer'), E.
      reflexivity. }
    rewrite B. reflexivity.
  - exfalso. apply Ht. reflexivity.
Qed.

(** The essay grader reads the submitted answer through its length, its
    being blank and its lower-case form. *)
Lemma essay_by_lower user_answer user_answer' correct_answers :
  String.length user_answer = String.length user_answer' ->
  lower user_answer = lower user_answer' ->
  _grade_essay user_answer correct_answers = _grade_essay user_answer' correct_answers.
Proof.
  intros L E.
  assert (B : blank user_answer = blank user_answer')
    by (rewrite <- (blank_lower user_answer), <- (blank_lower user_answer'), E; reflexivity).
  assert (T : essay_terms user_answer correct_answers = essay_terms user_answer' correct_answers).
  { unfold essay_terms, count_found. rewrite E. reflexivity. }
  unfold _grade_essay. rewrite B, L, T. reflexivity.
Qed.

(** X15. The multiple-choice, true/false and fill-blank graders read the
    submitted answer only through its normal form
    [answer.lower().strip()], which is idempotent: two answers with the
    same normal form get the same grade, and an answer gets the grade of
    its normal form; case and surrounding whitespace never matter.  The
    essay grader reads the raw answer through its length and its
    lower-case form: two answers of the same length that differ in case
    only get the same grade, while padding a short answer with spaces
    changes its grade (here from the 1-point attempt credit to 0
    points). *)
Theorem X15_answers_are_graded_by_their_normal_form :
  (forall s, normalize (normalize s) = normalize s) /\
  (forall question user_answer user_answer' correct_answers,
     question_type question <> ESSAY ->
     normalize user_answer = normalize user_answer' ->
     _grade_single_answer question user_answer correct_answers
     = _grade_single_answer question user_answer' correct_answers) /\
  (forall question user_answer correct_answers,
     question_type question <> ESSAY ->
     _grade_single_answer question (normalize user_answer) correct_answers
     = _grade_single_answer question user_answer correct_answers) /\
  (forall user_answer user_answer' correct_answers,
     String.length user_answer = String.length user_answer' ->
     lower user_answer = lower user_answer' ->
     _grade_essay user_answer correct_answers = _grade_essay user_answer' correct_answers) /\
  (let correct_answers := [key_entry 10%N "photosynthesis" 10] in
   let padding := "                                " in
   normalize ("Plants make sugar." +:+ padding) = normalize "Plants make sugar." /\
   _grade_essay "Plants make sugar." correct_answers
   = Ok (true, 1, "Response is too short. Please provide more detail and explanation.") /\
   _grade_essay ("Plants make sugar." +:+ padding) correct_answers
   = Ok (true, 0, "Response needs more key concepts and details.")).
Proof.
  split; [exact normalize_idem |].
  split; [exact grade_by_normal_form |].
  split.
  - intros question user_answer correct_answers Ht.
    apply grade_by_normal_form; [exact Ht | apply normalize_idem].
  - split; [exact essay_by_lower |].
    repeat split; vm_compute; reflexivity.
Qed.

(** ** Questions without a correct key entry *)




(** ** The word-overlap tier of the fill-blank grader *)

(** X17. In the loop body of the fill-blank grader, for an entry that
    the answer neither equals nor contains nor is contained in (and a key
    of at most [2^53] words), the 70%-credit tier fires exactly when at
    least four fifths of the key's distinct words are among the answer's
    words; otherwise the loop goes on to the next entry.  For a key of at
    most four distinct words this means that all of them must be among
    the answer's words. *)
Theorem X17_word_overlap_tier_needs_four_fifths_of_the_key_words
  (user_answer_lower : string) (correct_answer : QuizAnswer) :
  let correct_text_lower := normalize (answer_text correct_answer) in
  let correct_words := words correct_text_lower in
  let user_words := words user_answer_lower in
  user_answer_lower <> correct_text_lower ->
  contains correct_text_lower user_answer_lower = false ->
  contains user_answer_lower correct_text_lower = false ->
  Z.of_nat (size correct_words) <= 2 ^ 53 ->
  (4 * Z.of_nat (size correct_words) <= 5 * Z.of_nat (size (correct_words ∩ user_words)) ->
   fill_blank_step user_answer_lower correct_answer
   = Ok (Some (true, partial_credit (points_awarded correct_answer) Float.f0_7,
               "Partially correct. Consider reviewing the exact terminology."))) /\
  (5 * Z.of_nat (size (correct_words ∩ user_words)) < 4 * Z.of_nat (size correct_words) ->
   fill_blank_step user_answer_lower correct_answer = Ok None) /\
  ((size correct_words <= 4)%nat ->
   (fill_blank_step user_answer_lower correct_answer <> Ok None <->
    correct_words ⊆ user_words)).
Proof.
  intros ctl cw uw Hne H1 H2 Hn.
  pose proof (fill_blank_step_denominator user_answer_lower correct_answer H1) as Hd.
  fold ctl in Hd. fold cw in Hd.
  assert (A : 4 * Z.of_nat (size cw) <= 5 * Z.of_nat (size (cw ∩ uw)) ->
   fill_blank_step user_answer_lower correct_answer
   = Ok (Some (true, partial_credit (points_awarded correct_answer) Float.f0_7,
               "Partially correct. Consider reviewing the exact terminology."))).
  { intros H. apply fill_blank_step_overlap; assumption. }
  assert (B : 5 * Z.of_nat (size (cw ∩ uw)) < 4 * Z.of_nat (size cw) ->
              fill_blank_step user_answer_lower correct_answer = Ok None).
  { intros H. unfold fill_blank_step. fold ctl.
    destruct (String.eqb_spec user_answer_lower ctl) as [E | _]; [contradiction |].
    rewrite H1, H2. cbn [orb]. fold cw uw. rewrite truediv_ok by lia. cbn [res_bind].
    rewrite (not_true_is_false (Float.fge _ _)); [reflexivity|].
    intro C. apply FloatBands.fge_ratio_iff in C; lia. }
  split; [exact A|]. split; [exact B|].
  intros Hsmall.
  assert (Hsub : cw ∩ uw ⊆ cw) by apply intersection_subseteq_l.
  pose proof (subseteq_size _ _ Hsub) as Hle.
  split.
  - intros Hfire.
    destruct (Z_lt_ge_dec (5 * Z.of_nat (size (cw ∩ uw))) (4 * Z.of_nat (size cw))) as [C | C].
    + exfalso. apply Hfire, B, C.
    + assert (Heq : (size cw <= size (cw ∩ uw))%nat) by lia.
      apply subseteq_intersection. apply (set_subseteq_size_equiv _ _ Hsub Heq).
  - intros Hall Hnone.
    assert (Heq : cw ∩ uw ≡ cw) by (apply subseteq_intersection; exact Hall).
    rewrite A in Hnone; [discriminate|]. rewrite Heq. lia.
Qed.

(** X17 at a key of four words, three of which are in the answer: the
    loop goes on. *)
Lemma X17_witness_three_of_four :
  fill_blank_step "beta alpha gamma zzz" (key_entry 10%N "alpha beta gamma delta" 10)
  = Ok None.
Proof.
  refine (proj1 (proj2 (X17_word_overlap_tier_needs_four_fifths_of_the_key_words
                          "beta alpha gamma zzz" (key_entry 10%N "alpha beta gamma delta" 10)
                          _ _ _ _)) _).
  - vm_compute. discriminate.
  - vm_compute. reflexivity.
  - vm_compute. reflexivity.
  - vm_compute. discriminate.
  - vm_compute. reflexivity.
Defined.

(** ** The essay grader on long answers *)

Lemma essay_terms_nil user_answer : essay_terms user_answer [] = (0, 0).
Proof. reflexivity. Qed.

Lemma fmin_ratio found total :
  0 <= found <= total -> 0 < total ->
  Float.fmin (Float.int_truediv found total) Float.f1_0 = Float.int_truediv found total.
Proof.
  intros Hf Ht. destruct (FloatFacts.int_truediv_unit found total Hf Ht) as [_ R1].
  unfold Float.fmin. change Float.f1_0 with 1%Q.
  apply Qle_bool_iff in R1. rewrite R1. reflexivity.
Qed.

Lemma essay_long_answer user_answer correct_answers :
  blank user_answer = false ->
  (50 <= String.length user_answer)%nat ->
  let found := fst (essay_terms user_answer correct_answers) in
  let total := snd (essay_terms user_answer correct_answers) in
  0 <= found <= total /\
  (total = 0 ->
   _grade_essay user_answer correct_answers = Ok (true, 0, "Essay response received.")) /\
  (0 < total <= 2 ^ 53 ->
   exists first rest,
     correct_answers = first :: rest /\
     let points :=
       partial_credit (points_awarded first) (Float.int_truediv found total) in
     (4 * total <= 5 * found ->
      _grade_essay user_answer correct_answers
      = Ok (true, points, "Strong response with good coverage of key concepts.")) /\
     (5 * found < 4 * total -> total <= 2 * found ->
      _grade_essay user_answer correct_answers
      = Ok (true, points, "Good response but could include more key concepts.")) /\
     (2 * found < total ->
      _grade_essay user_answer correct_answers
      = Ok (true, points, "Response needs more key concepts and details."))).
Proof.
  intros Hb Hlen found total.
  pose proof (essay_terms_range user_answer correct_answers) as Hr. fold found total in Hr.
  split; [exact Hr|].
  unfold _grade_essay. rewrite Hb.
  destruct (Nat.ltb_spec (String.length user_answer) 50) as [Hlt | _]; [lia|].
  unfold found, total in *. clear found total.
  destruct (essay_terms user_answer correct_answers) as [found total] eqn:Et. cbn [fst snd] in *.
  split.
  - intros ->. reflexivity.
  - intros Ht. destruct correct_answers as [| first rest].
    { rewrite essay_terms_nil in Et. injection Et as <- <-. lia. }
    exists first, rest. split; [reflexivity|].
    replace (0 <? total) with true by (symmetry; apply Z.ltb_lt; lia).
    rewrite truediv_ok by lia. cbn [res_bind]. rewrite fmin_ratio by lia.
    pose proof (FloatBands.fge_ratio_iff found total ltac:(lia)) as T8.
    pose proof (FloatBands.fge_half_iff found total ltac:(lia)) as T5.
    split; [|split].
    + intros H. rewrite (proj2 T8 H). reflexivity.
    + intros H8 H5.
      rewrite (not_true_is_false _ (fun C => Z.lt_irrefl _ (Z.lt_le_trans _ _ _ H8 (proj1 T8 C)))).
      rewrite (proj2 T5 H5). reflexivity.
    + intros H5.
      assert (E8 : Float.fge (Float.int_truediv found total) Float.f0_8 = false).
      { apply not_true_is_false. intro C. apply T8 in C. lia. }
      assert (E5 : Float.fge (Float.int_truediv found total) Float.f0_5 = false).
      { apply not_true_is_false. intro C. apply T5 in C. lia. }
      rewrite E8, E5. reflexivity.
Qed.

(** X18. For an answer of 50 characters or more that is not blank, with
    [found] of the [total] key terms of the key occurring in it
    ([0 <= found <= total], so that [min(match_ratio, 1.0)] is
    [match_ratio]): when the key has no key term the answer gets 0
    points and "Essay response received."; otherwise ([total <= 2^53])
    it gets [int(p0 * (found / total))] points of the first entry's [p0]
    and the feedback "Strong response" exactly when
    [found / total >= 0.8], "Good response" from 0.5 to below 0.8, and
    "Response needs more key concepts" below 0.5, the comparisons in
    double precision deciding exactly these conditions. *)
Theorem X18_essay_feedback_follows_the_share_of_key_terms
  (user_answer : string) (correct_answers : list QuizAnswer) :
  blank user_answer = false ->
  (50 <= String.length user_answer)%nat ->
  let found := fst (essay_terms user_answer correct_answers) in
  let total := snd (essay_terms user_answer correct_answers) in
  0 <= found <= total /\
  (total = 0 ->
   _grade_essay user_answer correct_answers = Ok (true, 0, "Essay response received.")) /\
  (0 < total <= 2 ^ 53 ->
   exists first rest,
     correct_answers = first :: rest /\
     let points :=
       partial_credit (points_awarded first) (Float.int_truediv found total) in
     (4 * total <= 5 * found ->
      _grade_essay user_answer correct_answers
      = Ok (true, points, "Strong response with good coverage of key concepts.")) /\
     (5 * found < 4 * total -> total <= 2 * found ->
      _grade_essay user_answer correct_answers
      = Ok (true, points, "Good response but could include more key concepts.")) /\
     (2 * found < total ->
      _grade_essay user_answer correct_answers
      = Ok (true, points, "Response needs more key concepts and details."))).
Proof.
  intros Hb Hlen. exact (essay_long_answer user_answer correct_answers Hb Hlen).
Qed.

(** X18 at a key without any word of more than three characters. *)
Lemma X18_witness_no_key_term :
  _grade_essay leaf_answer [key_entry 10%N "sun air" 10]
  = Ok (true, 0, "Essay response received.").
Proof.
  refine (proj1 (proj2 (X18_essay_feedback_follows_the_share_of_key_terms
                          leaf_answer [key_entry 10%N "sun air" 10] _ _)) _).
  - vm_compute. reflexivity.
  - vm_compute. lia.
  - vm_compute. reflexivity.
Defined.

(** X19. For a non-blank essay answer of 50 characters or more, a first
    correct entry that awards [p0 >= 0] points and a key of fewer than
    [2^20] key terms, [found] of which occur in the answer, the points
    [int(p0 * (found / total))] computed in double precision are the
    floor of the exact share [p0 * found / total], or one less; they are
    the floor whenever [total] does not divide [p0 * found].  The "one
    less" occurs: with 7 of 10 key terms and [p0 = 90] the answer gets
    62 points, not 63. *)
Theorem X19_essay_points_are_the_floor_of_the_share_or_one_less
  (user_answer : string) (first : QuizAnswer) (rest : list QuizAnswer) :
  blank user_answer = false ->
  (50 <= String.length user_answer)%nat ->
  let found := fst (essay_terms user_answer (first :: rest)) in
  let total := snd (essay_terms user_answer (first :: rest)) in
  let p0 := Int32.val (points_awarded first) in
  0 <= p0 ->
  0 < total < 2 ^ 20 ->
  (exists p fb,
     _grade_essay user_answer (first :: rest) = Ok (true, p, fb) /\
     p0 * found / total - 1 <= p <= p0 * found / total /\
     ((p0 * found) mod total <> 0 -> p = p0 * found / total)) /\
  (essay_terms seven_terms_answer [key_entry 10%N leaf_key 90] = (7, 10) /\
   _grade_essay seven_terms_answer [key_entry 10%N leaf_key 90]
   = Ok (true, 62, "Good response but could include more key concepts.") /\
   90 * 7 / 10 = 63).
Proof.
  intros Hb Hlen found total p0 Hp0 Ht. split.
  - destruct (essay_long_answer user_answer (first :: rest) Hb Hlen) as (Hr & _ & H).
    fold found total in Hr, H.
    destruct H as (first' & rest' & E & H8 & H5 & H0); [lia |].
    injection E as <- <-. fold p0 in H8, H5, H0.
    pose proof (Int32_bounds (points_awarded first)) as B. fold p0 in B.
    destruct (FloatError.partial_credit_share p0 found total ltac:(lia) Hr Ht) as [S1 S2].
    fold (partial_credit (points_awarded first) (Float.int_truediv found total)) in S1, S2.
    destruct (Z_le_gt_dec (4 * total) (5 * found)) as [C8 | C8].
    + eexists. eexists. split; [apply H8, C8 |]. split; [exact S1 | exact S2].
    + destruct (Z_le_gt_dec total (2 * found)) as [C5 | C5].
      * eexists. eexists. split; [apply H5; lia |]. split; [exact S1 | exact S2].
      * eexists. eexists. split; [apply H0; lia |]. split; [exact S1 | exact S2].
  - repeat split; vm_compute; reflexivity.
Qed.

(** X19 at the key of ten terms worth 10 points and the answer in which
    eight of them occur: 8 points. *)
Lemma X19_witness_leaf :
  exists p fb,
    _grade_essay leaf_answer [key_entry 10%N leaf_key 10] = Ok (true, p, fb) /\
    10 * 8 / 10 - 1 <= p <= 10 * 8 / 10.
Proof.
  destruct (proj1 (X19_essay_points_are_the_floor_of_the_share_or_one_less
                     leaf_answer (key_entry 10%N leaf_key 10) []
                     ltac:(vm_compute; reflexivity) ltac:(vm_compute; lia)
                     ltac:(vm_compute; discriminate)
                     ltac:(vm_compute; split; reflexivity)))
    as (p & fb & Hg & Hr & _).
  exists p, fb. split; [exact Hg | exact Hr].
Defined.

Lemma count_found_mono u u' terms found found' :
  covers terms u u' -> found <= found' ->
  count_found u terms found <= count_found u' terms found'.
Proof.
  unfold count_found. revert found found'.
  induction terms as [| t terms IH]; intros found found' Hc H; cbn [fold_left]; [exact H|].
  apply IH.
  - intros term Hin. apply Hc. right. exact Hin.
  - destruct (contains (lower t) (lower u)) eqn:E.
    + rewrite (Hc t (or_introl eq_refl) E). lia.
    + destruct (contains (lower t) (lower u')); lia.
Qed.

Lemma essay_fold_mono u u' correct_answers found found' total :
  (forall e, In e correct_answers -> covers (key_terms (answer_text e)) u u') ->
  found <= found' ->
  let step user_answer :=
    fun '(key_terms_found, total_key_terms) correct_answer =>
      let terms := key_terms (answer_text correct_answer) in
      (count_found user_answer terms key_terms_found,
       total_key_terms + Z.of_nat (length terms)) in
  fst (fold_left (step u) correct_answers (found, total))
  <= fst (fold_left (step u') correct_answers (found', total)) /\
  snd (fold_left (step u) correct_answers (found, total))
  = snd (fold_left (step u') correct_answers (found', total)).
Proof.
  revert found found' total.
  induction correct_answers as [| a rest IH]; intros found found' total Hc H step;
    cbn [fold_left fst snd]; [auto|].
  unfold step at 2 4 6 8. apply IH.
  - intros e He. apply Hc. right. exact He.
  - apply count_found_mono; [apply Hc; left; reflexivity | exact H].
Qed.

Lemma essay_terms_mono u u' correct_answers :
  (forall e, In e correct_answers -> covers (key_terms (answer_text e)) u u') ->
  fst (essay_terms u correct_answers) <= fst (essay_terms u' correct_answers) /\
  snd (essay_terms u correct_answers) = snd (essay_terms u' correct_answers).
Proof. intros Hc. apply (essay_fold_mono u u' correct_answers 0 0 0 Hc). lia. Qed.

Lemma int_truediv_mono a b n :
  a <= b -> 0 < n -> (Float.int_truediv a n <= Float.int_truediv b n)%Q.
Proof.
  intros H Hn. unfold Float.int_truediv. apply FloatFacts.RN_le.
  apply Qmult_le_compat_r.
  - rewrite <- Zle_Qle. exact H.
  - apply Qlt_le_weak, Qinv_lt_0_compat. change 0%Q with (inject_Z 0). rewrite <- Zlt_Qlt. exact Hn.
Qed.

Lemma partial_credit_mono (p : Int32.t) r r' :
  0 <= Int32.val p -> (0 <= r)%Q -> (r <= r')%Q -> partial_credit p r <= partial_credit p r'.
Proof.
  intros Hp H0 H. unfold partial_credit.
  pose proof (float_of_int_nonneg (Int32.val p) Hp) as P.
  assert (M : (Float.fmul (Float.float_of_int p) r <= Float.fmul (Float.float_of_int p) r')%Q).
  { unfold Float.fmul. apply FloatFacts.RN_le. rewrite !(Qmult_comm (Float.float_of_int p)).
    apply Qmult_le_compat_r; assumption. }
  rewrite !FloatFacts.int_of_float_nonneg.
  - apply Qfloor_resp_le, M.
  - apply fmul_nonneg; [exact P | lra].
  - apply fmul_nonneg; [exact P | exact H0].
Qed.

(** X20. An essay answer in which every key term occurs that occurs in
    another answer never gets fewer points than that one: for two
    answers of 50 characters or more that are not blank, the second
    containing (case ignored) each key term of the correct entries that
    the first contains, both are marked correct, the second counts at
    least as many key terms out of the same total, and its points
    [int(p0 * min(found / total, 1.0))], computed in double precision,
    are at least those of the first, provided that the first correct
    entry awards no negative points. *)
Theorem X20_essay_with_more_key_terms_never_scores_less
  (user_answer user_answer' : string) (correct_answers : list QuizAnswer) :
  blank user_answer = false ->
  blank user_answer' = false ->
  (50 <= String.length user_answer)%nat ->
  (50 <= String.length user_answer')%nat ->
  (forall correct_answer term,
     In correct_answer correct_answers ->
     In term (key_terms (answer_text correct_answer)) ->
     contains (lower term) (lower user_answer) = true ->
     contains (lower term) (lower user_answer') = true) ->
  (forall first rest, correct_answers = first :: rest -> 0 <= Int32.val (points_awarded first)) ->
  fst (essay_terms user_answer correct_answers)
  <= fst (essay_terms user_answer' correct_answers) /\
  snd (essay_terms user_answer correct_answers)
  = snd (essay_terms user_answer' correct_answers) /\
  exists p fb p' fb',
    _grade_essay user_answer correct_answers = Ok (true, p, fb) /\
    _grade_essay user_answer' correct_answers = Ok (true, p', fb') /\
    p <= p'.
Proof.
  intros Hb Hb' Hl Hl' Hc Hp.
  assert (Hc' : forall e, In e correct_answers ->
                          covers (key_terms (answer_text e)) user_answer user_answer')
    by (intros e He term Hin; exact (Hc e term He Hin)).
  destruct (essay_terms_mono user_answer user_answer' correct_answers Hc') as [Hf Ht].
  split; [exact Hf |]. split; [exact Ht |].
  pose proof (essay_terms_range user_answer correct_answers) as R.
  pose proof (essay_terms_range user_answer' correct_answers) as R'.
  unfold _grade_essay. rewrite Hb, Hb'.
  destruct (Nat.ltb_spec (String.length user_answer) 50) as [C | _]; [lia|].
  destruct (Nat.ltb_spec (String.length user_answer') 50) as [C | _]; [lia|].
  destruct (essay_terms user_answer correct_answers) as [found total].
  destruct (essay_terms user_answer' correct_answers) as [found' total'].
  cbn [fst snd] in *. subst total'.
  destruct (Z.ltb_spec 0 total) as [T | T].
  - rewrite !truediv_ok by lia. cbn [res_bind]. do 4 eexists.
    split; [reflexivity|]. split; [reflexivity|].
    destruct correct_answers as [| first rest]; [lia|].
    rewrite !fmin_ratio by lia.
    apply partial_credit_mono.
    + apply (Hp first rest eq_refl).
    + apply (FloatFacts.int_truediv_unit found total); lia.
    + apply int_truediv_mono; lia.
  - do 4 eexists. split; [reflexivity|]. split; [reflexivity|]. lia.
Qed.

(** X20 at an answer in which three of the ten key terms occur, and the
    same answer followed by a sentence with five more: 3 and 8 points. *)
Lemma X20_witness_leaf :
  let correct_answers := [key_entry 10%N leaf_key 10] in
  let user_answer' :=
    leaf_answer_start +:+ " Then water and carbon dioxide make glucose and oxygen." in
  exists p fb p' fb',
    _grade_essay leaf_answer_start correct_answers = Ok (true, p, fb) /\
    _grade_essay user_answer' correct_answers = Ok (true, p', fb') /\
    p <= p'.
Proof.
  intros correct_answers user_answer'.
  refine (proj2 (proj2 (X20_essay_with_more_key_terms_never_scores_less
                          leaf_answer_start user_answer' correct_answers _ _ _ _ _ _))).
  - vm_compute. reflexivity.
  - vm_compute. reflexivity.
  - vm_compute. lia.
  - vm_compute. lia.
  - intros correct_answer term [<- | []] Hin. vm_compute in Hin.
    repeat (destruct Hin as [<- | Hin]; [vm_compute; intros H; first [exact H | reflexivity] |]).
    destruct Hin.
  - intros first rest E. injection E as <- _. vm_compute. discriminate.
Defined.
